(** * gphotos: reconciliation-and-organization pipeline

    A shallow embedding of the parts of the Go program that its
    specification talks about: date resolution ([core/metadata]), the
    dedup engine ([core/dedup]), album assignment ([core/albums]), the
    scanner's album inference and sidecar prefix matching
    ([core/scanner]) and the collision resolver of the output pipeline
    ([core/output]).

    Conventions of the embedding.
    - A Go [string] is a Rocq [string] (a sequence of bytes); [len] is
      [String.length].
    - [int] and [int64] values are [Z]; where the source does arithmetic
      that can wrap, the wrap-around is written out.
    - A [*models.Photo] is a location in an explicit heap; a location
      that the heap does not map stands for the [nil] pointer.
    - A Go map is a [gmap]; a [nil] map is [None] where the source
      distinguishes it from an empty map.
    - Functions of the Go standard library and of the operating system
      that the program calls (file status, hashing of file contents,
      regular expressions, time parsing, map iteration order, path
      cleaning) are parameters of the definitions that use them. *)

From Stdlib Require Import ZArith String Ascii List Bool Lia.
From stdpp Require Import base option list gmap strings pretty sorting.

Open Scope string_scope.
Open Scope Z_scope.

(** ** Go strings *)

Module GoString.

(** [strings.HasPrefix(s, p)]. *)
Fixpoint HasPrefix (s p : string) {struct p} : bool :=
  match p with
  | EmptyString => true
  | String c p' =>
      match s with
      | EmptyString => false
      | String d s' => if Ascii.eqb c d then HasPrefix s' p' else false
      end
  end.

(** [s[:n]] for [n <= len(s)]. *)
Fixpoint take (n : nat) (s : string) : string :=
  match n, s with
  | S n', String c s' => String c (take n' s')
  | _, _ => EmptyString
  end.

(** [s[n:]] for [n <= len(s)]. *)
Fixpoint drop (n : nat) (s : string) : string :=
  match n, s with
  | S n', String _ s' => drop n' s'
  | _, _ => s
  end.

(** [strings.HasSuffix(s, suf)]:
    [len(s) >= len(suf) && s[len(s)-len(suf):] == suf]. *)
Definition HasSuffix (s suf : string) : bool :=
  (String.length suf <=? String.length s)%nat
  && String.eqb (drop (String.length s - String.length suf) s) suf.

(** [strings.TrimSuffix(s, suf)]. *)
Definition TrimSuffix (s suf : string) : string :=
  if HasSuffix s suf
  then take (String.length s - String.length suf) s
  else s.

(** Does the byte [c] occur in [s]? *)
Fixpoint hasByte (c : ascii) (s : string) : bool :=
  match s with
  | EmptyString => false
  | String d s' => Ascii.eqb c d || hasByte c s'
  end.

(** [strings.Split(s, sep)] for a one-byte separator: the pieces
    between the separators, at least one piece. *)
Fixpoint Split (s : string) (sep : ascii) : list string :=
  match s with
  | EmptyString => [EmptyString]
  | String c s' =>
      if Ascii.eqb c sep then EmptyString :: Split s' sep
      else match Split s' sep with
           | [] => [String c EmptyString]
           | piece :: pieces => String c piece :: pieces
           end
  end.

(** ASCII lower-casing: what [strings.ToLower] does on ASCII text. *)
Definition lowerByte (c : ascii) : ascii :=
  let n := nat_of_ascii c in
  if ((65 <=? n) && (n <=? 90))%nat then ascii_of_nat (n + 32) else c.

Fixpoint asciiLower (s : string) : string :=
  match s with
  | EmptyString => EmptyString
  | String c s' => String (lowerByte c) (asciiLower s')
  end.

End GoString.

(** ** Go paths ([path/filepath] on a system whose separator is [/]) *)

Module FilePath.
Import GoString.

Definition Separator : ascii := "/"%char.

(** The scan of [filepath.Ext]: from the right end towards the left,
    stopping at the first dot (the extension starts there) or at the
    first separator (no extension). [None]: neither was met. *)
Fixpoint extScan (path : string) : option string :=
  match path with
  | EmptyString => None
  | String c rest =>
      match extScan rest with
      | Some r => Some r
      | None =>
          if Ascii.eqb c "."%char then Some path
          else if Ascii.eqb c Separator then Some EmptyString
          else None
      end
  end.

Definition Ext (path : string) : string := default EmptyString (extScan path).

(** [filepath.Base]: strip trailing separators, keep the last element. *)
Fixpoint stripTrailingSeparators (path : string) : string :=
  match path with
  | EmptyString => EmptyString
  | String c rest =>
      match stripTrailingSeparators rest with
      | EmptyString => if Ascii.eqb c Separator then EmptyString else String c EmptyString
      | rest' => String c rest'
      end
  end.

Fixpoint lastElement (path : string) : string :=
  match path with
  | EmptyString => EmptyString
  | String c rest =>
      if hasByte Separator rest then lastElement rest
      else if Ascii.eqb c Separator then rest
      else path
  end.

Definition Base (path : string) : string :=
  if String.eqb path EmptyString then "."
  else match lastElement (stripTrailingSeparators path) with
       | EmptyString => "/"
       | elem => elem
       end.

End FilePath.

(** ** Output pipeline: collision-safe destination names *)

Module Output.
Import GoString FilePath.

(** The three outcomes of [os.Stat] that [uniquePath] tells apart:
    [err == nil], [os.IsNotExist(err)], and any other error. *)
Inductive StatResult :=
| StatOk
| StatNotExist
| StatFail (msg : string).

Inductive error :=
| StatError (msg : string)
| TooManyCollisions (filename : string).

Inductive pathResult :=
| Ok (path : string)
| Err (e : error).

Section UniquePath.
(** [filepath.Join] and the state of the file system as [os.Stat]
    reports it. *)
Variable Join : string -> string -> string.
Variable stat : string -> StatResult.

(** [hashPart]: the first eight bytes of the hash, or all of it. *)
Definition hashPart (hash : string) : string :=
  if String.eqb hash "" then ""
  else if (8 <? String.length hash)%nat then take 8 hash
  else hash.

(** [fmt.Sprintf("%s-%s%s", name, hashPart, ext)]. *)
Definition hashName (name part ext : string) : string :=
  name ++ "-" ++ part ++ ext.

(** [fmt.Sprintf("%s-%d%s", name, i, ext)]. *)
Definition numberedName (name : string) (i : nat) (ext : string) : string :=
  name ++ "-" ++ pretty i ++ ext.

(** The loop [for i := 1; i < 10000; i++], entered at [i] with
    [left] iterations to go. *)
Fixpoint trySuffixes (dir name ext filename : string) (i left : nat) : pathResult :=
  match left with
  | O => Err (TooManyCollisions filename)
  | S left' =>
      let path := Join dir (numberedName name i ext) in
      match stat path with
      | StatNotExist => Ok path
      | StatFail msg => Err (StatError msg)
      | StatOk => trySuffixes dir name ext filename (S i) left'
      end
  end.

Definition maxSuffixes : nat := Z.to_nat 9999.

Definition uniquePath (dir filename hash : string) : pathResult :=
  let path := Join dir filename in
  match stat path with
  | StatNotExist => Ok path
  | StatFail msg => Err (StatError msg)
  | StatOk =>
      let ext := Ext filename in
      let name := TrimSuffix filename ext in
      let part := hashPart hash in
      let numbered := trySuffixes dir name ext filename 1 maxSuffixes in
      if String.eqb part "" then numbered
      else
        let path := Join dir (hashName name part ext) in
        match stat path with
        | StatNotExist => Ok path
        | StatFail msg => Err (StatError msg)
        | StatOk => numbered
        end
  end.
End UniquePath.

(** A plain join for clean operands, and a file system given by the
    list of the paths that exist. *)
Definition joinPlain (dir filename : string) : string := dir ++ "/" ++ filename.

Definition statOf (existing : list string) (path : string) : StatResult :=
  if bool_decide (path ∈ existing) then StatOk else StatNotExist.

End Output.

(** ** Date resolution ([core/metadata]) *)

Module Metadata.
Import GoString FilePath.

(** A [time.Time] as the instant it denotes: seconds since January 1 of
    year 1, 00:00:00 UTC (the library's internal count) and nanoseconds
    within the second. The times whose year the package asks for come
    from [time.Unix] and [time.ParseInLocation(..., time.Local)] and are
    compared with [time.Now]: all carry the local zone, so the zone is
    not part of the value. *)
Record Time := mkTime { sec : Z; nsec : Z }.

(** [time.Time{}]. *)
Definition zeroTime : Time := mkTime 0 0.

Definition unixToInternal : Z := 62135596800.

Definition IsZero (t : Time) : bool := (sec t =? 0) && (nsec t =? 0).

(** [t.Before(u)]. *)
Definition Before (t u : Time) : bool :=
  (sec t <? sec u) || ((sec t =? sec u) && (nsec t <? nsec u)).

(** Two's complement wrap-around of [int64]. *)
Definition wrap64 (z : Z) : Z := (z + 2 ^ 63) mod 2 ^ 64 - 2 ^ 63.

(** [time.Unix(sec, nsec)]: nanoseconds outside [0, 1e9) are carried
    into the seconds. *)
Definition Unix (s ns : Z) : Time :=
  mkTime (wrap64 (wrap64 (s + ns / 1000000000) + unixToInternal)) (ns mod 1000000000).

(** The year of the proleptic Gregorian calendar that contains day
    [days], counted from 1970-01-01. *)
Definition yearOfDays (days : Z) : Z :=
  let z := days + 719468 in
  let era := z / 146097 in
  let doe := z - era * 146097 in
  let yoe := (doe - doe / 1460 + doe / 36524 - doe / 146096) / 365 in
  let doy := doe - (365 * yoe + yoe / 4 - yoe / 100) in
  let mp := (5 * doy + 2) / 153 in
  let m := if mp <? 10 then mp + 3 else mp - 9 in
  if m <=? 2 then yoe + era * 400 + 1 else yoe + era * 400.

(** [regexp.Regexp], as far as this package uses it: [FindString]
    returns the empty string and [FindStringSubmatch] the empty slice
    when there is no match. *)
Record Regexp := mkRegexp {
  FindString : string -> string;
  FindStringSubmatch : string -> list string
}.

Record datePattern := mkDatePattern {
  re : Regexp;
  parse : string -> Time * bool
}.

Record CustomPattern := mkCustomPattern {
  Regex : string;
  Layout : string
}.

Definition DateAccuracyJSON : Z := 1.
Definition DateAccuracyFilename : Z := 2.
Definition DateAccuracyExif : Z := 3.
Definition DateAccuracyNone : Z := 99.

(** What the package takes from the Go library, the operating system
    and the external metadata tool. *)
Class Env := {
  (** [regexp.MustCompile] on the literals of the source, and
      [regexp.Compile] ([None]: the expression does not compile). *)
  MustCompile : string -> Regexp;
  Compile : string -> option Regexp;
  (** [strconv.ParseInt(s, 10, 64)] ([None]: error). *)
  ParseInt : string -> option Z;
  (** [time.ParseInLocation(layout, value, time.Local)] ([None]: error). *)
  ParseInLocation : string -> string -> option Time;
  ToUpper : string -> string;
  TrimSpace : string -> string;
  (** Offset of the local zone, in seconds east of UTC, at an instant
      given in Unix seconds. *)
  localOffset : Z -> Z;
  (** [time.Now()]. *)
  Now : Time;
  (** [ParseJSONTakenTime] reads and decodes the sidecar file. *)
  ParseJSONTakenTime : string -> Time * bool;
  (** [ParseExifTakenTime] asks the external tool. *)
  ParseExifTakenTime : string -> Time * bool
}.

Section WithEnv.
Context `{Env}.

(** [t.Year()] in the local zone. *)
Definition Year (t : Time) : Z :=
  let unix := sec t - unixToInternal in
  yearOfDays ((unix + localOffset unix) / 86400).

Definition ParseWithLayout (layout value : string) : Time * bool :=
  let l := ToUpper (TrimSpace layout) in
  if String.eqb l "UNIXMS" then
    match ParseInt (TrimSpace value) with
    | None => (zeroTime, false)
    | Some ms => (Unix 0 (wrap64 (ms * 1000000)), true)
    end
  else if String.eqb l "UNIX" then
    match ParseInt (TrimSpace value) with
    | None => (zeroTime, false)
    | Some s => (Unix s 0, true)
    end
  else
    match ParseInLocation layout value with
    | None => (zeroTime, false)
    | Some t => (t, true)
    end.

Definition parseLayout (layout : string) : string -> Time * bool :=
  fun s => ParseWithLayout layout s.

Definition parseDigitsFirst14 : string -> Time * bool :=
  fun s =>
    let digits := FindString (MustCompile "\d+") s in
    if (String.length digits <? 14)%nat then (zeroTime, false)
    else
      match ParseInLocation "20060102150405" (take 14 digits) with
      | None => (zeroTime, false)
      | Some t => (t, true)
      end.

Definition parseWhatsApp : string -> Time * bool :=
  fun s =>
    let m := FindStringSubmatch (MustCompile "(?i)(IMG|VID)-(\d{8})-WA\d+") s in
    if (length m <? 3)%nat then (zeroTime, false)
    else
      match ParseInLocation "20060102" (m !!! 2%nat) with
      | None => (zeroTime, false)
      | Some t => (t, true)
      end.

Definition parsePixelMillis : string -> Time * bool :=
  fun s =>
    let m := FindStringSubmatch (MustCompile "(?i)PXL_(\d{8})_(\d{9})") s in
    if (length m <? 3)%nat then (zeroTime, false)
    else
      let timePart := m !!! 2%nat in
      if (String.length timePart <? 6)%nat then (zeroTime, false)
      else
        let ts := "PXL_" ++ m !!! 1%nat ++ "_" ++ take 6 timePart in
        parseLayout "PXL_20060102_150405" ts.

Definition parseSnapchatUnix : string -> Time * bool :=
  fun s =>
    let m := FindStringSubmatch (MustCompile "(?i)Snapchat-(\d{10})") s in
    if (length m <? 2)%nat then (zeroTime, false)
    else ParseWithLayout "UNIX" (m !!! 1%nat).

Definition parseSnapchatUnixMillis : string -> Time * bool :=
  fun s =>
    let m := FindStringSubmatch (MustCompile "(?i)Snapchat-(\d{13})") s in
    if (length m <? 2)%nat then (zeroTime, false)
    else ParseWithLayout "UNIXMS" (m !!! 1%nat).

(** The built-in rules, in their priority order. *)
Definition datePatterns : list datePattern := [
  mkDatePattern (MustCompile "(?i)(20|19|18)\d{2}(0[1-9]|1[0-2])[0-3]\d-\d{6}")
                (parseLayout "20060102-150405");
  mkDatePattern (MustCompile "(?i)(20|19|18)\d{2}(0[1-9]|1[0-2])[0-3]\d_\d{6}")
                (parseLayout "20060102_150405");
  mkDatePattern (MustCompile "(?i)(20|19|18)\d{2}-(0[1-9]|1[0-2])-[0-3]\d-\d{2}-\d{2}-\d{2}")
                (parseLayout "2006-01-02-15-04-05");
  mkDatePattern (MustCompile "(?i)(20|19|18)\d{2}-(0[1-9]|1[0-2])-[0-3]\d-\d{6}")
                (parseLayout "2006-01-02-150405");
  mkDatePattern (MustCompile "(?i)(20|19|18)\d{2}(0[1-9]|1[0-2])[0-3]\d\d{7,}")
                parseDigitsFirst14;
  mkDatePattern (MustCompile "(?i)(20|19|18)\d{2}_(0[1-9]|1[0-2])_[0-3]\d_\d{2}_\d{2}_\d{2}")
                (parseLayout "2006_01_02_15_04_05");
  mkDatePattern (MustCompile "(?i)(IMG|VID)-\d{8}-WA\d+") parseWhatsApp;
  mkDatePattern (MustCompile "(?i)Snapchat-(\d{10})") parseSnapchatUnix;
  mkDatePattern (MustCompile "(?i)Snapchat-(\d{10})-edited") parseSnapchatUnix;
  mkDatePattern (MustCompile "(?i)Snapchat-(\d{13})") parseSnapchatUnixMillis;
  mkDatePattern (MustCompile "(?i)Snapchat-(\d{13})-edited") parseSnapchatUnixMillis;
  mkDatePattern (MustCompile "(?i)PXL_\d{8}_\d{6}") (parseLayout "PXL_20060102_150405");
  mkDatePattern (MustCompile "(?i)PXL_\d{8}_\d{9}") parsePixelMillis;
  mkDatePattern (MustCompile "(?i)(IMG|VID)_\d{8}_\d{6}") (parseLayout "IMG_20060102_150405")
].

(** The loop of [GuessDateFromFilename] over the rules that are left. *)
Fixpoint guessLoop (base : string) (patterns : list datePattern) : Time * bool :=
  match patterns with
  | [] => (zeroTime, false)
  | pat :: rest =>
      let matched := FindString (re pat) base in
      if String.eqb matched "" then guessLoop base rest
      else
        let '(t, ok) := parse pat matched in
        if ok then (t, true) else guessLoop base rest
  end.

Definition GuessDateFromFilename (path : string) : Time * bool :=
  guessLoop (Base path) datePatterns.

Definition isReasonable (t : Time) : bool :=
  if IsZero t then false
  else
    let year := Year t in
    if year <? 1990 then false
    else if Year Now + 1 <? year then false
    else true.

Definition shouldOverrideJSON (jsonTime fileTime : Time) : bool :=
  if negb (Before fileTime jsonTime) then false
  else if negb (isReasonable fileTime) then false
  else true.

Definition ExtractBestDate (srcPath jsonPath : string) : Time * Z * bool :=
  let '(jsonTime, hasJSON) := ParseJSONTakenTime jsonPath in
  let '(fileTime, hasFile) := GuessDateFromFilename srcPath in
  let '(exifTime, hasExif) := ParseExifTakenTime srcPath in
  if hasJSON && hasFile then
    if shouldOverrideJSON jsonTime fileTime
    then (fileTime, DateAccuracyFilename, true)
    else (jsonTime, DateAccuracyJSON, true)
  else if hasJSON then (jsonTime, DateAccuracyJSON, true)
  else if hasFile then (fileTime, DateAccuracyFilename, true)
  else if hasExif then (exifTime, DateAccuracyExif, true)
  else (zeroTime, DateAccuracyNone, false).

(** The loop of [guessWithPatterns]. *)
Fixpoint guessSubmatchLoop (base : string) (patterns : list datePattern) : Time * bool :=
  match patterns with
  | [] => (zeroTime, false)
  | pat :: rest =>
      let sub := FindStringSubmatch (re pat) base in
      if (length sub =? 0)%nat then guessSubmatchLoop base rest
      else
        let target := if (1 <? length sub)%nat then sub !!! 1%nat else sub !!! 0%nat in
        let '(t, ok) := parse pat target in
        if ok then (t, true) else guessSubmatchLoop base rest
  end.

Definition guessWithPatterns (path : string) (patterns : list datePattern) : Time * bool :=
  if (length patterns =? 0)%nat then (zeroTime, false)
  else guessSubmatchLoop (Base path) patterns.

Fixpoint buildCustomPatterns (custom : list CustomPattern) : list datePattern :=
  match custom with
  | [] => []
  | c :: rest =>
      if String.eqb (Regex c) "" || String.eqb (Layout c) "" then buildCustomPatterns rest
      else
        match Compile (Regex c) with
        | None => buildCustomPatterns rest
        | Some r => mkDatePattern r (parseLayout (Layout c)) :: buildCustomPatterns rest
        end
  end.

(** [exclude[base]] on a [map[string]bool]: a missing key reads [false]. *)
Definition isExcluded (path : string) (exclude : gmap string bool) : bool :=
  if (size exclude =? 0)%nat then false
  else default false (exclude !! Base path).

Definition GuessDateFromFilenameWithCustomAndExclusions
    (path : string) (custom : list CustomPattern) (exclude : gmap string bool) : Time * bool :=
  if isExcluded path exclude then (zeroTime, false)
  else
    let '(t, ok) := guessWithPatterns path (buildCustomPatterns custom) in
    if ok then (t, true)
    else if isExcluded path exclude then (zeroTime, false)
    else GuessDateFromFilename path.

(** Returns the chosen time, its accuracy, whether one was found, and
    the embedded-tag time with its flag. *)
Definition ExtractBestDateWithCustomAndExclusions
    (srcPath : string) (jsonTime : Time) (hasJSON : bool)
    (custom : list CustomPattern) (exclude : gmap string bool)
    : Time * Z * bool * Time * bool :=
  let '(fileTime, hasFile) := GuessDateFromFilenameWithCustomAndExclusions srcPath custom exclude in
  if hasJSON && hasFile then
    if shouldOverrideJSON jsonTime fileTime
    then (fileTime, DateAccuracyFilename, true, zeroTime, false)
    else (jsonTime, DateAccuracyJSON, true, zeroTime, false)
  else if hasJSON then (jsonTime, DateAccuracyJSON, true, zeroTime, false)
  else if hasFile then (fileTime, DateAccuracyFilename, true, zeroTime, false)
  else
    let '(exifTime, hasExif) := ParseExifTakenTime srcPath in
    if hasExif then (exifTime, DateAccuracyExif, true, exifTime, hasExif)
    else (zeroTime, DateAccuracyNone, false, exifTime, hasExif).


End WithEnv.

(** A small environment to run the definitions in: every name carries
    the date 2019-09-19 05:38:57 UTC, the sidecar [late.json] says
    2020-01-01 00:00:00 UTC, the clock reads 2026-01-01, the zone is UTC. *)
Definition sampleFileTime : Time := mkTime (1568871537 + unixToInternal) 0.
Definition sampleJSONTime : Time := mkTime (1577836800 + unixToInternal) 0.

Definition sampleEnv : Env := {|
  MustCompile := fun _ => mkRegexp (fun s => s) (fun s => [s]);
  Compile := fun _ => Some (mkRegexp (fun s => s) (fun s => [s]));
  ParseInt := fun _ => None;
  ParseInLocation := fun _ _ => Some sampleFileTime;
  ToUpper := fun s => s;
  TrimSpace := fun s => s;
  localOffset := fun _ => 0;
  Now := mkTime (1767225600 + unixToInternal) 0;
  ParseJSONTakenTime := fun path =>
    if String.eqb path "late.json" then (sampleJSONTime, true) else (zeroTime, false);
  ParseExifTakenTime := fun _ => (zeroTime, false)
|}.

End Metadata.

(** ** Scanner: album inference and sidecar prefix matching *)

Module Scanner.
Import GoString FilePath.

Record jsonTitleEntry := mkEntry {
  Title : string;
  Path : string
}.

Definition stripExt (path : string) : string :=
  let ext := Ext path in
  if String.eqb ext "" then path else TrimSuffix path ext.

Section WithLibrary.
(** [strings.ToLower], [filepath.Dir] and [filepath.Rel] (its error is
    dropped by the caller, the string is empty in that case). *)
Variable ToLower : string -> string.
Variable Dir : string -> string.
Variable Rel : string -> string -> string.

(** The loop of [pickPrefixCandidate]; the state is [(best, bestLen)]. *)
Fixpoint prefixLoop (ext baseNoExt : string) (entries : list jsonTitleEntry)
    (state : string * nat) : string * nat :=
  match entries with
  | [] => state
  | entry :: rest =>
      let title := ToLower (Title entry) in
      if String.eqb ext "" then prefixLoop ext baseNoExt rest state
      else if negb (HasSuffix title ext) then prefixLoop ext baseNoExt rest state
      else
        let titleBase := TrimSuffix title ext in
        if negb (HasPrefix titleBase baseNoExt) then prefixLoop ext baseNoExt rest state
        else if String.eqb (fst state) "" || (String.length titleBase <? snd state)%nat
        then prefixLoop ext baseNoExt rest (Path entry, String.length titleBase)
        else prefixLoop ext baseNoExt rest state
  end.

Definition pickPrefixCandidate (mediaPath : string)
    (jsonByDir : gmap string (list jsonTitleEntry)) : string :=
  let dir := Dir mediaPath in
  let entries := default [] (jsonByDir !! dir) in
  if (length entries =? 0)%nat then ""
  else
    let base := Base mediaPath in
    let baseNoExt := stripExt base in
    let ext := ToLower (Ext base) in
    let baseNoExt := ToLower baseNoExt in
    fst (prefixLoop ext baseNoExt entries ("", 0%nat)).

Definition detectAlbum (root path : string) : string :=
  let rel := Rel root path in
  let parts := Split rel Separator in
  if (1 <? length parts)%nat then
    if String.eqb (parts !!! 0%nat) "Google Photos" && (2 <? length parts)%nat then
      if negb (HasPrefix (parts !!! 1%nat) "Photos from") then parts !!! 1%nat
      else ""
    else if negb (HasPrefix (parts !!! 0%nat) "Photos from") then parts !!! 0%nat
    else ""
  else "".

(** The three tests an entry has to pass in [prefixLoop], and the
    length the loop compares. *)
Definition qualifies (ext baseNoExt : string) (entry : jsonTitleEntry) : bool :=
  negb (String.eqb ext "")
  && HasSuffix (ToLower (Title entry)) ext
  && HasPrefix (TrimSuffix (ToLower (Title entry)) ext) baseNoExt.

Definition titleBaseLength (ext : string) (entry : jsonTitleEntry) : nat :=
  String.length (TrimSuffix (ToLower (Title entry)) ext).

(** The rule in the words of the specification: the title ends with the
    media file's extension and the title without it is a prefix of the
    media base name. *)
Definition claimedQualifies (ext baseNoExt : string) (entry : jsonTitleEntry) : bool :=
  HasSuffix (ToLower (Title entry)) ext
  && HasPrefix baseNoExt (TrimSuffix (ToLower (Title entry)) ext).

(** The prefix rule as the specification words it: the shortest title
    among the entries that [claimedQualifies], no match when there is none. *)
Definition claimedPrefixRule (mediaPath : string)
    (jsonByDir : gmap string (list jsonTitleEntry)) : Prop :=
  let entries := default [] (jsonByDir !! Dir mediaPath) in
  let ext := ToLower (Ext (Base mediaPath)) in
  let baseNoExt := ToLower (stripExt (Base mediaPath)) in
  ((forall e, e ∈ entries -> claimedQualifies ext baseNoExt e = false) ->
     pickPrefixCandidate mediaPath jsonByDir = "")
  /\ ((exists e, e ∈ entries /\ claimedQualifies ext baseNoExt e = true) ->
       exists w, w ∈ entries /\ claimedQualifies ext baseNoExt w = true /\
         pickPrefixCandidate mediaPath jsonByDir = Path w /\
         forall e, e ∈ entries -> claimedQualifies ext baseNoExt e = true ->
           (titleBaseLength ext w <= titleBaseLength ext e)%nat).

(** The state of [prefixLoop] after the entries [seen]: nothing chosen
    and nothing qualified, or the first of the qualifying entries with
    the shortest title. *)
Definition prefixInvariant (ext baseNoExt : string) (seen : list jsonTitleEntry)
    (state : string * nat) : Prop :=
  (fst state = "" /\ forall e, e ∈ seen -> qualifies ext baseNoExt e = false)
  \/ (exists (i : nat) (w : jsonTitleEntry),
        seen !! i = Some w /\ fst state = Path w /\
        snd state = titleBaseLength ext w /\
        qualifies ext baseNoExt w = true /\
        forall (j : nat) e, seen !! j = Some e -> qualifies ext baseNoExt e = true ->
          (titleBaseLength ext w <= titleBaseLength ext e)%nat /\
          (titleBaseLength ext e = titleBaseLength ext w -> (i <= j)%nat)).

End WithLibrary.

(** The sidecars of a sample directory. *)
Definition sampleEntries : list jsonTitleEntry :=
  [mkEntry "IMG_20190919_053857(1).jpg" "/d/a.json";
   mkEntry "IMG_20190919_053857.JPG" "/d/b.json";
   mkEntry "IMG_2019.jpg" "/d/c.json"].

(** For a clean [root] and a clean [path] below it, [filepath.Rel] is
    what follows [root] and the separator; for a clean path with a
    separator in it, [filepath.Dir] is what precedes the last one. *)
Definition relBelow (root path : string) : string :=
  if HasPrefix path (root ++ "/") then drop (String.length root + 1) path else "".

Definition dirOf (path : string) : string :=
  take (String.length path - String.length (lastElement path) - 1) path.

End Scanner.

(** ** Photo records and the heap they live in *)

Module Models.

(** [models.MetaData]; the GPS numbers (floating point) and the origin
    flags are not touched by any function of this development and are
    left out. *)
Record MetaData := mkMeta {
  TakenTime : string;
  CreationTime : string;
  Description : string;
  Favorited : bool;
  People : list string;
  URL : string;
  AppSource : string
}.

Definition emptyMeta : MetaData := mkMeta "" "" "" false [] "" "".

Record Photo := mkPhoto {
  Hash : string;
  HashError : bool;
  SrcPath : string;
  JsonPath : string;
  Meta : MetaData;
  Albums : option (gmap string bool);
  FinalAlbum : string;
  DateAccuracy : Z;
  Size : Z
}.

Definition setHash (v : string) (p : Photo) : Photo :=
  mkPhoto v (HashError p) (SrcPath p) (JsonPath p) (Meta p) (Albums p)
          (FinalAlbum p) (DateAccuracy p) (Size p).

Definition setHashError (v : bool) (p : Photo) : Photo :=
  mkPhoto (Hash p) v (SrcPath p) (JsonPath p) (Meta p) (Albums p)
          (FinalAlbum p) (DateAccuracy p) (Size p).

Definition setAlbums (v : option (gmap string bool)) (p : Photo) : Photo :=
  mkPhoto (Hash p) (HashError p) (SrcPath p) (JsonPath p) (Meta p) v
          (FinalAlbum p) (DateAccuracy p) (Size p).

Definition setFinalAlbum (v : string) (p : Photo) : Photo :=
  mkPhoto (Hash p) (HashError p) (SrcPath p) (JsonPath p) (Meta p) (Albums p)
          v (DateAccuracy p) (Size p).

Definition setSize (v : Z) (p : Photo) : Photo :=
  mkPhoto (Hash p) (HashError p) (SrcPath p) (JsonPath p) (Meta p) (Albums p)
          (FinalAlbum p) (DateAccuracy p) v.

(** A [*Photo] is a location; the heap maps the locations that are in
    use, any other location is the [nil] pointer. *)
Definition loc := nat.
Abbreviation heap := (gmap nat Photo).

(** [m[name]] on a [map[string]bool] that may be [nil]. *)
Definition albumFlag (albums : option (gmap string bool)) (name : string) : bool :=
  match albums with
  | None => false
  | Some m => default false (m !! name)
  end.

End Models.

(** ** Album assignment ([core/albums]) *)

Module AlbumsPkg.
Import Models.

(** The inner loop of [AssignFinalAlbums]: the first selected name that
    the photo is a member of, or the empty string. *)
Fixpoint pickAlbum (albums : option (gmap string bool)) (selected : list string) : string :=
  match selected with
  | [] => ""
  | name :: rest => if albumFlag albums name then name else pickAlbum albums rest
  end.

(** The loop body for a photo that is not [nil]. *)
Definition assignOne (selected : list string) (p : Photo) : Photo :=
  let p := setFinalAlbum "" p in
  match Albums p with
  | None => p
  | Some _ =>
      if (length selected =? 0)%nat then p
      else setFinalAlbum (pickAlbum (Albums p) selected) p
  end.

(** The progress callback and the log lines are not modelled. *)
Fixpoint AssignFinalAlbums (h : heap) (photos : list loc) (selected : list string) : heap :=
  match photos with
  | [] => h
  | p :: rest =>
      match h !! p with
      | None => AssignFinalAlbums h rest selected
      | Some ph => AssignFinalAlbums (<[p := assignOne selected ph]> h) rest selected
      end
  end.

(** A photo that was exported under two albums. *)
Definition samplePhoto : Photo :=
  mkPhoto "9f86d081884c7d65" false "/takeout/Trip/IMG_0001.jpg" "" emptyMeta
          (Some {[ "Trip" := true; "Family" := true ]}) "" 99 1024.

End AlbumsPkg.

(** ** Dedup engine ([core/dedup]) *)

Module Dedup.
Import Models.

Record FilePair := mkPair {
  MediaPath : string;
  PairJsonPath : string;
  Album : string
}.

Record hashCacheEntry := mkCacheEntry {
  EntrySize : Z;
  MtimeNs : Z;
  EntryHash : string
}.

(** [Files] is [None] for the [nil] map of the zero value [hashCache{}]. *)
Record hashCache := mkCache {
  Files : option (gmap string hashCacheEntry)
}.

Inductive ReadResult :=
| ReadOk (data : string)
| ReadNotExist
| ReadFail.

(** What the package takes from the operating system, the Go library
    and the Go runtime. *)
Class Env := {
  (** [os.ReadFile]: the data, an error with [os.IsNotExist], or another
      error. *)
  ReadFile : string -> ReadResult;
  (** [json.Unmarshal(data, &c)]: [None] is an error, otherwise the value
      of [c.Files] afterwards. *)
  UnmarshalCache : string -> option (option (gmap string hashCacheEntry));
  (** [os.Stat]: size and modification time in nanoseconds, [None] on error. *)
  StatFile : string -> option (Z * Z);
  (** [HashFile]: the hex digest of the file's content, [None] on error. *)
  HashFile : string -> option string;
  (** The order in which a [range] over a map visits it: over the size
      groups and over the hash groups in [GroupIdentical], over the final
      groups in [MergeIdentical]. *)
  rangeSizes : gmap Z (list loc) -> list (Z * list loc);
  rangeGroups : gmap string (list loc) -> list (string * list loc);
  rangeFinal : gmap string (list loc) -> list (string * list loc);
  (** [sort.Slice], as a function of the comparison and the slice. *)
  sortSlice : (loc -> loc -> bool) -> list loc -> list loc
}.

(** What the program relies on: a [range] visits every entry once, and
    sorting permutes the slice. *)
Definition rangeLaw `{Env} : Prop :=
  (forall m, rangeSizes m ≡ₚ map_to_list m) /\
  (forall m, rangeGroups m ≡ₚ map_to_list m) /\
  (forall m, rangeFinal m ≡ₚ map_to_list m).

Definition sortLaw `{Env} : Prop :=
  forall less l, sortSlice less l ≡ₚ l.

(** The insertion sort that [sort.Slice] runs on a short slice (up to
    twelve elements since Go 1.19, up to six before): each element in
    turn sinks towards the front while it is [less] than its left
    neighbour. The sorted prefix is kept reversed. *)
Fixpoint sink (less : loc -> loc -> bool) (x : loc) (revPrefix : list loc) : list loc :=
  match revPrefix with
  | [] => [x]
  | y :: ys => if less x y then y :: sink less x ys else x :: y :: ys
  end.

Definition insertionSort (less : loc -> loc -> bool) (l : list loc) : list loc :=
  rev (foldl (fun revPrefix x => sink less x revPrefix) [] l).

Section WithEnv.
Context `{Env}.

Definition emptyCache : hashCache := mkCache (Some ∅).

(** Returns the cache and whether the error is not [nil]. *)
Definition LoadHashCache (path : string) : hashCache * bool :=
  if String.eqb path "" then (emptyCache, false)
  else
    match ReadFile path with
    | ReadNotExist => (emptyCache, false)
    | ReadFail => (mkCache None, true)
    | ReadOk data =>
        match UnmarshalCache data with
        | None => (mkCache None, true)
        | Some None => (emptyCache, false)
        | Some (Some files) => (mkCache (Some files), false)
        end
    end.

(** [cache.Files[path]], with the "comma ok" flag as [option]. *)
Definition cacheLookup (cache : hashCache) (path : string) : option hashCacheEntry :=
  match Files cache with
  | None => None
  | Some files => files !! path
  end.

(** [cache.Files[path] = entry]; [None] is the run-time panic of an
    assignment to an entry of a [nil] map. *)
Definition cacheStore (cache : hashCache) (path : string) (entry : hashCacheEntry)
    : option hashCache :=
  match Files cache with
  | None => None
  | Some files => Some (mkCache (Some (<[path := entry]> files)))
  end.

Record registryState := mkState {
  registry : gmap string loc;
  photoHeap : heap;
  cache : hashCache
}.

(** One iteration of the loop of [BuildRegistry]; [None] is a panic. *)
Definition registryStep (st : registryState) (p : FilePair) : option registryState :=
  match StatFile (MediaPath p) with
  | None => Some st
  | Some (size, mtime) =>
      let hash :=
        match cacheLookup (cache st) (MediaPath p) with
        | Some entry =>
            if (EntrySize entry =? size) && (MtimeNs entry =? mtime)
               && negb (String.eqb (EntryHash entry) "")
            then EntryHash entry else ""
        | None => ""
        end in
      let '(hash, hashErr) :=
        if String.eqb hash "" then
          match HashFile (MediaPath p) with
          | Some h => (h, false)
          | None => ("", true)
          end
        else (hash, false) in
      let key := if hashErr then "nohash:" ++ MediaPath p else hash in
      let hash := if hashErr then "" else hash in
      cache' ←
        (if hashErr then Some (cache st)
         else if negb (String.eqb hash "")
         then cacheStore (cache st) (MediaPath p) (mkCacheEntry size mtime hash)
         else Some (cache st));
      let '(l, reg, hp) :=
        match registry st !! key with
        | Some l => (l, registry st, photoHeap st)
        | None =>
            let l := fresh (dom (photoHeap st)) in
            (l, <[key := l]> (registry st),
             <[l := mkPhoto hash hashErr (MediaPath p) (PairJsonPath p) emptyMeta
                      (Some ∅) "" 0 0]> (photoHeap st))
        end in
      photo ← hp !! l;
      photo ←
        (if negb (String.eqb (Album p) "") then
           match Albums photo with
           | None => None
           | Some albums => Some (setAlbums (Some (<[Album p := true]> albums)) photo)
           end
         else Some photo);
      Some (mkState reg (<[l := setSize size photo]> hp) cache')
  end.

Fixpoint registryLoop (st : registryState) (pairs : list FilePair) : option registryState :=
  match pairs with
  | [] => Some st
  | p :: rest => st' ← registryStep st p; registryLoop st' rest
  end.

(** The result is the registry with the heap of its photos; the cache
    that [SaveHashCache] is given at the end comes along. [None] is a
    panic. The progress callback and the log lines are not modelled. *)
Definition BuildRegistry (pairs : list FilePair) (cachePath : string) : option registryState :=
  let '(cache, _) := LoadHashCache cachePath in
  registryLoop (mkState ∅ ∅ cache) pairs.

(** [sizeGroups[p.Size] = append(sizeGroups[p.Size], p)] for every photo. *)
Fixpoint groupBySize (h : heap) (photos : list loc) (sizeGroups : gmap Z (list loc))
    : option (gmap Z (list loc)) :=
  match photos with
  | [] => Some sizeGroups
  | p :: rest =>
      ph ← h !! p;
      groupBySize h rest
        (<[Size ph := (default [] (sizeGroups !! Size ph) ++ [p])%list]> sizeGroups)
  end.

(** [fmt.Sprintf("%dbytes", size)] and [fmt.Sprintf("nohash:%d:%s", size, path)]. *)
Definition sizeKey (size : Z) : string := pretty size ++ "bytes".
Definition nohashKey (size : Z) (path : string) : string :=
  "nohash:" ++ pretty size ++ ":" ++ path.

(** The body of the loop over a size group with more than one member:
    the key the photo is filed under, and the heap after the photo was
    hashed or flagged. *)
Definition hashStep (h : heap) (size : Z) (p : loc) : option (heap * string) :=
  ph ← h !! p;
  if HashError ph then Some (h, nohashKey size (SrcPath ph))
  else if String.eqb (Hash ph) "" then
    match HashFile (SrcPath ph) with
    | None => Some (<[p := setHashError true ph]> h, nohashKey size (SrcPath ph))
    | Some digest => Some (<[p := setHash digest ph]> h, digest)
    end
  else Some (h, Hash ph).

Fixpoint groupByHash (h : heap) (size : Z) (group : list loc)
    (hashGroups : gmap string (list loc)) : option (heap * gmap string (list loc)) :=
  match group with
  | [] => Some (h, hashGroups)
  | p :: rest =>
      '(h', key) ← hashStep h size p;
      groupByHash h' size rest (<[key := (default [] (hashGroups !! key) ++ [p])%list]> hashGroups)
  end.

(** [for hash, g := range hashGroups { finalGroups[hash] = g }]. *)
Definition storeGroups (entries : list (string * list loc))
    (finalGroups : gmap string (list loc)) : gmap string (list loc) :=
  foldl (fun groups entry => <[fst entry := snd entry]> groups) finalGroups entries.

(** The loop over the size groups. *)
Fixpoint groupLoop (h : heap) (sizes : list (Z * list loc))
    (finalGroups : gmap string (list loc)) : option (heap * gmap string (list loc)) :=
  match sizes with
  | [] => Some (h, finalGroups)
  | (size, group) :: rest =>
      if (length group =? 1)%nat then
        groupLoop h rest (<[sizeKey size := group]> finalGroups)
      else
        '(h', hashGroups) ← groupByHash h size group ∅;
        groupLoop h' rest (storeGroups (rangeGroups hashGroups) finalGroups)
  end.

(** The groups and the heap after the hashing; [None] is the panic of a
    [nil] photo. *)
Definition GroupIdentical (h : heap) (photos : list loc)
    : option (heap * gmap string (list loc)) :=
  sizeGroups ← groupBySize h photos ∅;
  groupLoop h (rangeSizes sizeGroups) ∅.

(** The comparison that [chooseBest] hands to [sort.Slice]. *)
Definition lessPhoto (a b : Photo) : bool :=
  if DateAccuracy a <? DateAccuracy b then DateAccuracy a <? DateAccuracy b
  else (String.length (SrcPath a) <? String.length (SrcPath b))%nat.

Definition lessAt (h : heap) (a b : loc) : bool :=
  match h !! a, h !! b with
  | Some pa, Some pb => lessPhoto pa pb
  | _, _ => false
  end.

(** The group after the sort and its first element; [None] is a panic:
    the comparison dereferences a [nil] photo (it is called as soon as
    there are two elements), or the group is empty. *)
Definition chooseBest (h : heap) (group : list loc) : option (loc * list loc) :=
  _ ← (if (2 <=? length group)%nat then mapM (fun p => h !! p) group else Some []);
  let sorted := sortSlice (lessAt h) group in
  best ← head sorted;
  Some (best, sorted).

(** [for album := range p.Albums { best.Albums[album] = true }]: every
    key of [p.Albums] is set to [true] in [best.Albums]. *)
Definition addAlbums (h : heap) (best p : loc) : option heap :=
  ph ← h !! p;
  bph ← h !! best;
  albums ← Albums bph;
  let keys := (fun _ : bool => true) <$> default ∅ (Albums ph) in
  Some (<[best := setAlbums (Some (keys ∪ albums)) bph]> h).

Fixpoint unionLoop (h : heap) (best : loc) (group : list loc) : option heap :=
  match group with
  | [] => Some h
  | p :: rest => h' ← addAlbums h best p; unionLoop h' best rest
  end.

(** The loop over the groups. *)
Fixpoint mergeLoop (h : heap) (groups : list (string * list loc)) (result : list loc)
    : option (heap * list loc) :=
  match groups with
  | [] => Some (h, result)
  | (_, group) :: rest =>
      if (length group =? 1)%nat then
        first ← head group;
        mergeLoop h rest (result ++ [first])%list
      else
        '(best, sorted) ← chooseBest h group;
        bph ← h !! best;
        h' ← unionLoop (<[best := setAlbums (Some ∅) bph]> h) best sorted;
        mergeLoop h' rest (result ++ [best])%list
  end.

(** The survivors and the heap afterwards; [None] is a panic. The
    progress callback is not modelled. *)
Definition MergeIdentical (h : heap) (photos : list loc) : option (heap * list loc) :=
  '(h', grouped) ← GroupIdentical h photos;
  mergeLoop h' (rangeFinal grouped) [].

(** *** Notions the properties are stated with *)

(** The content hash a photo stands for: the stored one, or the one
    [HashFile] computes when none is stored; none for a photo that is
    flagged or whose file cannot be hashed. *)
Definition effectiveHash (ph : Photo) : option string :=
  if HashError ph then None
  else if String.eqb (Hash ph) "" then HashFile (SrcPath ph)
  else Some (Hash ph).

(** The key [hashStep] files a photo of a group of size [size] under. *)
Definition keyOfPhoto (size : Z) (ph : Photo) : string :=
  match effectiveHash ph with
  | Some digest => digest
  | None => nohashKey size (SrcPath ph)
  end.

Definition keyOf (h : heap) (size : Z) (p : loc) : option string :=
  keyOfPhoto size <$> h !! p.

(** What hashing and merging leave alone in a photo. *)
Definition sameIdentity (a b : Photo) : Prop :=
  Size b = Size a /\ SrcPath b = SrcPath a /\ effectiveHash b = effectiveHash a /\
  (HashError a = true -> HashError b = true) /\
  (HashError b = true -> Hash b = "" \/ (HashError a = true /\ Hash b = Hash a)).

Definition heapKin (h h' : heap) : Prop :=
  forall l : loc,
    match h !! l, h' !! l with
    | Some a, Some b => sameIdentity a b
    | None, None => True
    | _, _ => False
    end.



(** Every group of [groups] is non-empty, made of photos of [among], and
    stored under the key of each of its members. *)
Definition keyed (h : heap) (size : Z) (among : list loc)
    (groups : gmap string (list loc)) : Prop :=
  forall (k : string) (G : list loc), groups !! k = Some G ->
    G <> [] /\ forall p, p ∈ G -> p ∈ among /\ keyOf h size p = Some k.

(** The size groups partition the photos seen so far by their size. *)
Definition sizeInv (h : heap) (seen : list loc) (sizeGroups : gmap Z (list loc)) : Prop :=
  (forall (size : Z) (g : list loc), sizeGroups !! size = Some g ->
     g <> [] /\ forall p, p ∈ g -> p ∈ seen /\ Size <$> h !! p = Some size)
  /\ (forall (p : loc) (ph : Photo), p ∈ seen -> h !! p = Some ph ->
        exists g, sizeGroups !! Size ph = Some g /\ p ∈ g).

(** Where a final group comes from: a size group with one member, stored
    under the size, or the photos of a larger size group that share a key. *)
Definition groupInv (h : heap) (sizeGroups : gmap Z (list loc))
    (finalGroups : gmap string (list loc)) : Prop :=
  forall (k : string) (G : list loc), finalGroups !! k = Some G ->
    G <> [] /\
    ((exists size, sizeGroups !! size = Some G /\ length G = 1%nat)
     \/ (exists size g, sizeGroups !! size = Some g /\ length g <> 1%nat /\
           forall p, p ∈ G -> p ∈ g /\ keyOf h size p = Some k)).

(** A photo flagged as not hashed carries no hash. *)
Definition failedHasNoHash (h : heap) : Prop :=
  forall (l : loc) (ph : Photo), h !! l = Some ph -> HashError ph = true -> Hash ph = "".

End WithEnv.

(** Two exports of one picture, of the same size and content: one with
    a sidecar date and a long path under album Trip, one dated from its
    short file name under album Misc. *)
Definition sampleDuplicates : heap :=
  {[ 1%nat := mkPhoto "9f86d081884c7d65" false "/takeout/Trip/IMG_20190919_053857.jpg"
                 "/takeout/Trip/IMG_20190919_053857.jpg.json" emptyMeta
                 (Some {[ "Trip" := true ]}) "" 1 1024;
     2%nat := mkPhoto "9f86d081884c7d65" false "/takeout/Misc/IMG_1.jpg" "" emptyMeta
                 (Some {[ "Misc" := true ]}) "" 2 1024 ]}.



(** The file behind photo 2 of [sampleThree], as it is on disk. *)
Definition sampleDisk : list (string * (Z * Z * option string)) :=
  [("/takeout/Misc/a.jpg", (1024, 1568871537000000000, Some "9f86d081884c7d65"))].

(** An environment to run the definitions in: nothing on disk but the
    listed files, maps visited in key order, insertion sort. *)
Definition sampleEnv (files : list (string * (Z * Z * option string)))
    (cacheFile : ReadResult) : Env := {|
  ReadFile := fun _ => cacheFile;
  UnmarshalCache := fun _ => None;
  StatFile := fun path => fst <$> (list_to_map files : gmap string _) !! path;
  HashFile := fun path => (list_to_map files : gmap string _) !! path ≫= snd;
  rangeSizes := map_to_list;
  rangeGroups := map_to_list;
  rangeFinal := map_to_list;
  sortSlice := insertionSort
|}.

End Dedup.


(* ================================================================= *)
(** * The keys of [BuildRegistry] *)

Module RegistryKeys.
Import Models Dedup.

Section WithEnv.
Context `{Dedup.Env}.

(** The hash an iteration of [BuildRegistry] takes from the cache: the
    entry of the path, if its size and modification time are those of
    the file and its hash is not empty. *)
Definition cachedHash (c : hashCache) (path : string) (size mtime : Z) : string :=
  match cacheLookup c path with
  | Some entry =>
      if (EntrySize entry =? size) && (MtimeNs entry =? mtime)
         && negb (String.eqb (EntryHash entry) "")
      then EntryHash entry else ""
  | None => ""
  end.

(** The values of [hash] and of [hashErr != nil] before the key is
    chosen: the cached hash, or else what [HashFile] returns. *)
Definition hashOutcome (c : hashCache) (path : string) (size mtime : Z) : string * bool :=
  let hash := cachedHash c path size mtime in
  if String.eqb hash "" then
    match HashFile path with
    | Some h => (h, false)
    | None => ("", true)
    end
  else (hash, false).

(** The value of [key] in the iteration for the pair [p], started with
    the cache [c]; [None] when [os.Stat] fails and the pair is skipped. *)
Definition contentKey (c : hashCache) (p : FilePair) : option string :=
  match StatFile (MediaPath p) with
  | None => None
  | Some (size, mtime) =>
      let hash := cachedHash c (MediaPath p) size mtime in
      if String.eqb hash "" then
        match HashFile (MediaPath p) with
        | Some h => Some h
        | None => Some ("nohash:" ++ MediaPath p)
        end
      else Some hash
  end.

(** The key a photo was stored under when it was created. *)
Definition registryKeyOf (ph : Photo) : string :=
  if HashError ph then "nohash:" ++ SrcPath ph else Hash ph.

(** The album names of the pairs of [seen] that have the key [key]. *)
Definition albumsOfKey (c : hashCache) (seen : list FilePair) (key a : string) : Prop :=
  a <> "" /\ exists q, q ∈ seen /\ contentKey c q = Some key /\ Album q = a.

(** What holds of the loop state after the pairs [seen], when the loop
    was started with the cache [c0]. *)
Definition registryInv (c0 : hashCache) (seen : list FilePair) (st : registryState) : Prop :=
  (forall q, contentKey (cache st) q = contentKey c0 q) /\
  (Files c0 <> None -> Files (cache st) <> None) /\
  (forall k1 k2 l, registry st !! k1 = Some l -> registry st !! k2 = Some l -> k1 = k2) /\
  (forall l, is_Some (photoHeap st !! l) -> exists key, registry st !! key = Some l) /\
  (forall key l, registry st !! key = Some l ->
     exists ph m, photoHeap st !! l = Some ph /\ registryKeyOf ph = key /\
       Albums ph = Some m /\
       forall a, albumFlag (Some m) a = true <-> albumsOfKey c0 seen key a) /\
  (forall q key, q ∈ seen -> contentKey c0 q = Some key -> is_Some (registry st !! key)).

(** The cache holds, for every pair that can be read, an entry that is
    up to date. *)
Definition cacheCovers (c : hashCache) (pairs : list FilePair) : Prop :=
  forall p size mtime, p ∈ pairs -> StatFile (MediaPath p) = Some (size, mtime) ->
    cachedHash c (MediaPath p) size mtime <> "".

End WithEnv.

(** A cache that knows the file of [sampleDisk]. *)
Definition sampleCache : gmap string hashCacheEntry :=
  {[ "/takeout/Misc/a.jpg" := mkCacheEntry 1024 1568871537000000000 "9f86d081884c7d65" ]}.

(** An environment whose cache file decodes to [sampleCache]; the files
    on disk are those of [sampleDisk], hashed by [hashFile]. *)
Definition warmEnv (hashFile : string -> option string) : Env := {|
  ReadFile := fun path =>
    if String.eqb path "/takeout/.gphotos/hash_cache.json"
    then ReadOk "hash_cache.json" else ReadNotExist;
  UnmarshalCache := fun _ => Some (Some sampleCache);
  StatFile := fun path => fst <$> (list_to_map sampleDisk : gmap string _) !! path;
  HashFile := hashFile;
  rangeSizes := map_to_list;
  rangeGroups := map_to_list;
  rangeFinal := map_to_list;
  sortSlice := insertionSort
|}.

(** Two files that cannot be hashed. *)
Definition sampleUnhashed : list (string * (Z * Z * option string)) :=
  [("/takeout/Misc/a.jpg", (1024, 1568871537000000000, None));
   ("/takeout/Misc/b.jpg", (2048, 1568871538000000000, None))].

(** Two pairs of one file, found in two album folders, and a file that
    is not on disk. *)
Definition samplePairs : list FilePair :=
  [ mkPair "/takeout/Misc/a.jpg" "" "Misc";
    mkPair "/takeout/Gone/c.jpg" "" "Gone";
    mkPair "/takeout/Misc/a.jpg" "/takeout/Misc/a.jpg.json" "Trip" ].

End RegistryKeys.


(* ================================================================= *)
(** * File kinds and the metadata writer ([core/metadata]) *)

Module MetadataWriter.
Import GoString FilePath.

(** [supportedWriteExt]; a key that is absent reads as [false]. *)
Definition supportedWriteExt : gmap string bool :=
  list_to_map
    [ (".jpg", true); (".jpeg", true); (".png", true); (".heic", true);
      (".heif", true); (".mp4", true); (".mov", true); (".m4v", true);
      (".mp", true); (".gif", true); (".webp", true); (".dng", true);
      (".nef", true); (".mv", true); (".mp~2", true); (".mp~3", true) ].

Definition supported (ext : string) : bool := default false (supportedWriteExt !! ext).

Definition isVideoExt (ext : string) : bool :=
  String.eqb ext ".mp4" || String.eqb ext ".mov" || String.eqb ext ".m4v"
  || String.eqb ext ".mp" || String.eqb ext ".mv" || String.eqb ext ".mp~2"
  || String.eqb ext ".mp~3".

(** [buf[i]] as a number; [0] past the end, as in the zeroed buffer. *)
Definition byteAt (buf : string) (i : nat) : Z :=
  match String.get i buf with
  | Some c => Z.of_N (N_of_ascii c)
  | None => 0
  end.

(** [string(buf[i:j])]. *)
Definition slice (buf : string) (i j : nat) : string := String.substring i (j - i) buf.

Definition PreferredExtension (kind : string) : string :=
  if String.eqb kind "jpeg" then ".jpg"
  else if String.eqb kind "png" then ".png"
  else if String.eqb kind "heic" then ".heic"
  else if String.eqb kind "webp" then ".webp"
  else "".

Section WithFiles.
(** What the one [Read] into the buffer of twelve bytes returned;
    [None] when the file could not be opened or read. *)
Variable readHead : string -> option string.

Definition sniffFileKind (path : string) : string * bool :=
  match readHead path with
  | None => ("", false)
  | Some buf =>
      if (String.length buf <? 12)%nat then ("", false)
      else if (byteAt buf 0 =? 0xFF) && (byteAt buf 1 =? 0xD8) && (byteAt buf 2 =? 0xFF)
      then ("jpeg", true)
      else if (byteAt buf 0 =? 0x89) && (byteAt buf 1 =? 0x50) && (byteAt buf 2 =? 0x4E)
              && (byteAt buf 3 =? 0x47) && (byteAt buf 4 =? 0x0D) && (byteAt buf 5 =? 0x0A)
              && (byteAt buf 6 =? 0x1A) && (byteAt buf 7 =? 0x0A)
      then ("png", true)
      else if String.eqb (slice buf 4 8) "ftyp"
              && (let brand := slice buf 8 12 in
                  String.eqb brand "heic" || String.eqb brand "heix"
                  || String.eqb brand "heif" || String.eqb brand "hevc"
                  || String.eqb brand "heim" || String.eqb brand "heis")
      then ("heic", true)
      else if String.eqb (slice buf 0 4) "RIFF" && String.eqb (slice buf 8 12) "WEBP"
      then ("webp", true)
      else ("", false)
  end.

Definition DetectFileKind (path : string) : string * bool := sniffFileKind path.

Definition matchesExtension (path ext : string) : bool :=
  let '(kind, ok) := DetectFileKind path in
  if negb ok then true
  else if String.eqb ext ".jpg" || String.eqb ext ".jpeg" then String.eqb kind "jpeg"
  else if String.eqb ext ".png" then String.eqb kind "png"
  else if String.eqb ext ".heic" || String.eqb ext ".heif" then String.eqb kind "heic"
  else true.

End WithFiles.

(** [models.GooglePhotosOrigin]. *)
Record GooglePhotosOrigin := mkOrigin {
  FromSharedAlbum : bool;
  WebUpload : bool;
  MobileUpload : bool;
  MobileUploadDeviceType : string;
  MobileUploadDeviceFolder : string;
  CompositionType : string
}.

(** [strings.Join(parts, sep)]. *)
Fixpoint Join (parts : list string) (sep : string) : string :=
  match parts with
  | [] => ""
  | [part] => part
  | part :: rest => part ++ sep ++ Join rest sep
  end.

Definition buildOriginLabel (origin : GooglePhotosOrigin) : string :=
  let parts : list string := [] in
  let parts := if FromSharedAlbum origin then (parts ++ ["fromSharedAlbum"])%list else parts in
  let parts := if WebUpload origin then (parts ++ ["webUpload"])%list else parts in
  let parts := if MobileUpload origin then (parts ++ ["mobileUpload"])%list else parts in
  let parts := if negb (String.eqb (CompositionType origin) "")
               then (parts ++ [("composition=" ++ CompositionType origin)%string])%list else parts in
  let parts := if negb (String.eqb (MobileUploadDeviceType origin) "")
               then (parts ++ [("deviceType=" ++ MobileUploadDeviceType origin)%string])%list
               else parts in
  let parts := if negb (String.eqb (MobileUploadDeviceFolder origin) "")
               then (parts ++ [("deviceFolder=" ++ MobileUploadDeviceFolder origin)%string])%list
               else parts in
  if (length parts =? 0)%nat then "" else "gphotos:" ++ Join parts ",".

(** The header of a JPEG file, and of a PNG file. *)
Definition jpegHead : string :=
  String "255" (String "216" (String "255" (String "224" "JFIF----"))).

End MetadataWriter.

(* ================================================================= *)
(** * Where a copy goes ([core/output]) *)

Module OutputLayout.
Import GoString FilePath Models.

(** [strings.ReplaceAll(s, old, new)] for [old] and [new] of one byte. *)
Fixpoint replaceByte (old new : ascii) (s : string) : string :=
  match s with
  | EmptyString => EmptyString
  | String c rest =>
      String (if Ascii.eqb c old then new else c) (replaceByte old new rest)
  end.

Section WithLibrary.
(** [strings.TrimSpace], [strings.ToLower], [filepath.Join] of two
    elements and [metadata.DetectFileKind]. *)
Variable TrimSpace : string -> string.
Variable ToLower : string -> string.
Variable Join : string -> string -> string.
Variable DetectFileKind : string -> string * bool.

Definition sanitizeFolder (name : string) : string :=
  let name := TrimSpace name in
  let name := replaceByte Separator "_" name in
  if String.eqb name "" then "Untitled" else name.

(** The directory a worker of [OrganizePhotos] copies the photo to. *)
Definition dstDir (libDir albDir : string) (p : Photo) : string :=
  if negb (String.eqb (TrimSpace (FinalAlbum p)) "")
  then Join albDir (sanitizeFolder (FinalAlbum p))
  else libDir.

(** The file name the worker hands to [uniquePath]: the base name of
    the source, with the extension of the detected kind put in the place
    of its own when the two differ. *)
Definition dstBase (p : Photo) : string :=
  let base := Base (SrcPath p) in
  let ext := ToLower (Ext base) in
  let '(kind, ok) := DetectFileKind (SrcPath p) in
  if ok then
    let pref := MetadataWriter.PreferredExtension kind in
    if negb (String.eqb pref "") && negb (String.eqb pref ext)
    then TrimSuffix base ext ++ pref
    else base
  else base.

End WithLibrary.

End OutputLayout.


(* ================================================================= *)
(** * Pairing media files with their sidecars ([core/scanner]) *)

Module Sidecars.
Import GoString FilePath Scanner Dedup.

Definition isMediaFile (lowerPath : string) : bool :=
  HasSuffix lowerPath ".jpg" ||
  HasSuffix lowerPath ".jpeg" ||
  HasSuffix lowerPath ".png" ||
  HasSuffix lowerPath ".heic" ||
  HasSuffix lowerPath ".mp4" ||
  HasSuffix lowerPath ".mov" ||
  HasSuffix lowerPath ".m4v" ||
  HasSuffix lowerPath ".gif" ||
  HasSuffix lowerPath ".webp" ||
  HasSuffix lowerPath ".dng" ||
  HasSuffix lowerPath ".nef" ||
  HasSuffix lowerPath ".mp" ||
  HasSuffix lowerPath ".mv" ||
  HasSuffix lowerPath ".mp~2" ||
  HasSuffix lowerPath ".mp~3".

(** [strings.Index(s, sub)]: the first position at which [sub] starts,
    [-1] when there is none. *)
Fixpoint indexFrom (i : nat) (s sub : string) : Z :=
  if HasPrefix s sub then Z.of_nat i
  else match s with
       | EmptyString => -1
       | String _ rest => indexFrom (S i) rest sub
       end.

Definition Index (s sub : string) : Z := indexFrom 0 s sub.

(** [strings.TrimRight(s, ".")]. *)
Fixpoint trimRightDots (s : string) : string :=
  match s with
  | EmptyString => EmptyString
  | String c rest =>
      match trimRightDots rest with
      | EmptyString => if Ascii.eqb c "."%char then EmptyString else String c EmptyString
      | rest' => String c rest'
      end
  end.

(** [name[:idx]]; [None] is the panic of a slice bound past the end. *)
Definition slicePrefix (name : string) (idx : Z) : option string :=
  if Z.of_nat (String.length name) <? idx then None else Some (take (Z.to_nat idx) name).

(** [m[key]] on a map of slices: the [nil] slice for an absent key. *)
Definition slot {A} (m : gmap string (list A)) (key : string) : list A :=
  default [] (m !! key).

(** [m[key] = append(m[key], x)]. *)
Definition push {A} (m : gmap string (list A)) (key : string) (x : A)
    : gmap string (list A) :=
  <[key := (slot m key ++ [x])%list]> m.

(** What [filepath.WalkDir] hands to the callback for one entry. *)
Record walkEntry := mkWalk {
  walkPath : string;
  walkIsDir : bool;
  walkErr : bool
}.

Record scanState := mkScan {
  media : list FilePair;
  jsonByTitle : gmap string (list string);
  jsonByKey : gmap string (list string);
  jsonByDir : gmap string (list jsonTitleEntry);
  jsonByNorm : gmap string (list string)
}.

Section WithLibrary.
(** [strings.ToLower], [strings.TrimSpace], [filepath.Dir] and
    [filepath.Rel]; [regexp.QuoteMeta], and for a pattern
    [regexp.MustCompile(pattern).MatchString(s)] and
    [regexp.MustCompile(pattern).ReplaceAllString(s, repl)];
    [os.ReadFile] and the decoding of the [title] field of a sidecar
    ([None]: error); the entries [filepath.WalkDir] visits, in order. *)
Variable ToLower : string -> string.
Variable TrimSpace : string -> string.
Variable Dir : string -> string.
Variable Rel : string -> string -> string.
Variable QuoteMeta : string -> string.
Variable MatchString : string -> string -> bool.
Variable ReplaceAllString : string -> string -> string -> string.
Variable ReadFile : string -> option string.
Variable UnmarshalTitle : string -> option string.
Variable WalkDir : string -> list walkEntry.

Definition matchesMetadataName (filename base : string) : bool :=
  if String.eqb base "" then false
  else
    let pattern := "^" ++ QuoteMeta base
                   ++ "(\([0-9]+\))?(\.supplemental-metadata|\.metadata)?\.json$" in
    MatchString pattern filename.

Definition stripTrailingIndex (name : string) : string :=
  ReplaceAllString "\(\d+\)$" name "".

(** [None] is the panic of [name[:idx]] when the position found in the
    lower-cased name lies past the end of the name. *)
Definition normalizeJSONKey (filename : string) : option string :=
  if negb (HasSuffix filename ".json") then Some ""
  else
    let name := TrimSuffix filename ".json" in
    let name := trimRightDots name in
    let name := stripTrailingIndex name in
    let lower := ToLower name in
    let idx := Index lower ".supp" in
    if 0 <=? idx then slicePrefix name idx
    else
      let idx := Index lower ".meta" in
      if 0 <=? idx then slicePrefix name idx else Some name.

(** The loop of [dedupeKeys]; the state is [(seen, out)]. *)
Fixpoint dedupeLoop (keys : list string) (seen : gset string) (out : list string)
    : list string :=
  match keys with
  | [] => out
  | k :: rest =>
      let k := TrimSpace k in
      if String.eqb k "" || bool_decide (k ∈ seen) then dedupeLoop rest seen out
      else dedupeLoop rest ({[ k ]} ∪ seen) (out ++ [k])%list
  end.

Definition dedupeKeys (keys : list string) : list string := dedupeLoop keys ∅ [].

Definition mediaKeys (base : string) : list string :=
  if String.eqb base "" then []
  else
    let base := trimRightDots base in
    let baseNoExt := stripExt base in
    let keys := [base; baseNoExt] in
    let keys := (keys ++ [stripTrailingIndex base; stripTrailingIndex baseNoExt])%list in
    dedupeKeys keys.

Definition extractJSONTitle (path : string) : string * bool :=
  match ReadFile path with
  | None => ("", false)
  | Some data =>
      match UnmarshalTitle data with
      | None => ("", false)
      | Some title => if String.eqb title "" then ("", false) else (title, true)
      end
  end.

(** The loop of [pickCandidate]: the first candidate whose file name
    is a metadata name of [base]. *)
Fixpoint pickLoop (candidates : list string) (base : string) : option string :=
  match candidates with
  | [] => None
  | c :: rest =>
      if matchesMetadataName (Base c) base then Some c else pickLoop rest base
  end.

Definition pickCandidate (candidates : list string) (base : string) : string :=
  if (length candidates =? 0)%nat then ""
  else if (length candidates =? 1)%nat then candidates !!! 0%nat
  else match pickLoop candidates base with
       | Some c => c
       | None => candidates !!! 0%nat
       end.

Fixpoint siblingLoop (exts : list string) (baseNoExt : string)
    (byTitle : gmap string (list string)) : string :=
  match exts with
  | [] => ""
  | e :: rest =>
      let title := baseNoExt ++ e in
      let path := pickCandidate (slot byTitle title) title in
      if negb (String.eqb path "") then path else siblingLoop rest baseNoExt byTitle
  end.

Definition pickLivePhotoSiblingJSON (mediaPath : string)
    (byTitle : gmap string (list string)) : string :=
  let ext := ToLower (Ext mediaPath) in
  if negb (String.eqb ext ".mp4") && negb (String.eqb ext ".mov") then ""
  else
    let baseNoExt := stripExt (Base mediaPath) in
    let baseNoExt := ToLower baseNoExt in
    siblingLoop [".heic"; ".jpg"; ".jpeg"; ".png"] baseNoExt byTitle.

(** The loop of [normalizeBaseForMatch] over the edit suffixes: the
    first one that [b] ends with is removed. *)
Fixpoint trimEditSuffix (suffixes : list string) (b : string) : string :=
  match suffixes with
  | [] => b
  | suffix :: rest =>
      if HasSuffix b suffix then TrimSuffix b suffix else trimEditSuffix rest b
  end.

Definition normalizeBaseForMatch (base : string) : string :=
  if String.eqb base "" then ""
  else
    let b := ToLower (TrimSpace base) in
    let b := stripTrailingIndex b in
    let b := trimEditSuffix
               ["-edited"; "-collage"; "-color_pop"; "-photo_frame"; "-overlayed"] b in
    TrimSpace b.

(** The loop of [resolveJSONPath] over the keys of the media file. *)
Fixpoint keysLoop (keys : list string) (byKey : gmap string (list string))
    (base : string) : string :=
  match keys with
  | [] => ""
  | key :: rest =>
      let path := pickCandidate (slot byKey key) base in
      if negb (String.eqb path "") then path else keysLoop rest byKey base
  end.

Definition resolveJSONPath (mediaPath : string)
    (byTitle byKey : gmap string (list string))
    (byDir : gmap string (list jsonTitleEntry))
    (byNorm : gmap string (list string)) : string :=
  let base := Base mediaPath in
  let baseNoExt := stripExt base in
  let baseLower := ToLower base in
  let baseNoExtLower := ToLower baseNoExt in
  let extLower := ToLower (Ext base) in
  let path := pickCandidate (slot byTitle baseLower) base in
  if negb (String.eqb path "") then path else
  let path := pickCandidate (slot byTitle baseNoExtLower) base in
  if negb (String.eqb path "") then path else
  let path :=
    if String.eqb extLower ".mp" then
      let path := pickCandidate (slot byTitle (ToLower (base ++ ".jpg"))) base in
      if negb (String.eqb path "") then path
      else pickCandidate (slot byTitle (ToLower (base ++ ".jpeg"))) base
    else "" in
  if negb (String.eqb path "") then path else
  let path := pickLivePhotoSiblingJSON mediaPath byTitle in
  if negb (String.eqb path "") then path else
  let path := keysLoop (mediaKeys base) byKey base in
  if negb (String.eqb path "") then path else
  let path := pickPrefixCandidate ToLower Dir mediaPath byDir in
  if negb (String.eqb path "") then path else
  let norm := normalizeBaseForMatch baseNoExt in
  if negb (String.eqb norm "") then
    let path := pickCandidate (slot byNorm norm) base in
    if negb (String.eqb path "") then path else ""
  else "".

(** The callback of [filepath.WalkDir] in [ScanTakeout], on the state of
    the scan; it always returns [nil], whence the walk visits every
    entry. [None] is the panic of [normalizeJSONKey]. *)
Definition visit (root : string) (st : scanState) (e : walkEntry) : option scanState :=
  if walkErr e then Some st
  else if walkIsDir e then Some st
  else
    let path := walkPath e in
    let lower := ToLower path in
    if HasSuffix lower ".json" then
      let base := Base path in
      if negb (String.eqb base "metadata.json") then
        let st :=
          match extractJSONTitle path with
          | (title, true) =>
              if negb (String.eqb title "") then
                let key := ToLower title in
                let dir := Dir path in
                let norm := normalizeBaseForMatch (stripExt title) in
                mkScan (media st)
                       (push (jsonByTitle st) key path)
                       (jsonByKey st)
                       (push (jsonByDir st) dir (mkEntry title path))
                       (if negb (String.eqb norm "")
                        then push (jsonByNorm st) norm path else jsonByNorm st)
              else st
          | (_, false) => st
          end in
        key ← normalizeJSONKey base;
        Some (if negb (String.eqb key "")
              then mkScan (media st) (jsonByTitle st) (push (jsonByKey st) key path)
                          (jsonByDir st) (jsonByNorm st)
              else st)
      else Some st
    else if isMediaFile lower then
      let album := detectAlbum Rel root path in
      Some (mkScan (media st ++ [mkPair path "" album])%list (jsonByTitle st)
                   (jsonByKey st) (jsonByDir st) (jsonByNorm st))
    else Some st.

Fixpoint walk (root : string) (entries : list walkEntry) (st : scanState)
    : option scanState :=
  match entries with
  | [] => Some st
  | e :: rest => st' ← visit root st e; walk root rest st'
  end.

(** The pairs; the error the function returns is always [nil]. [None]
    is a panic. The lines printed when [verbose] is set are not
    modelled. *)
Definition ScanTakeout (root : string) : option (list FilePair) :=
  st ← walk root (WalkDir root) (mkScan [] ∅ ∅ ∅ ∅);
  Some ((fun m => mkPair (MediaPath m)
                    (resolveJSONPath (MediaPath m) (jsonByTitle st) (jsonByKey st)
                       (jsonByDir st) (jsonByNorm st))
                    (Album m)) <$> media st).

(** The entries the callback files as media, and as sidecars. *)
Definition isMediaEntry (e : walkEntry) : bool :=
  negb (walkErr e) && negb (walkIsDir e)
  && negb (HasSuffix (ToLower (walkPath e)) ".json")
  && isMediaFile (ToLower (walkPath e)).

Definition isSidecarEntry (e : walkEntry) : bool :=
  negb (walkErr e) && negb (walkIsDir e)
  && HasSuffix (ToLower (walkPath e)) ".json"
  && negb (String.eqb (Base (walkPath e)) "metadata.json").

(** [path] is the path of a sidecar among the entries [seen]. *)
Definition sidecarOf (seen : list walkEntry) (path : string) : Prop :=
  exists e, e ∈ seen /\ walkPath e = path /\ isSidecarEntry e = true.

(** What holds of the state of the scan after the entries [seen]. *)
Definition scanInv (root : string) (seen : list walkEntry) (st : scanState) : Prop :=
  media st = (fun e => mkPair (walkPath e) "" (detectAlbum Rel root (walkPath e)))
             <$> filter (fun e => isMediaEntry e = true) seen
  /\ (forall key path, path ∈ slot (jsonByTitle st) key -> sidecarOf seen path)
  /\ (forall key path, path ∈ slot (jsonByKey st) key -> sidecarOf seen path)
  /\ (forall dir entry, entry ∈ slot (jsonByDir st) dir -> sidecarOf seen (Path entry))
  /\ (forall key path, path ∈ slot (jsonByNorm st) key -> sidecarOf seen path).

End WithLibrary.

(** [strings.ToLower] on ASCII text and on U+023A, whose lower case
    U+2C65 takes three bytes in the place of two. *)
Fixpoint lowerStroke (s : string) : string :=
  match s with
  | String "200" (String "186" rest) =>
      String "226" (String "177" (String "165" (lowerStroke rest)))
  | String c rest => String (lowerByte c) (lowerStroke rest)
  | EmptyString => EmptyString
  end.

(** The two bytes of U+023A. *)
Definition aStroke : string := String "200" (String "186" EmptyString).

(** A tree with two pictures, their sidecars and the album's
    [metadata.json]. *)
Definition sampleWalk : list walkEntry :=
  [ mkWalk "/takeout" true false;
    mkWalk "/takeout/Trip" true false;
    mkWalk "/takeout/Trip/IMG_0001.jpg" false false;
    mkWalk "/takeout/Trip/IMG_0001.jpg.json" false false;
    mkWalk "/takeout/Trip/IMG_0002.JPG" false false;
    mkWalk "/takeout/Trip/metadata.json" false false ].

End Sidecars.


(* ================================================================= *)
(** * Notions for the date rules *)

Module DateRules.
Import Metadata.

(** A rule gives no date for [base]: it does not match, or what it
    matched does not parse. *)
Definition ruleFails (base : string) (pat : datePattern) : Prop :=
  FindString (re pat) base = ""
  \/ snd (parse pat (FindString (re pat) base)) = false.

End DateRules.


(* ================================================================= *)
(** * The file of excluded names ([core/metadata]) *)

Module DateExclusions.
Import GoString FilePath Metadata Dedup.

(** The loop of [LoadDateExclusions] over the decoded list. *)
Fixpoint loadLoop (items : list string) (ex : gmap string bool) : gmap string bool :=
  match items with
  | [] => ex
  | item :: rest =>
      loadLoop rest (if negb (String.eqb item "") then <[item := true]> ex else ex)
  end.

(** The loop of [SaveDateExclusions] over the entries of the map. *)
Fixpoint saveLoop (entries : list (string * bool)) (items : list string) : list string :=
  match entries with
  | [] => items
  | (item, ok) :: rest => saveLoop rest (if ok then (items ++ [item])%list else items)
  end.

Section WithFiles.
(** The state of the file system, with [os.ReadFile], [os.MkdirAll]
    and [os.WriteFile] on it (the state afterwards, and whether the
    error is not [nil]); [filepath.Dir]; [json.MarshalIndent] and
    [json.Unmarshal] on a list of strings ([None]: error); the order in
    which [range] visits the map. *)
Variable fs : Type.
Variable ReadFile : fs -> string -> ReadResult.
Variable MkdirAll : fs -> string -> fs * bool.
Variable WriteFile : fs -> string -> string -> fs * bool.
Variable Dir : string -> string.
Variable Marshal : list string -> option string.
Variable Unmarshal : string -> option (list string).
Variable rangeExclude : gmap string bool -> list (string * bool).

(** [None]: the error is not [nil] (and the map is). *)
Definition LoadDateExclusions (s : fs) (path : string) : option (gmap string bool) :=
  if String.eqb path "" then Some ∅
  else
    match ReadFile s path with
    | ReadNotExist => Some ∅
    | ReadFail => None
    | ReadOk data =>
        match Unmarshal data with
        | None => None
        | Some items => Some (loadLoop items ∅)
        end
    end.

(** The list that is written. *)
Definition savedList (exclude : gmap string bool) : list string :=
  saveLoop (rangeExclude exclude) [].

Definition SaveDateExclusions (s : fs) (path : string) (exclude : gmap string bool)
    : fs * bool :=
  if String.eqb path "" then (s, false)
  else
    let '(s, failed) := MkdirAll s (Dir path) in
    if failed then (s, true)
    else
      match Marshal (savedList exclude) with
      | None => (s, true)
      | Some data => WriteFile s path data
      end.

End WithFiles.

(** A file system of plain files. *)
Definition readPlain (s : gmap string string) (path : string) : ReadResult :=
  match s !! path with
  | Some data => ReadOk data
  | None => ReadNotExist
  end.

Definition writePlain (s : gmap string string) (path data : string)
    : gmap string string * bool :=
  (<[path := data]> s, false).

(** A list of names without commas, one after the other. *)
Fixpoint joinComma (items : list string) : string :=
  match items with
  | [] => ""
  | [item] => item
  | item :: rest => item ++ "," ++ joinComma rest
  end.

End DateExclusions.


(* ================================================================= *)
(** * The command ([main]) *)

Module MainCli.
Import GoString FilePath Metadata Models Dedup.

Record previewEntry := mkPreview {
  previewPath : string;
  previewDate : string
}.

(** The loop of [normalizeNamePattern] over the runes of the name; the
    state is [lastWasDigit], the result is what the builder holds. *)
Fixpoint normalizeLoop (runes : list Z) (lastWasDigit : bool) : list Z :=
  match runes with
  | [] => []
  | r :: rest =>
      if (48 <=? r) && (r <=? 57) then
        if negb lastWasDigit then 35 :: normalizeLoop rest true
        else normalizeLoop rest lastWasDigit
      else if (r =? 32) || (r =? 45) || (r =? 95) || (r =? 46) then
        95 :: normalizeLoop rest false
      else
        let r := if (65 <=? r) && (r <=? 90) then r - 65 + 97 else r in
        r :: normalizeLoop rest false
  end.

Section WithLibrary.
Context `{Metadata.Env}.
(** [strings.ToLower], [strings.ReplaceAll] and [strconv.Atoi] ([None]:
    error); [t.Format(time.RFC3339)]; the runes a [range] over a string
    yields, and the string of a sequence of runes. *)
Variable ToLower : string -> string.
Variable ReplaceAll : string -> string -> string -> string.
Variable Atoi : string -> option Z.
Variable Format : Time -> string.
Variable decodeRunes : string -> list Z.
Variable encodeRunes : list Z -> string.

(** The first loop of [filterPairsByExt]: the set of the extensions
    asked for. *)
Fixpoint extSet (parts : list string) (set : gset string) : gset string :=
  match parts with
  | [] => set
  | part :: rest =>
      let ext := ToLower (TrimSpace part) in
      if String.eqb ext "" then extSet rest set
      else
        let ext := if negb (HasPrefix ext ".") then "." ++ ext else ext in
        extSet rest ({[ ext ]} ∪ set)
  end.

Fixpoint keepExts (pairs : list FilePair) (set : gset string) (out : list FilePair)
    : list FilePair :=
  match pairs with
  | [] => out
  | p :: rest =>
      let ext := ToLower (Ext (MediaPath p)) in
      if bool_decide (ext ∈ set) then keepExts rest set (out ++ [p])%list
      else keepExts rest set out
  end.

Definition filterPairsByExt (pairs : list FilePair) (onlyExts : string) : list FilePair :=
  let set := extSet (Split onlyExts ","%char) ∅ in
  if (size set =? 0)%nat then pairs
  else keepExts pairs set [].

(** The state of the loop is [(matched, parsed, previews)]. *)
Fixpoint previewLoop (re : Regexp) (layout : string) (paths : list string)
    (state : Z * Z * list previewEntry) : Z * Z * list previewEntry :=
  match paths with
  | [] => state
  | path :: rest =>
      let '(matched, parsed, previews) := state in
      let base := Base path in
      let sub := FindStringSubmatch re base in
      if (length sub =? 0)%nat then previewLoop re layout rest state
      else
        let target := if (1 <? length sub)%nat then sub !!! 1%nat else sub !!! 0%nat in
        let matched := matched + 1 in
        let '(t, ok) := ParseWithLayout layout target in
        if negb ok then previewLoop re layout rest (matched, parsed, previews)
        else
          previewLoop re layout rest
            (matched, parsed + 1, (previews ++ [mkPreview base (Format t)])%list)
  end.

Definition previewCustomPattern (re : Regexp) (layout : string) (paths : list string)
    : Z * Z * list previewEntry :=
  previewLoop re layout paths (0, 0, []).

(** The loop of [parseIndexList]; [None] is the error of [Atoi]. *)
Fixpoint indexLoop (parts : list string) (max : Z) (out : list Z) : option (list Z) :=
  match parts with
  | [] => Some out
  | part :: rest =>
      let part := TrimSpace part in
      if String.eqb part "" then indexLoop rest max out
      else
        match Atoi part with
        | None => None
        | Some n =>
            if (n <? 1) || (max <? n) then indexLoop rest max out
            else indexLoop rest max (out ++ [n])%list
        end
  end.

Definition parseIndexList (input : string) (max : Z) : option (list Z) :=
  let input := ReplaceAll input "exclude" "" in
  let input := TrimSpace input in
  if String.eqb input "" then Some []
  else indexLoop (Split input ","%char) max [].

(** The loop of [promptCustomPatternsLoop] that excludes the previews
    the user has listed; [None] is the panic of an index out of range. *)
Fixpoint excludeLoop (excluded : list Z) (previews : list previewEntry)
    (exclusions : gmap string bool) : option (gmap string bool) :=
  match excluded with
  | [] => Some exclusions
  | idx :: rest =>
      if (idx <? 1) || (Z.of_nat (length previews) <? idx)
      then excludeLoop rest previews exclusions
      else
        entry ← previews !! Z.to_nat (idx - 1);
        excludeLoop rest previews (<[previewPath entry := true]> exclusions)
  end.

Definition normalizeNamePattern (name : string) : string :=
  encodeRunes (normalizeLoop (decodeRunes name) false).

End WithLibrary.

(** Is the rune a decimal digit? *)
Definition isDigit (r : Z) : bool := (48 <=? r) && (r <=? 57).

(** The runes of an ASCII string, and the string of ASCII runes. *)
Fixpoint decodeAscii (s : string) : list Z :=
  match s with
  | EmptyString => []
  | String c rest => Z.of_N (N_of_ascii c) :: decodeAscii rest
  end.

Fixpoint encodeAscii (runes : list Z) : string :=
  match runes with
  | [] => EmptyString
  | r :: rest => String (ascii_of_N (Z.to_N r)) (encodeAscii rest)
  end.

End MainCli.


(* ================================================================= *)
(** * Listing and choosing the albums ([core/albums]) *)

Module AlbumChoice.
Import GoString Models AlbumsPkg.

Inductive selectionError :=
| ReadError (msg : string)
| IndexOutOfRange (idx : Z)
| UnknownAlbum (item : string).

(** What [PromptAlbumSelection] returns: the names, or an error. *)
Inductive selection :=
| Selected (names : list string)
| SelectionFailed (err : selectionError).

(** [a <= b] on Go strings: the bytes are compared in order. *)
Definition goLe (a b : string) : Prop := String.leb a b = true.

(** [for name, ok := range p.Albums { if ok { seen[name] = struct{}{} } }]. *)
Fixpoint seenNames (entries : list (string * bool)) (seen : gset string) : gset string :=
  match entries with
  | [] => seen
  | (name, ok) :: rest => seenNames rest (if ok then {[ name ]} ∪ seen else seen)
  end.

Section WithLibrary.
(** The order in which [range] visits a map of albums and the set of
    the names seen; [sort.Strings], as a function; [strings.TrimSpace],
    [strings.ToLower], [strings.EqualFold] and [strconv.Atoi] ([None]:
    error). *)
Variable rangeAlbums : gmap string bool -> list (string * bool).
Variable rangeSeen : gset string -> list string.
Variable sortStrings : list string -> list string.
Variable TrimSpace : string -> string.
Variable ToLower : string -> string.
Variable EqualFold : string -> string -> bool.
Variable Atoi : string -> option Z.

Fixpoint seenLoop (h : heap) (photos : list loc) (seen : gset string) : gset string :=
  match photos with
  | [] => seen
  | p :: rest =>
      match h !! p with
      | None => seenLoop h rest seen
      | Some ph =>
          match Albums ph with
          | None => seenLoop h rest seen
          | Some albums => seenLoop h rest (seenNames (rangeAlbums albums) seen)
          end
      end
  end.

Definition ListDistinctAlbums (h : heap) (photos : list loc) : list string :=
  let seen := seenLoop h photos ∅ in
  let albums := rangeSeen seen in
  sortStrings albums.

(** [for i, name := range albums { albumIndex[strings.ToLower(name)] = i }]. *)
Fixpoint indexAlbums (albums : list string) (i : Z) (albumIndex : gmap string Z)
    : gmap string Z :=
  match albums with
  | [] => albumIndex
  | name :: rest => indexAlbums rest (i + 1) (<[ToLower name := i]> albumIndex)
  end.

(** The loop over the items of the line; the state is [(seen, selected)]. *)
Fixpoint selectLoop (albums : list string) (albumIndex : gmap string Z)
    (parts : list string) (seen : gset string) (selected : list string) : selection :=
  match parts with
  | [] => Selected selected
  | raw :: rest =>
      let item := TrimSpace raw in
      if String.eqb item "" then selectLoop albums albumIndex rest seen selected
      else
        match Atoi item with
        | Some idx =>
            if (idx <? 1) || (Z.of_nat (length albums) <? idx)
            then SelectionFailed (IndexOutOfRange idx)
            else
              let name := albums !!! Z.to_nat (idx - 1) in
              if bool_decide (name ∈ seen)
              then selectLoop albums albumIndex rest seen selected
              else selectLoop albums albumIndex rest ({[ name ]} ∪ seen)
                     (selected ++ [name])%list
        | None =>
            let key := ToLower item in
            match albumIndex !! key with
            | None => SelectionFailed (UnknownAlbum item)
            | Some idx =>
                let name := albums !!! Z.to_nat idx in
                if bool_decide (name ∈ seen)
                then selectLoop albums albumIndex rest seen selected
                else selectLoop albums albumIndex rest ({[ name ]} ∪ seen)
                       (selected ++ [name])%list
            end
        end
  end.

(** [line] and [readErr] are what [reader.ReadString] returned: the
    line, and the text of the error when there is one. The lines
    printed are not modelled. *)
Definition PromptAlbumSelection (albums : list string) (line : string)
    (readErr : option string) : selection :=
  if (length albums =? 0)%nat then Selected []
  else
    match (match readErr with
           | Some msg => if negb (String.eqb msg "EOF") then Some msg else None
           | None => None
           end) with
    | Some msg => SelectionFailed (ReadError msg)
    | None =>
        let line := TrimSpace line in
        if String.eqb line "" then Selected []
        else if EqualFold line "all" then Selected albums
        else
          let parts := Split line ","%char in
          let albumIndex := indexAlbums albums 0 ∅ in
          match selectLoop albums albumIndex parts ∅ [] with
          | SelectionFailed err => SelectionFailed err
          | Selected selected =>
              if (length selected =? 0)%nat then Selected [] else Selected selected
          end
    end.

End WithLibrary.

(** Three photos: one in two albums, one in one, one in none. *)
Definition sampleAlbums : heap :=
  {[ 0%nat := mkPhoto "" false "/takeout/a.jpg" "" emptyMeta
                (Some {[ "Trip" := true; "Family" := true ]}) "" 0 0;
     1%nat := mkPhoto "" false "/takeout/b.jpg" "" emptyMeta
                (Some {[ "Zoo" := true ]}) "" 0 0;
     2%nat := mkPhoto "" false "/takeout/c.jpg" "" emptyMeta (Some ∅) "" 0 0 ]}.

(** Sorting by insertion, for the sample. *)
Fixpoint insertSorted (x : string) (l : list string) : list string :=
  match l with
  | [] => [x]
  | y :: rest => if String.leb x y then x :: y :: rest else y :: insertSorted x rest
  end.

Definition sortSample (l : list string) : list string := foldr insertSorted [] l.

End AlbumChoice.


(* ================================================================= *)
(** * From the registry to the merge *)

Module Pipeline.
Import GoString Models Dedup RegistryKeys.

(** [registryToSlice] of the command: the photos of the registry, in
    the order in which [range] visits the map. *)
Definition registryToSlice (rangeRegistry : gmap string loc -> list (string * loc))
    (registry : gmap string loc) : list loc :=
  snd <$> rangeRegistry registry.

(** A hash that reads like what [HashFile] returns: not empty, and
    neither the key of a file that was not hashed nor the key of a
    size. A string of hexadecimal digits is of this kind. *)
Definition digestLike (hash : string) : Prop :=
  hash <> "" /\ HasPrefix hash "nohash:" = false /\ HasSuffix hash "bytes" = false.

(** The photos are distinct, not [nil], carry hashes of that kind, and
    no two of them have the same registry key. *)
Definition distinctKeys (h : heap) (photos : list loc) : Prop :=
  NoDup photos
  /\ (forall p, p ∈ photos ->
        exists ph, h !! p = Some ph /\ (HashError ph = false -> digestLike (Hash ph)))
  /\ (forall p q pa pb, p ∈ photos -> q ∈ photos ->
        h !! p = Some pa -> h !! q = Some pb ->
        registryKeyOf pa = registryKeyOf pb -> p = q).

(** The key [GroupIdentical] files a photo of the registry under, in a
    size group of several photos. *)
Definition groupKey (size : Z) (ph : Photo) : string :=
  if HashError ph then nohashKey size (SrcPath ph) else Hash ph.

(** The photos of size [size], in the order of the list. *)
Definition sizeGroupOf (h : heap) (photos : list loc) (size : Z) : list loc :=
  filter (fun p => Size <$> h !! p = Some size) photos.

(** The key of the final group of a photo: the size when the photo is
    alone in its size, its [groupKey] otherwise. *)
Definition finalKeyOf (h : heap) (photos : list loc) (ph : Photo) : string :=
  if (length (sizeGroupOf h photos (Size ph)) =? 1)%nat
  then sizeKey (Size ph) else groupKey (Size ph) ph.

(** What holds of the final groups after the size groups [done]: every
    group is one photo under its key, and every photo of a size that
    was visited has its group. *)
Definition finalInv (h : heap) (photos : list loc) (done : list (Z * list loc))
    (finalGroups : gmap string (list loc)) : Prop :=
  (forall k G, finalGroups !! k = Some G ->
     exists p ph, G = [p] /\ p ∈ photos /\ h !! p = Some ph
       /\ k = finalKeyOf h photos ph)
  /\ (forall p ph, p ∈ photos -> h !! p = Some ph -> Size ph ∈ fst <$> done ->
        finalGroups !! finalKeyOf h photos ph = Some [p]).

(** Every hash of the cache that is not empty reads like a digest. *)
Definition digestCache (c : hashCache) : Prop :=
  forall path entry, cacheLookup c path = Some entry ->
    EntryHash entry <> "" -> digestLike (EntryHash entry).

(** [p.DateAccuracy = v], as the date review of the command sets it. *)
Definition setDateAccuracy (v : Z) (p : Photo) : Photo :=
  mkPhoto (Hash p) (HashError p) (SrcPath p) (JsonPath p) (Meta p) (Albums p)
          (FinalAlbum p) v (Size p).

(** The photos of [h] are in [h'] with the hash, the flag and the
    source path they have in [h]; anything else may differ. *)
Definition keepsKeys (h h' : heap) : Prop :=
  forall l ph, h !! l = Some ph ->
    exists ph', h' !! l = Some ph' /\ Hash ph' = Hash ph
      /\ HashError ph' = HashError ph /\ SrcPath ph' = SrcPath ph.

(** Every photo that is not flagged carries such a hash. *)
Definition digestHashes (h : heap) : Prop :=
  forall l ph, h !! l = Some ph -> HashError ph = false -> digestLike (Hash ph).

(** Does [f] hold of every byte of [s]? *)
Fixpoint allBytes (f : ascii -> bool) (s : string) : bool :=
  match s with
  | EmptyString => true
  | String c rest => f c && allBytes f rest
  end.

(** A decimal digit or the minus sign. *)
Definition numberByte (c : ascii) : bool :=
  let n := nat_of_ascii c in ((48 <=? n) && (n <=? 57))%nat || (n =? 45)%nat.

(** Four files: two of one size with different contents, one that
    cannot be read, and one of a size of its own. *)
Definition sampleLibrary : list (string * (Z * Z * option string)) :=
  [("/takeout/Trip/a.jpg", (2048, 1568871537000000000, Some "9f86d081884c7d65"));
   ("/takeout/Trip/b.jpg", (2048, 1568871538000000000, Some "2c26b46b68ffc68f"));
   ("/takeout/Trip/c.jpg", (2048, 1568871539000000000, None));
   ("/takeout/Misc/d.png", (512, 1568871540000000000, Some "fcde2b2edba56bf4"))].

(** The files of [sampleLibrary], one of them found in two albums, and
    a file that is not on disk. *)
Definition sampleLibraryPairs : list FilePair :=
  [ mkPair "/takeout/Trip/a.jpg" "/takeout/Trip/a.jpg.json" "Trip";
    mkPair "/takeout/Trip/b.jpg" "" "Trip";
    mkPair "/takeout/Trip/c.jpg" "" "Trip";
    mkPair "/takeout/Gone/e.jpg" "" "Gone";
    mkPair "/takeout/Misc/d.png" "" "Misc";
    mkPair "/takeout/Trip/a.jpg" "" "Best" ].

End Pipeline.


(* ================================================================= *)
(** * The groups of files without a date ([groupUnknownByPattern]) *)

Module UnknownGroups.
Import GoString FilePath Models MainCli.

(** [unknownGroup] of the command. *)
Record unknownGroup := mkGroup {
  key : string;
  paths : list string;
  examples : list string
}.

(** The comparison that [sortUnknownGroups] hands to [sort.Slice]; the
    keys are compared as Go compares strings, byte by byte. *)
Definition lessGroup (a b : unknownGroup) : bool :=
  if (length (paths a) =? length (paths b))%nat then String.ltb (key a) (key b)
  else (length (paths b) <? length (paths a))%nat.

Section WithLibrary.
(** The runes of a string and the string of a sequence of runes, the
    order in which [range] visits the map, and [sort.Slice]. *)
Variable decodeRunes : string -> list Z.
Variable encodeRunes : list Z -> string.
Variable rangeGroupMap : gmap string unknownGroup -> list (string * unknownGroup).
Variable sortSlice :
  (unknownGroup -> unknownGroup -> bool) -> list unknownGroup -> list unknownGroup.

(** The first loop. A proposal is given by its [photo]; [None] is the
    panic of a [nil] photo. The map holds pointers, one for each key,
    so that the group behind a key is updated where it is. *)
Fixpoint fileLoop (h : heap) (unknown : list loc) (groupMap : gmap string unknownGroup)
    : option (gmap string unknownGroup) :=
  match unknown with
  | [] => Some groupMap
  | p :: rest =>
      ph ← h !! p;
      let base := Base (SrcPath ph) in
      let key := normalizeNamePattern decodeRunes encodeRunes base in
      let g := default (mkGroup key [] []) (groupMap !! key) in
      let g := mkGroup (UnknownGroups.key g) (paths g ++ [SrcPath ph])
                 (if (length (examples g) <? 3)%nat then examples g ++ [base]
                  else examples g) in
      fileLoop h rest (<[key := g]> groupMap)
  end.

Definition sortUnknownGroups (groups : list unknownGroup) : list unknownGroup :=
  sortSlice lessGroup groups.

Definition groupUnknownByPattern (h : heap) (unknown : list loc)
    : option (list unknownGroup) :=
  groupMap ← fileLoop h unknown ∅;
  Some (sortUnknownGroups (snd <$> rangeGroupMap groupMap)).

(** *** Notions the properties are stated with *)

(** The key of the group of a path. *)
Definition patternOf (path : string) : string :=
  normalizeNamePattern decodeRunes encodeRunes (Base path).

(** The paths of a list that belong to the group of [k]. *)
Definition pathsOf (k : string) (all : list string) : list string :=
  filter (fun path => patternOf path = k) all.

(** A group after the paths [new] were added to it, one by one. *)
Definition addPaths (g : unknownGroup) (new : list string) : unknownGroup :=
  mkGroup (key g) (paths g ++ new)
    (examples g ++ firstn (3 - length (examples g)) (Base <$> new)).

End WithLibrary.

(** Photos without a date, as a camera, a messenger and a scanner name
    their files. *)
Definition sampleUnknown : heap :=
  list_to_map
    [(0%nat, mkPhoto "" false "/in/Trip/IMG_0001.jpg" "" emptyMeta None "" 0 0);
     (1%nat, mkPhoto "" false "/in/Trip/IMG_0002.jpg" "" emptyMeta None "" 0 0);
     (2%nat, mkPhoto "" false "/in/Misc/scan 7.png" "" emptyMeta None "" 0 0);
     (3%nat, mkPhoto "" false "/in/Misc/IMG-0417.jpg" "" emptyMeta None "" 0 0);
     (4%nat, mkPhoto "" false "/in/Misc/img_99.JPG" "" emptyMeta None "" 0 0);
     (5%nat, mkPhoto "" false "/in/Misc/cover.jpg" "" emptyMeta None "" 0 0)].

(** Insertion of a group before the first group that is not less. *)
Fixpoint insertGroup (less : unknownGroup -> unknownGroup -> bool) (g : unknownGroup)
    (l : list unknownGroup) : list unknownGroup :=
  match l with
  | [] => [g]
  | g' :: rest => if less g' g then g' :: insertGroup less g rest else g :: g' :: rest
  end.

Definition sortGroups (less : unknownGroup -> unknownGroup -> bool)
    (l : list unknownGroup) : list unknownGroup :=
  foldr (insertGroup less) [] l.

End UnknownGroups.


(* ================================================================= *)
(** * The arguments handed to exiftool ([buildArgsForMeta]) *)

Module WriterArgs.
Import GoString FilePath Metadata MetadataWriter.

Section WithLibrary.
(** A [float64] and [fmt.Sprintf("%f", x)]; the first bytes of a file;
    [strings.ToLower] and [strings.TrimSpace]; [time.Parse(layout, s)]
    ([None]: error) and [t.Format(layout)]. *)
Variable float : Type.
Variable formatFloat : float -> string.
Variable readHead : string -> option string.
Variable ToLower : string -> string.
Variable TrimSpace : string -> string.
Variable Parse : string -> string -> option Time.
Variable Format : Time -> string -> string.

(** [models.MetaData], with all its fields. *)
Record MetaData := mkMeta {
  TakenTime : string;
  CreationTime : string;
  GPSLat : float;
  GPSLon : float;
  GPSAlt : float;
  GPSSpanLat : float;
  GPSSpanLon : float;
  HasGeo : bool;
  Description : string;
  Favorited : bool;
  People : list string;
  URL : string;
  AppSource : string;
  Origin : GooglePhotosOrigin
}.

Record WriteItem := mkItem {
  Path : string;
  Meta : MetaData
}.

Definition RFC3339 : string := "2006-01-02T15:04:05Z07:00".

Definition HasWritableMeta (meta : MetaData) : bool :=
  if negb (String.eqb (TakenTime meta) "") || negb (String.eqb (CreationTime meta) "")
     || HasGeo meta || negb (String.eqb (Description meta) "") || Favorited meta
     || negb (String.eqb (URL meta) "") || negb (String.eqb (AppSource meta) "")
  then true
  else if (0 <? length (People meta))%nat then true
  else if negb (String.eqb (buildOriginLabel (Origin meta)) "") then true
  else false.

(** [for _, name := range meta.People { ... }]. *)
Fixpoint peopleLoop (people : list string) (args : list string) : list string :=
  match people with
  | [] => args
  | name :: rest =>
      if String.eqb (TrimSpace name) "" then peopleLoop rest args
      else peopleLoop rest (args ++ [("-XMP:PersonInImage+=" ++ name)%string; ("-XMP:Subject+=" ++ name)%string])%list
  end.

(** The arguments before the path is appended. *)
Definition metaArgs (ext : string) (meta : MetaData) : list string :=
  let args : list string := [] in
  let args :=
    if negb (String.eqb (TakenTime meta) "") then
      match Parse RFC3339 (TakenTime meta) with
      | Some t =>
          let ts := Format t "2006:01:02 15:04:05-07:00" in
          let args := (args ++ [("-DateTimeOriginal=" ++ ts)%string; ("-CreateDate=" ++ ts)%string])%list in
          if isVideoExt ext
          then (args ++ [("-MediaCreateDate=" ++ ts)%string; ("-TrackCreateDate=" ++ ts)%string])%list
          else args
      | None => args
      end
    else args in
  let args :=
    if negb (String.eqb (CreationTime meta) "") then
      match Parse RFC3339 (CreationTime meta) with
      | Some t =>
          let ts := Format t "2006:01:02 15:04:05-07:00" in
          (args ++ [("-XMP:CreateDate=" ++ ts)%string])%list
      | None => args
      end
    else args in
  let args :=
    if HasGeo meta then
      (args ++ [("-GPSLatitude=" ++ formatFloat (GPSLat meta))%string;
                ("-GPSLongitude=" ++ formatFloat (GPSLon meta))%string;
                ("-GPSAltitude=" ++ formatFloat (GPSAlt meta))%string])%list
    else args in
  let args :=
    if negb (String.eqb (Description meta) "") then
      (args ++ [("-ImageDescription=" ++ Description meta)%string;
                ("-XMP:Description=" ++ Description meta)%string])%list
    else args in
  let args := if Favorited meta then (args ++ ["-XMP:Rating=5"])%list else args in
  let args := peopleLoop (People meta) args in
  let args :=
    if negb (String.eqb (URL meta) "") then (args ++ [("-XMP:Source=" ++ URL meta)%string])%list
    else args in
  let args :=
    if negb (String.eqb (AppSource meta) "")
    then (args ++ [("-XMP:CreatorTool=" ++ AppSource meta)%string])%list
    else args in
  let label := buildOriginLabel (Origin meta) in
  if negb (String.eqb label "") then (args ++ [("-XMP:Label=" ++ label)%string])%list else args.

(** The returned [nil] is the empty list. *)
Definition buildArgsForMeta (path : string) (meta : MetaData) : list string * bool :=
  let ext := ToLower (Ext path) in
  if negb (supported ext) then ([], false)
  else if negb (matchesExtension readHead path ext) then ([], false)
  else
    let args := metaArgs ext meta in
    if (length args =? 0)%nat then ([], false)
    else ((args ++ [path])%list, true).

(** The loop of [WriteMetaBatch] that collects the arguments; the
    state is [(args, wrote)]. *)
Fixpoint batchLoop (items : list WriteItem) (state : list string * Z) : list string * Z :=
  match items with
  | [] => state
  | item :: rest =>
      if String.eqb (Path item) "" || negb (HasWritableMeta (Meta item))
      then batchLoop rest state
      else
        let '(itemArgs, ok) := buildArgsForMeta (Path item) (Meta item) in
        if negb ok then batchLoop rest state
        else
          let '(args, wrote) := state in
          batchLoop rest ((args ++ itemArgs) ++ ["-execute"], wrote + 1)%list
  end.

(** The arguments of the one call of exiftool and the value of
    [wrote] before it. *)
Definition batchArgs (items : list WriteItem) : list string * Z :=
  batchLoop items (["-overwrite_original"; "-q"; "-q"; "-m"], 0).

(** *** Notions the properties are stated with *)

(** The items whose arguments are written. *)
Definition written (items : list WriteItem) : list WriteItem :=
  filter (fun item => Path item <> "" /\ (buildArgsForMeta (Path item) (Meta item)).2 = true)
         items.

End WithLibrary.

End WriterArgs.

(* ================================================================= *)
(** * Properties *)

(** ** The library functions on sample inputs *)

Example Ext_samples :
  FilePath.Ext "IMG_0001.JPG" = ".JPG" /\ FilePath.Ext "archive.tar.gz" = ".gz"
  /\ FilePath.Ext "a.b/README" = "" /\ FilePath.Ext ".bashrc" = ".bashrc".
Proof. repeat split. Qed.

Example Base_samples :
  FilePath.Base "/takeout/Trip/IMG_0001.jpg" = "IMG_0001.jpg"
  /\ FilePath.Base "/takeout/Trip/" = "Trip" /\ FilePath.Base "" = "."
  /\ FilePath.Base "//" = "/".
Proof. repeat split. Qed.

Example Split_samples :
  GoString.Split "Google Photos/Trip/a.jpg" FilePath.Separator = ["Google Photos"; "Trip"; "a.jpg"]
  /\ GoString.Split "" FilePath.Separator = [""]
  /\ GoString.Split "a//b" FilePath.Separator = ["a"; ""; "b"].
Proof. repeat split. Qed.

Example TrimSuffix_samples :
  GoString.TrimSuffix "IMG_0001.jpg" ".jpg" = "IMG_0001"
  /\ GoString.TrimSuffix "IMG_0001.jpg" ".png" = "IMG_0001.jpg"
  /\ GoString.asciiLower "IMG_0001.JPG" = "img_0001.jpg".
Proof. repeat split. Qed.

Example uniquePath_samples :
  Output.uniquePath Output.joinPlain
    (Output.statOf ["/out/a.jpg"; "/out/a-01234567.jpg"; "/out/a-1.jpg"])
    "/out" "a.jpg" "0123456789abcdef" = Output.Ok "/out/a-2.jpg"
  /\ Output.uniquePath Output.joinPlain (Output.statOf ["/out/a.jpg"])
       "/out" "a.jpg" "" = Output.Ok "/out/a-1.jpg"
  /\ Output.uniquePath Output.joinPlain (fun _ => Output.StatOk)
       "/out" "a.jpg" "0123" = Output.Err (Output.TooManyCollisions "a.jpg").
Proof. repeat split; vm_compute; reflexivity. Qed.

Example Year_samples :
  Metadata.yearOfDays 0 = 1970 /\ Metadata.yearOfDays (-1) = 1969
  /\ Metadata.yearOfDays 11016 = 2000
  /\ @Metadata.Year Metadata.sampleEnv Metadata.sampleFileTime = 2019
  /\ @Metadata.Year Metadata.sampleEnv Metadata.zeroTime = 1.
Proof. repeat split. Qed.

Section OutputProps.
Import GoString FilePath Output.
Variable Join : string -> string -> string.

Local Abbreviation candidate dir name ext i := (Join dir (numberedName name i ext)).

Lemma trySuffixes_ok stat dir name ext filename left i p :
  trySuffixes Join stat dir name ext filename i left = Ok p ->
  exists k : nat,
    (i <= k < i + left)%nat /\ p = candidate dir name ext k /\
    stat p = StatNotExist /\
    forall j : nat, (i <= j < k)%nat -> stat (candidate dir name ext j) = StatOk.
Proof.
  revert i. induction left as [|left IH]; intros i; simpl; [discriminate|].
  destruct (stat (candidate dir name ext i)) eqn:Hi.
  - intros H. destruct (IH _ H) as (k & Hk & -> & Hfree & Hbefore).
    exists k. repeat split; try lia; try assumption.
    intros j Hj. destruct (decide (j = i)) as [->|]; [assumption|].
    apply Hbefore. lia.
  - intros [= <-]. exists i. repeat split; try lia; try assumption.
  - discriminate.
Qed.

Lemma trySuffixes_first_free stat dir name ext filename left i k :
  (i <= k < i + left)%nat ->
  stat (candidate dir name ext k) = StatNotExist ->
  (forall j : nat, (i <= j < k)%nat -> stat (candidate dir name ext j) = StatOk) ->
  trySuffixes Join stat dir name ext filename i left = Ok (candidate dir name ext k).
Proof.
  revert i. induction left as [|left IH]; intros i Hk Hfree Hbefore; [lia|].
  simpl. destruct (decide (k = i)) as [->|Hne].
  - by rewrite Hfree.
  - rewrite Hbefore by lia. apply IH; [lia|assumption|].
    intros j Hj. apply Hbefore. lia.
Qed.


Lemma trySuffixes_agree stat stat' dir name ext filename left i :
  (forall j : nat, (i <= j < i + left)%nat ->
     stat' (candidate dir name ext j) = stat (candidate dir name ext j)) ->
  trySuffixes Join stat' dir name ext filename i left
  = trySuffixes Join stat dir name ext filename i left.
Proof.
  revert i. induction left as [|left IH]; intros i Hagree; simpl; [reflexivity|].
  rewrite Hagree by lia.
  destruct (stat (candidate dir name ext i)); try reflexivity.
  apply IH. intros j Hj. apply Hagree. lia.
Qed.

Lemma maxSuffixes_range (i : nat) :
  (1 <= i < 1 + maxSuffixes)%nat <-> 1 <= Z.of_nat i <= 9999.
Proof. unfold maxSuffixes. lia. Qed.




End OutputProps.


Section MetadataProps.
Import GoString FilePath Metadata.
Context `{Metadata.Env}.

(** Zone offsets stay within a day of UTC. *)
Hypothesis zone_bound : forall unix, -86400 <= localOffset unix <= 86400.







End MetadataProps.


Section ScannerProps.
Import GoString FilePath Scanner.
Variable ToLower : string -> string.
Variable Dir : string -> string.
Variable Rel : string -> string -> string.
Local Open Scope list_scope.

Local Abbreviation prefixInvariant := (Scanner.prefixInvariant ToLower).

(** A media file that lies directly in the wrapper directory is given
    the wrapper's name as its album. *)
Lemma detectAlbum_under_wrapper (root path file : string) :
  Split (Rel root path) Separator = ["Google Photos"; file] ->
  detectAlbum Rel root path = "Google Photos".
Proof. intros Hparts. unfold detectAlbum. rewrite Hparts. reflexivity. Qed.

Lemma detectAlbum_wrapper_album (root path album file : string) (more : list string) :
  Split (Rel root path) Separator = "Google Photos" :: album :: file :: more ->
  detectAlbum Rel root path = if HasPrefix album "Photos from" then "" else album.
Proof.
  intros Hparts. unfold detectAlbum. rewrite Hparts. cbn -[HasPrefix].
  by destruct (HasPrefix album "Photos from").
Qed.

Lemma detectAlbum_under_root (root path file : string) :
  Split (Rel root path) Separator = [file] -> detectAlbum Rel root path = "".
Proof. intros Hparts. unfold detectAlbum. rewrite Hparts. reflexivity. Qed.

Lemma prefixInvariant_skip ext baseNoExt seen state e :
  qualifies ToLower ext baseNoExt e = false ->
  prefixInvariant ext baseNoExt seen state ->
  prefixInvariant ext baseNoExt (seen ++ [e]) state.
Proof.
  intros Hq [[Hbest Hnone] | (i & w & Hi & Hbest & Hlen & Hw & Hmin)].
  - left. split; [assumption|]. intros e' [He'|He']%elem_of_app; [by apply Hnone|].
    apply list_elem_of_singleton in He'. by subst.
  - right. exists i, w. split; [by apply lookup_app_l_Some|].
    repeat split; try assumption;
      apply lookup_app_Some in H as [Hj | [_ Hj]];
      try (by eapply Hmin);
      apply list_lookup_singleton_Some in Hj as [_ <-]; congruence.
Qed.

Lemma prefixInvariant_take ext baseNoExt seen state e :
  Path e <> "" ->
  (forall e', e' ∈ seen -> Path e' <> "") ->
  qualifies ToLower ext baseNoExt e = true ->
  prefixInvariant ext baseNoExt seen state ->
  prefixInvariant ext baseNoExt (seen ++ [e])
    (if String.eqb (fst state) "" || (titleBaseLength ToLower ext e <? snd state)%nat
     then (Path e, titleBaseLength ToLower ext e) else state).
Proof.
  intros Hpath Hpaths Hq [[Hbest Hnone] | (i & w & Hi & Hbest & Hlen & Hw & Hmin)].
  - rewrite Hbest. simpl. right. exists (length seen), e.
    split; [by rewrite lookup_app_r, Nat.sub_diag by lia|].
    repeat split; try assumption;
      apply lookup_app_Some in H as [Hj | [Hge Hj]];
      try (apply list_elem_of_lookup_2 in Hj; apply Hnone in Hj; congruence);
      try (apply list_lookup_singleton_Some in Hj as [_ <-]; lia).
  - assert (Hne : String.eqb (fst state) "" = false).
    { apply String.eqb_neq. rewrite Hbest.
      apply Hpaths. by eapply list_elem_of_lookup_2. }
    rewrite Hne. simpl. rewrite Hlen.
    destruct (Nat.ltb_spec (titleBaseLength ToLower ext e) (titleBaseLength ToLower ext w))
      as [Hlt|Hge].
    + right. exists (length seen), e.
      split; [by rewrite lookup_app_r, Nat.sub_diag by lia|].
      repeat split; try assumption;
        apply lookup_app_Some in H as [Hj | [Hge Hj]];
        try (destruct (Hmin _ _ Hj H0) as [Hle _]; lia);
        try (apply list_lookup_singleton_Some in Hj as [_ <-]; lia).
    + right. exists i, w. split; [by apply lookup_app_l_Some|].
      repeat split; try assumption;
        apply lookup_app_Some in H as [Hj | [Hlen' Hj]];
        try (by eapply Hmin);
        apply list_lookup_singleton_Some in Hj as [_ <-];
        try lia.
      intros _. apply lookup_lt_Some in Hi. lia.
Qed.

Lemma prefixLoop_invariant ext baseNoExt rest : forall seen state,
  (forall e, e ∈ seen ++ rest -> Path e <> "") ->
  prefixInvariant ext baseNoExt seen state ->
  prefixInvariant ext baseNoExt (seen ++ rest)
    (prefixLoop ToLower ext baseNoExt rest state).
Proof.
  induction rest as [|e rest IH]; intros seen state Hpaths Hinv.
  - by rewrite app_nil_r.
  - assert (Hrest : forall e', e' ∈ (seen ++ [e]) ++ rest -> Path e' <> "").
    { intros e' He'. apply Hpaths. by rewrite <- app_assoc in He'. }
    assert (Hseen : forall e', e' ∈ seen -> Path e' <> "").
    { intros e' He'. apply Hpaths. apply elem_of_app. by left. }
    assert (He : Path e <> "").
    { apply Hpaths. apply elem_of_app. right. by left. }
    replace (seen ++ e :: rest) with ((seen ++ [e]) ++ rest) by (by rewrite <- app_assoc).
    destruct (qualifies ToLower ext baseNoExt e) eqn:Hq.
    + pose proof (prefixInvariant_take ext baseNoExt seen state e He Hseen Hq Hinv) as Hstep.
      unfold qualifies in Hq. apply andb_true_iff in Hq as [Hq Hpre].
      apply andb_true_iff in Hq as [Hext Hsuf].
      simpl. apply negb_true_iff in Hext. rewrite Hext, Hsuf, Hpre. simpl.
      unfold titleBaseLength in Hstep.
      destruct (String.eqb (fst state) "" || _); by apply IH.
    + pose proof (prefixInvariant_skip ext baseNoExt seen state e Hq Hinv) as Hstep.
      unfold qualifies in Hq. simpl.
      destruct (String.eqb ext ""); [by apply IH|].
      destruct (HasSuffix (ToLower (Title e)) ext); [|by apply IH].
      simpl in Hq. rewrite Hq. simpl. by apply IH.
Qed.

(** C8, as the code has it. Among the sidecars of the media file's
    directory (each with a non-empty path) whose lower-cased title ends
    with the media file's lower-cased extension and, without that
    extension, starts with the media file's lower-cased base name, the
    rule returns the path of the one with the shortest title, the first
    of them on a tie; it returns no match exactly when none qualifies. *)
Theorem pickPrefixCandidate_shortest_extension
    (mediaPath : string) (jsonByDir : gmap string (list jsonTitleEntry)) :
  let entries := default [] (jsonByDir !! Dir mediaPath) in
  let ext := ToLower (Ext (Base mediaPath)) in
  let baseNoExt := ToLower (stripExt (Base mediaPath)) in
  (forall e, e ∈ entries -> Path e <> "") ->
  ((forall e, e ∈ entries -> qualifies ToLower ext baseNoExt e = false) ->
     pickPrefixCandidate ToLower Dir mediaPath jsonByDir = "")
  /\ ((exists e, e ∈ entries /\ qualifies ToLower ext baseNoExt e = true) ->
       exists (i : nat) (w : jsonTitleEntry),
         entries !! i = Some w /\
         pickPrefixCandidate ToLower Dir mediaPath jsonByDir = Path w /\
         qualifies ToLower ext baseNoExt w = true /\
         forall (j : nat) e, entries !! j = Some e ->
           qualifies ToLower ext baseNoExt e = true ->
           (titleBaseLength ToLower ext w <= titleBaseLength ToLower ext e)%nat /\
           (titleBaseLength ToLower ext e = titleBaseLength ToLower ext w -> (i <= j)%nat)).
Proof.
  intros entries ext baseNoExt Hpaths.
  assert (Hinv : prefixInvariant ext baseNoExt entries
                   (prefixLoop ToLower ext baseNoExt entries ("", 0%nat))).
  { apply (prefixLoop_invariant ext baseNoExt entries [] ("", 0%nat)); [exact Hpaths|].
    left. split; [reflexivity|]. intros e He. by apply elem_of_nil in He. }
  assert (Hresult : pickPrefixCandidate ToLower Dir mediaPath jsonByDir
                    = fst (prefixLoop ToLower ext baseNoExt entries ("", 0%nat))).
  { unfold pickPrefixCandidate. fold entries. fold ext. fold baseNoExt.
    destruct entries; reflexivity. }
  rewrite Hresult. split.
  - intros Hnone.
    destruct Hinv as [[Hbest _] | (i & w & Hi & _ & _ & Hw & _)]; [assumption|].
    apply list_elem_of_lookup_2 in Hi. rewrite (Hnone _ Hi) in Hw. discriminate.
  - intros (e & He & Hq).
    destruct Hinv as [[_ Hnone] | (i & w & Hi & Hbest & _ & Hw & Hmin)].
    + rewrite (Hnone _ He) in Hq. discriminate.
    + exists i, w. repeat split; try assumption; by eapply Hmin.
Qed.

End ScannerProps.

(** C7, where the code departs from it: a media file that lies in the
    wrapper directory itself is filed under an album called after the
    wrapper, where the claim gives it no album; with a directory between
    the wrapper and the file, and directly under the root, the code does
    what the claim says. *)
Theorem detectAlbum_wrapper_only :
  Scanner.detectAlbum Scanner.relBelow "/takeout" "/takeout/Google Photos/IMG_0001.jpg"
  = "Google Photos"
  /\ Scanner.detectAlbum Scanner.relBelow "/takeout" "/takeout/Google Photos/Trip/IMG_0001.jpg"
     = "Trip"
  /\ Scanner.detectAlbum Scanner.relBelow "/takeout"
       "/takeout/Google Photos/Photos from 2019/IMG_0001.jpg" = ""
  /\ Scanner.detectAlbum Scanner.relBelow "/takeout" "/takeout/IMG_0001.jpg" = "".
Proof. repeat split; vm_compute; reflexivity. Qed.

(** C8 as the claim words it fails: the only sidecar in the directory
    has the title [IMG_20190919_053857.jpg], which is no prefix of the
    media base name [IMG_20190919_0538]; the claim's rule finds no match,
    the code returns that sidecar. *)
Lemma pickPrefixCandidate_claimed_rule_fails :
  ~ Scanner.claimedPrefixRule GoString.asciiLower Scanner.dirOf
      "/d/IMG_20190919_0538.jpg"
      {[ "/d" := [Scanner.mkEntry "IMG_20190919_053857.jpg"
                                  "/d/IMG_20190919_053857.jpg.json"] ]}.
Proof.
  intros [Hnone _].
  assert (Hno : forall e,
            e ∈ [Scanner.mkEntry "IMG_20190919_053857.jpg" "/d/IMG_20190919_053857.jpg.json"] ->
            Scanner.claimedQualifies GoString.asciiLower ".jpg" "img_20190919_0538" e = false).
  { intros e He. apply list_elem_of_singleton in He. subst e. vm_compute. reflexivity. }
  specialize (Hnone Hno). vm_compute in Hnone. discriminate.
Qed.

Lemma pickPrefixCandidate_shortest_extension_witness :
  exists (i : nat) (w : Scanner.jsonTitleEntry),
    Scanner.sampleEntries !! i = Some w /\
    Scanner.pickPrefixCandidate GoString.asciiLower Scanner.dirOf
      "/d/IMG_20190919_0538.jpg" {[ "/d" := Scanner.sampleEntries ]} = Scanner.Path w /\
    Scanner.qualifies GoString.asciiLower ".jpg" "img_20190919_0538" w = true /\
    forall (j : nat) e, Scanner.sampleEntries !! j = Some e ->
      Scanner.qualifies GoString.asciiLower ".jpg" "img_20190919_0538" e = true ->
      (Scanner.titleBaseLength GoString.asciiLower ".jpg" w
       <= Scanner.titleBaseLength GoString.asciiLower ".jpg" e)%nat /\
      (Scanner.titleBaseLength GoString.asciiLower ".jpg" e
       = Scanner.titleBaseLength GoString.asciiLower ".jpg" w -> (i <= j)%nat).
Proof.
  refine (proj2 (pickPrefixCandidate_shortest_extension GoString.asciiLower Scanner.dirOf
                   "/d/IMG_20190919_0538.jpg" {[ "/d" := Scanner.sampleEntries ]} _) _).
  - intros e He. vm_compute in He.
    repeat (apply elem_of_cons in He as [-> | He]; [discriminate|]).
    by apply elem_of_nil in He.
  - exists (Scanner.mkEntry "IMG_20190919_053857.JPG" "/d/b.json").
    split; [|vm_compute; reflexivity].
    vm_compute. apply list_elem_of_further, list_elem_of_here.
Defined.

Section AlbumProps.
Import Models AlbumsPkg.
Local Open Scope list_scope.

Lemma pickAlbum_first (albums : option (gmap string bool)) (selected : list string) :
  (exists i : nat,
     selected !! i = Some (pickAlbum albums selected) /\
     albumFlag albums (pickAlbum albums selected) = true /\
     forall (j : nat) name, (j < i)%nat -> selected !! j = Some name ->
       albumFlag albums name = false)
  \/ (pickAlbum albums selected = "" /\
      forall name, name ∈ selected -> albumFlag albums name = false).
Proof.
  induction selected as [|name rest IH]; simpl.
  - right. split; [reflexivity|]. intros name Hin. by apply elem_of_nil in Hin.
  - destruct (albumFlag albums name) eqn:Hflag.
    + left. exists 0%nat. repeat split; [assumption|]. intros j n Hj. lia.
    + destruct IH as [(i & Hi & Hmember & Hbefore) | [Hempty Hnone]].
      * left. exists (S i). repeat split; try assumption.
        intros [|j] n Hj Hn; simpl in Hn; [congruence|].
        eapply Hbefore; [|eassumption]. lia.
      * right. split; [assumption|].
        intros n [-> | Hn]%elem_of_cons; [assumption | by apply Hnone].
Qed.

Lemma pickAlbum_nil_map (selected : list string) : pickAlbum None selected = "".
Proof. induction selected; [reflexivity | assumption]. Qed.

Lemma assignOne_FinalAlbum (selected : list string) (ph : Photo) :
  FinalAlbum (assignOne selected ph) = pickAlbum (Albums ph) selected
  /\ Albums (assignOne selected ph) = Albums ph.
Proof.
  unfold assignOne. destruct ph as [hash herr src json meta albums final acc size]; simpl.
  destruct albums as [m|]; simpl; [|by rewrite pickAlbum_nil_map].
  destruct selected; simpl; split; reflexivity.
Qed.

Lemma assignOne_idempotent (selected : list string) (ph : Photo) :
  assignOne selected (assignOne selected ph) = assignOne selected ph.
Proof.
  unfold assignOne. destruct ph as [hash herr src json meta albums final acc size]; simpl.
  destruct albums as [m|]; simpl; [|reflexivity].
  destruct selected; reflexivity.
Qed.

(** The heap after the assignment: every listed photo went through the
    loop body, the others are as they were. *)
Lemma AssignFinalAlbums_lookup (selected : list string) (photos : list loc) :
  forall (h : heap) (p : loc),
    AssignFinalAlbums h photos selected !! p
    = if bool_decide (p ∈ photos) then assignOne selected <$> h !! p else h !! p.
Proof.
  induction photos as [|q rest IH]; intros h p; simpl.
  - reflexivity.
  - destruct (h !! q) as [qh|] eqn:Hq.
    + rewrite IH. destruct (decide (p = q)) as [->|Hne].
      * rewrite lookup_insert_eq, Hq. simpl.
        rewrite (bool_decide_eq_true_2 (q ∈ q :: rest)) by apply list_elem_of_here.
        case_bool_decide; simpl; [by rewrite assignOne_idempotent | reflexivity].
      * rewrite lookup_insert_ne by congruence.
        apply (f_equal (fun b : bool => if b then assignOne selected <$> h !! p else h !! p)).
        apply bool_decide_ext. rewrite elem_of_cons. intuition congruence.
    + rewrite IH. destruct (decide (p = q)) as [->|Hne].
      * rewrite Hq. by repeat case_bool_decide.
      * apply (f_equal (fun b : bool => if b then assignOne selected <$> h !! p else h !! p)).
        apply bool_decide_ext. rewrite elem_of_cons. intuition congruence.
Qed.

(** C4. After the assignment every listed photo's final album is empty
    or one of its albums, and it is the first selected name that the
    photo is a member of: a selected name before it is not one of the
    photo's albums, and it is empty only when no selected name is (in
    particular when nothing is selected). The albums themselves are
    unchanged. *)
Theorem AssignFinalAlbums_first_selected
    (h : heap) (photos : list loc) (selected : list string) (p : loc) (ph : Photo) :
  p ∈ photos ->
  h !! p = Some ph ->
  exists ph',
    AssignFinalAlbums h photos selected !! p = Some ph' /\
    Albums ph' = Albums ph /\
    (FinalAlbum ph' = "" \/ albumFlag (Albums ph') (FinalAlbum ph') = true) /\
    ((exists i : nat,
        selected !! i = Some (FinalAlbum ph') /\
        albumFlag (Albums ph') (FinalAlbum ph') = true /\
        forall (j : nat) name, (j < i)%nat -> selected !! j = Some name ->
          albumFlag (Albums ph') name = false)
     \/ (FinalAlbum ph' = "" /\
         forall name, name ∈ selected -> albumFlag (Albums ph') name = false)).
Proof.
  intros Hin Hp. exists (assignOne selected ph).
  rewrite AssignFinalAlbums_lookup, Hp, bool_decide_eq_true_2 by assumption.
  destruct (assignOne_FinalAlbum selected ph) as [Hfinal Halbums].
  rewrite Hfinal, Halbums.
  pose proof (pickAlbum_first (Albums ph) selected) as Hfirst.
  repeat split; [|exact Hfirst].
  destruct Hfirst as [(i & _ & Hmember & _) | [Hempty _]]; [by right | by left].
Qed.

End AlbumProps.

Lemma AssignFinalAlbums_first_selected_witness :
  exists ph',
    AlbumsPkg.AssignFinalAlbums {[ 0%nat := AlbumsPkg.samplePhoto ]} [0%nat]
      ["Zoo"; "Family"; "Trip"] !! 0%nat = Some ph' /\
    Models.Albums ph' = Models.Albums AlbumsPkg.samplePhoto /\
    (Models.FinalAlbum ph' = "" \/
     Models.albumFlag (Models.Albums ph') (Models.FinalAlbum ph') = true) /\
    ((exists i : nat,
        ["Zoo"; "Family"; "Trip"] !! i = Some (Models.FinalAlbum ph') /\
        Models.albumFlag (Models.Albums ph') (Models.FinalAlbum ph') = true /\
        forall (j : nat) name, (j < i)%nat -> ["Zoo"; "Family"; "Trip"] !! j = Some name ->
          Models.albumFlag (Models.Albums ph') name = false)
     \/ (Models.FinalAlbum ph' = "" /\
         forall name, name ∈ ["Zoo"; "Family"; "Trip"] ->
           Models.albumFlag (Models.Albums ph') name = false)).
Proof.
  apply (AssignFinalAlbums_first_selected {[ 0%nat := AlbumsPkg.samplePhoto ]} [0%nat]
           ["Zoo"; "Family"; "Trip"] 0%nat AlbumsPkg.samplePhoto).
  - apply list_elem_of_here.
  - vm_compute. reflexivity.
Defined.

Section RegistryProps.
Import Models Dedup.
Context `{Dedup.Env}.
Local Open Scope list_scope.

(** A cache file that does not exist, and an empty path, give the empty
    cache and no error. *)
Lemma LoadHashCache_absent (path : string) :
  path = "" \/ ReadFile path = ReadNotExist ->
  LoadHashCache path = (emptyCache, false).
Proof.
  unfold LoadHashCache. intros [-> | Habsent]; [reflexivity|].
  destruct (String.eqb path ""); [reflexivity|]. by rewrite Habsent.
Qed.

(** A cache file that cannot be read, or that does not decode, gives the
    zero value of [hashCache], whose map is [nil], and an error. *)
Lemma LoadHashCache_unreadable (path : string) :
  path <> "" ->
  ReadFile path = ReadFail
  \/ (exists data, ReadFile path = ReadOk data /\ UnmarshalCache data = None) ->
  LoadHashCache path = (mkCache None, true).
Proof.
  intros Hpath Hbad. unfold LoadHashCache.
  destruct (String.eqb_spec path ""); [done|].
  destruct Hbad as [-> | (data & -> & ->)]; reflexivity.
Qed.

(** With that cache, the first file that is hashed brings the registry
    build down: the new hash is stored into the [nil] map. *)
Lemma BuildRegistry_nil_cache_panics
    (p : FilePair) (rest : list FilePair) (cachePath : string)
    (size mtime : Z) (digest : string) :
  LoadHashCache cachePath = (mkCache None, true) ->
  StatFile (MediaPath p) = Some (size, mtime) ->
  HashFile (MediaPath p) = Some digest ->
  digest <> "" ->
  BuildRegistry (p :: rest) cachePath = None.
Proof.
  intros Hload Hstat Hhash Hdigest. unfold BuildRegistry. rewrite Hload. simpl.
  unfold registryStep. rewrite Hstat. simpl. rewrite Hhash.
  destruct (String.eqb_spec digest ""); [done|]. reflexivity.
Qed.

(** Every photo the registry build creates carries an empty hash when it
    is flagged as not hashed. *)
Lemma failedHasNoHash_update (hp : heap) (l : loc) (photo photo' : Photo) :
  failedHasNoHash hp -> hp !! l = Some photo ->
  HashError photo' = HashError photo -> Hash photo' = Hash photo ->
  failedHasNoHash (<[l := photo']> hp).
Proof.
  intros Hinv Hl Herr Hhash l' ph'. rewrite lookup_insert.
  case_decide; [|by apply Hinv].
  intros [= <-]. rewrite Herr, Hhash. by apply (Hinv l).
Qed.

Lemma registryTail_failedHasNoHash (hp : heap) (l : loc) (reg : gmap string loc)
    (album : string) (size : Z) (c : hashCache) (st' : registryState) :
  failedHasNoHash hp ->
  (photo ← hp !! l;
   photo ← (if negb (String.eqb album "") then
              match Albums photo with
              | None => None
              | Some albums => Some (setAlbums (Some (<[album := true]> albums)) photo)
              end
            else Some photo);
   Some (mkState reg (<[l := setSize size photo]> hp) c)) = Some st' ->
  failedHasNoHash (photoHeap st').
Proof.
  intros Hinv. destruct (hp !! l) as [photo|] eqn:Hphoto; [simpl|discriminate].
  destruct (negb (String.eqb album "")).
  - destruct (Albums photo); [simpl|discriminate]. intros [= <-]. simpl.
    by eapply failedHasNoHash_update.
  - simpl. intros [= <-]. simpl. by eapply failedHasNoHash_update.
Qed.

Lemma registryStep_failedHasNoHash (st st' : registryState) (p : FilePair) :
  failedHasNoHash (photoHeap st) ->
  registryStep st p = Some st' ->
  failedHasNoHash (photoHeap st').
Proof.
  intros Hinv. unfold registryStep.
  destruct (StatFile (MediaPath p)) as [[size mtime]|]; [|by intros [= <-]].
  set (cached := match cacheLookup (cache st) (MediaPath p) with
                 | Some entry => _ | None => "" end).
  destruct (if String.eqb cached "" then _ else (cached, false)) as [hash hashErr] eqn:Hhash.
  assert (Hnew : hashErr = true -> (if hashErr then "" else hash) = "").
  { by intros ->. }
  set (hash' := if hashErr then "" else hash) in *.
  set (key := if hashErr then _ else hash). clearbody hash' key. clear Hhash.
  destruct (if hashErr then Some (cache st) else _) as [cache'|]; [simpl|discriminate].
  destruct (registry st !! key) as [l|].
  - by apply registryTail_failedHasNoHash.
  - apply registryTail_failedHasNoHash.
    intros l ph. rewrite lookup_insert. case_decide; [|by apply Hinv].
    intros [= <-]. simpl. exact Hnew.
Qed.

Lemma BuildRegistry_failedHasNoHash (pairs : list FilePair) (cachePath : string)
    (st : registryState) :
  BuildRegistry pairs cachePath = Some st -> failedHasNoHash (photoHeap st).
Proof.
  unfold BuildRegistry. destruct (LoadHashCache cachePath) as [c _].
  assert (Hempty : failedHasNoHash (photoHeap (mkState ∅ ∅ c))).
  { intros l ph Hl. simpl in Hl. by rewrite lookup_empty in Hl. }
  revert Hempty. generalize (mkState ∅ ∅ c).
  induction pairs as [|p rest IH]; intros st0 Hinv; simpl.
  - by intros [= <-].
  - destruct (registryStep st0 p) as [st1|] eqn:Hstep; [simpl|discriminate].
    apply IH. by eapply registryStep_failedHasNoHash.
Qed.

End RegistryProps.

(** C9, where the code departs from it. With a cache file that exists
    and cannot be read, [LoadHashCache] reports the error together with
    a cache whose map is [nil]; [BuildRegistry] drops the error and
    panics on the first file it hashes, where the claim has it proceed
    as with an empty cache. With no cache file the build goes through. *)
Theorem BuildRegistry_unreadable_cache_panics :
  let files := [("/takeout/Trip/IMG_0001.jpg", (1024, 1568871537000000000, Some "9f86d081884c7d65"))] in
  let pairs := [Dedup.mkPair "/takeout/Trip/IMG_0001.jpg" "" "Trip"] in
  @Dedup.LoadHashCache (Dedup.sampleEnv files Dedup.ReadFail) "/takeout/.gphotos/hash_cache.json"
  = (Dedup.mkCache None, true)
  /\ @Dedup.BuildRegistry (Dedup.sampleEnv files Dedup.ReadFail) pairs
       "/takeout/.gphotos/hash_cache.json" = None
  /\ @Dedup.BuildRegistry (Dedup.sampleEnv files (Dedup.ReadOk "{"))  pairs
       "/takeout/.gphotos/hash_cache.json" = None
  /\ is_Some (@Dedup.BuildRegistry (Dedup.sampleEnv files Dedup.ReadNotExist) pairs
                "/takeout/.gphotos/hash_cache.json").
Proof.
  intros files pairs. split; [reflexivity|]. split; [|split].
  - apply (@BuildRegistry_nil_cache_panics (Dedup.sampleEnv files Dedup.ReadFail)
             _ _ _ 1024 1568871537000000000 "9f86d081884c7d65"); try reflexivity.
    discriminate.
  - apply (@BuildRegistry_nil_cache_panics (Dedup.sampleEnv files (Dedup.ReadOk "{"))
             _ _ _ 1024 1568871537000000000 "9f86d081884c7d65"); try reflexivity.
    discriminate.
  - vm_compute. eexists. reflexivity.
Qed.

Section DedupProps.
Import Models Dedup.
Context `{Dedup.Env}.
Local Open Scope list_scope.

Lemma sameIdentity_refl (a : Photo) : sameIdentity a a.
Proof. repeat split; try done. intros Hfail. by right. Qed.

Lemma sameIdentity_trans (a b c : Photo) :
  sameIdentity a b -> sameIdentity b c -> sameIdentity a c.
Proof.
  intros (Hs1 & Hp1 & He1 & Hf1 & Hh1) (Hs2 & Hp2 & He2 & Hf2 & Hh2).
  split; [congruence|]. split; [congruence|]. split; [congruence|]. split.
  - intros Hfail. by apply Hf2, Hf1.
  - intros Hfail. destruct (Hh2 Hfail) as [Hempty | [Hb Hcb]]; [by left|].
    destruct (Hh1 Hb) as [Hempty | [Ha Hba]]; [left; congruence | right; split; congruence].
Qed.

(** Apart from the albums, two photos are the same. *)
Lemma sameIdentity_setAlbums (a : Photo) (albums : option (gmap string bool)) :
  sameIdentity a (setAlbums albums a).
Proof. repeat split; try done. intros Hfail. by right. Qed.

Lemma heapKin_refl (h : heap) : heapKin h h.
Proof. intros l. destruct (h !! l); [apply sameIdentity_refl | exact I]. Qed.

Lemma heapKin_trans (h1 h2 h3 : heap) : heapKin h1 h2 -> heapKin h2 h3 -> heapKin h1 h3.
Proof.
  intros H12 H23 l. specialize (H12 l). specialize (H23 l).
  destruct (h1 !! l), (h2 !! l), (h3 !! l); try done.
  by eapply sameIdentity_trans.
Qed.

Lemma heapKin_insert (h : heap) (l : loc) (a b : Photo) :
  h !! l = Some a -> sameIdentity a b -> heapKin h (<[l := b]> h).
Proof.
  intros Hl Hab l'. rewrite lookup_insert. case_decide as Heq.
  - subst l'. by rewrite Hl.
  - destruct (h !! l'); [apply sameIdentity_refl | exact I].
Qed.


Lemma heapKin_lookup_inv (h h' : heap) (l : loc) (b : Photo) :
  heapKin h h' -> h' !! l = Some b -> exists a, h !! l = Some a /\ sameIdentity a b.
Proof.
  intros Hkin Hl. specialize (Hkin l). rewrite Hl in Hkin.
  destruct (h !! l) as [a|]; [by exists a | done].
Qed.

Lemma sameIdentity_keyOfPhoto (size : Z) (a b : Photo) :
  sameIdentity a b -> keyOfPhoto size b = keyOfPhoto size a.
Proof. intros (_ & Hpath & Heff & _). unfold keyOfPhoto. by rewrite Heff, Hpath. Qed.

Lemma heapKin_keyOf (h h' : heap) (size : Z) (p : loc) :
  heapKin h h' -> keyOf h' size p = keyOf h size p.
Proof.
  intros Hkin. specialize (Hkin p). unfold keyOf.
  destruct (h !! p), (h' !! p); try done. simpl.
  by erewrite sameIdentity_keyOfPhoto.
Qed.


(** Hashing a photo or flagging it files it under its key and changes
    nothing of its identity. *)
Lemma hashStep_spec (h h' : heap) (size : Z) (p : loc) (k : string) :
  hashStep h size p = Some (h', k) -> heapKin h h' /\ keyOf h size p = Some k.
Proof.
  unfold hashStep, keyOf. destruct (h !! p) as [ph|] eqn:Hp; [simpl|discriminate].
  unfold keyOfPhoto, effectiveHash.
  destruct (HashError ph) eqn:Herr.
  - intros [= <- <-]. split; [apply heapKin_refl | reflexivity].
  - destruct (String.eqb_spec (Hash ph) "") as [Hempty|Hfull].
    + destruct (HashFile (SrcPath ph)) as [digest|] eqn:Hfile; intros [= <- <-].
      * split; [|reflexivity]. apply (heapKin_insert h p ph); [assumption|].
        split; [reflexivity|]. split; [reflexivity|]. split; [|split].
        -- unfold effectiveHash. simpl. rewrite Herr, Hempty, Hfile. simpl.
           destruct (String.eqb_spec digest "") as [->|_]; reflexivity.
        -- by rewrite Herr.
        -- simpl. by rewrite Herr.
      * split; [|reflexivity]. apply (heapKin_insert h p ph); [assumption|].
        split; [reflexivity|]. split; [reflexivity|]. split; [|split].
        -- unfold effectiveHash. simpl. rewrite Herr, Hempty. simpl. by rewrite Hfile.
        -- reflexivity.
        -- intros _. by left.
    + intros [= <- <-]. split; [apply heapKin_refl | reflexivity].
Qed.

Lemma keyed_weaken (h : heap) (size : Z) (among among' : list loc)
    (groups : gmap string (list loc)) :
  (forall p, p ∈ among -> p ∈ among') ->
  keyed h size among groups -> keyed h size among' groups.
Proof.
  intros Hsub Hkeyed k G HG. destruct (Hkeyed k G HG) as [Hne Hmem].
  split; [assumption|]. intros p Hp. destruct (Hmem p Hp). auto.
Qed.

Lemma groupByHash_spec (h0 : heap) (size : Z) (group : list loc) :
  forall (h : heap) (acc : gmap string (list loc)) (among : list loc)
         (h' : heap) (hashGroups : gmap string (list loc)),
    heapKin h0 h ->
    keyed h0 size among acc ->
    groupByHash h size group acc = Some (h', hashGroups) ->
    heapKin h0 h' /\ keyed h0 size (among ++ group) hashGroups.
Proof.
  induction group as [|p rest IH]; intros h acc among h' hashGroups Hkin Hkeyed; simpl.
  - intros [= <- <-]. by rewrite app_nil_r.
  - destruct (hashStep h size p) as [[h1 k]|] eqn:Hstep; [simpl|discriminate].
    apply hashStep_spec in Hstep as [Hkin1 Hkey].
    rewrite (heapKin_keyOf h0 h size p Hkin) in Hkey.
    intros Hrest.
    replace (among ++ p :: rest) with ((among ++ [p]) ++ rest) by (by rewrite <- app_assoc).
    eapply IH; [by eapply heapKin_trans| |exact Hrest].
    intros k' G. rewrite lookup_insert_Some. intros [[<- <-] | [Hne HG]].
    + split; [by destruct (default [] (acc !! k))|].
      intros q [Hq | ->%list_elem_of_singleton]%elem_of_app.
      * destruct (acc !! k) as [G0|] eqn:Hacc; [|by apply elem_of_nil in Hq].
        destruct (Hkeyed k G0 Hacc) as [_ Hmem]. destruct (Hmem q Hq).
        split; [apply elem_of_app; by left | assumption].
      * split; [apply elem_of_app; right; apply list_elem_of_here | assumption].
    + eapply keyed_weaken; [|exact Hkeyed|exact HG].
      intros q Hq. apply elem_of_app. by left.
Qed.

Lemma storeGroups_lookup (entries : list (string * list loc)) :
  forall (finalGroups : gmap string (list loc)) (k : string) (G : list loc),
    storeGroups entries finalGroups !! k = Some G ->
    (k, G) ∈ entries \/ finalGroups !! k = Some G.
Proof.
  unfold storeGroups.
  induction entries as [|[k' G'] rest IH]; intros finalGroups k G; simpl; [by right|].
  intros Hk. apply IH in Hk as [Hin | Hk]; [left; by apply list_elem_of_further|].
  apply lookup_insert_Some in Hk as [[<- <-] | [_ Hk]];
    [left; apply list_elem_of_here | by right].
Qed.

Lemma groupBySize_spec (h : heap) (photos : list loc) :
  forall (seen : list loc) (acc sizeGroups : gmap Z (list loc)),
    sizeInv h seen acc ->
    groupBySize h photos acc = Some sizeGroups ->
    sizeInv h (seen ++ photos) sizeGroups.
Proof.
  induction photos as [|p rest IH]; intros seen acc sizeGroups Hinv; simpl.
  - intros [= <-]. by rewrite app_nil_r.
  - destruct (h !! p) as [ph|] eqn:Hp; [simpl|discriminate].
    replace (seen ++ p :: rest) with ((seen ++ [p]) ++ rest) by (by rewrite <- app_assoc).
    apply IH. destruct Hinv as [Hgroups Hcover]. split.
    + intros size g. rewrite lookup_insert_Some. intros [[<- <-] | [Hne Hg]].
      * split; [by destruct (default [] (acc !! Size ph))|].
        intros q [Hq | ->%list_elem_of_singleton]%elem_of_app.
        -- destruct (acc !! Size ph) as [g0|] eqn:Hacc; [|by apply elem_of_nil in Hq].
           destruct (Hgroups _ _ Hacc) as [_ Hmem]. destruct (Hmem q Hq).
           split; [apply elem_of_app; by left | assumption].
        -- split; [apply elem_of_app; right; apply list_elem_of_here | by rewrite Hp].
      * destruct (Hgroups _ _ Hg) as [Hnonempty Hmem]. split; [assumption|].
        intros q Hq. destruct (Hmem q Hq). split; [apply elem_of_app; by left | assumption].
    + intros q qh [Hq | ->%list_elem_of_singleton]%elem_of_app Hqh.
      * destruct (Hcover q qh Hq Hqh) as (g & Hg & Hin).
        destruct (decide (Size ph = Size qh)) as [Heq|Hne].
        -- rewrite <- Heq, lookup_insert_eq. eexists. split; [reflexivity|].
           rewrite <- Heq in Hg. rewrite Hg. simpl. apply elem_of_app. by left.
        -- rewrite lookup_insert_ne by assumption. by exists g.
      * assert (qh = ph) as -> by congruence.
        rewrite lookup_insert_eq. eexists. split; [reflexivity|].
        apply elem_of_app. right. apply list_elem_of_here.
Qed.

Hypothesis range_law : rangeLaw.
Hypothesis sort_law : sortLaw.

Lemma rangeGroups_lookup (groups : gmap string (list loc)) (k : string) (G : list loc) :
  (k, G) ∈ rangeGroups groups <-> groups !! k = Some G.
Proof using range_law.
  destruct range_law as (_ & Hperm & _). rewrite (Hperm groups). apply elem_of_map_to_list.
Qed.

Lemma rangeFinal_lookup (groups : gmap string (list loc)) (k : string) (G : list loc) :
  (k, G) ∈ rangeFinal groups <-> groups !! k = Some G.
Proof using range_law.
  destruct range_law as (_ & _ & Hperm). rewrite (Hperm groups). apply elem_of_map_to_list.
Qed.

Lemma rangeSizes_lookup (sizeGroups : gmap Z (list loc)) (size : Z) (g : list loc) :
  (size, g) ∈ rangeSizes sizeGroups <-> sizeGroups !! size = Some g.
Proof using range_law.
  destruct range_law as [Hperm _]. rewrite (Hperm sizeGroups). apply elem_of_map_to_list.
Qed.

Lemma rangeFinal_NoDup (groups : gmap string (list loc)) :
  NoDup (fst <$> rangeFinal groups).
Proof using range_law.
  destruct range_law as (_ & _ & Hperm). rewrite (Hperm groups). apply NoDup_fst_map_to_list.
Qed.

Lemma groupLoop_spec (h0 : heap) (sizeGroups : gmap Z (list loc))
    (sizes : list (Z * list loc)) :
  forall (h : heap) (finalGroups : gmap string (list loc))
         (h' : heap) (finalGroups' : gmap string (list loc)),
    heapKin h0 h ->
    (forall size g, (size, g) ∈ sizes -> sizeGroups !! size = Some g /\ g <> []) ->
    groupInv h0 sizeGroups finalGroups ->
    groupLoop h sizes finalGroups = Some (h', finalGroups') ->
    heapKin h0 h' /\ groupInv h0 sizeGroups finalGroups'.
Proof using range_law.
  induction sizes as [|[size g] rest IH];
    intros h finalGroups h' finalGroups' Hkin Hsizes Hinv; simpl.
  - by intros [= <- <-].
  - assert (Hrest : forall size' g', (size', g') ∈ rest ->
                      sizeGroups !! size' = Some g' /\ g' <> []).
    { intros size' g' Hin. apply Hsizes. by apply list_elem_of_further. }
    destruct (Hsizes size g (list_elem_of_here _ _)) as [Hg Hnonempty].
    destruct (Nat.eqb_spec (length g) 1) as [Hone|Hmore].
    + apply IH; [assumption..|].
      intros k G. rewrite lookup_insert_Some. intros [[<- <-] | [_ HG]]; [|by apply Hinv].
      split; [assumption|]. left. by exists size.
    + destruct (groupByHash h size g ∅) as [[h1 hashGroups]|] eqn:Hhash; [simpl|discriminate].
      apply (groupByHash_spec h0 size g h ∅ []) in Hhash as [Hkin1 Hkeyed];
        [|assumption|intros k G HG; by rewrite lookup_empty in HG].
      apply IH; [assumption..|].
      intros k G HG. apply storeGroups_lookup in HG as [HG | HG]; [|by apply Hinv].
      apply rangeGroups_lookup in HG. destruct (Hkeyed k G HG) as [Hne Hmem].
      split; [assumption|]. right. exists size, g. split; [assumption|split; [assumption|]].
      intros p Hp. destruct (Hmem p Hp) as [Hin Hkey]. by rewrite app_nil_l in Hin.
Qed.

(** What [GroupIdentical] returns: the photos keep their identity, and
    every group is a size group of one photo or the photos of a larger
    size group that share a key. *)
Lemma GroupIdentical_spec (h h1 : heap) (photos : list loc)
    (grouped : gmap string (list loc)) :
  GroupIdentical h photos = Some (h1, grouped) ->
  exists sizeGroups,
    sizeInv h photos sizeGroups /\ heapKin h h1 /\ groupInv h sizeGroups grouped.
Proof using range_law.
  unfold GroupIdentical.
  destruct (groupBySize h photos ∅) as [sizeGroups|] eqn:Hsizes; [simpl|discriminate].
  apply (groupBySize_spec h photos [] ∅) in Hsizes.
  - rewrite app_nil_l in Hsizes. intros Hloop. exists sizeGroups.
    split; [assumption|].
    eapply groupLoop_spec; [apply heapKin_refl| | |exact Hloop].
    + intros size g Hin. apply rangeSizes_lookup in Hin. split; [assumption|].
      destruct Hsizes as [Hgroups _]. by destruct (Hgroups size g Hin).
    + intros k G HG. by rewrite lookup_empty in HG.
  - split.
    + intros size g Hg. by rewrite lookup_empty in Hg.
    + intros p ph Hp. by apply elem_of_nil in Hp.
Qed.

Lemma chooseBest_spec (h : heap) (group sorted : list loc) (best : loc) :
  chooseBest h group = Some (best, sorted) -> best ∈ group /\ sorted ≡ₚ group.
Proof using sort_law.
  unfold chooseBest.
  destruct (if (2 <=? length group)%nat then _ else _); [simpl|discriminate].
  destruct (head (sortSlice (lessAt h) group)) as [first|] eqn:Hhead; [simpl|discriminate].
  intros [= <- <-]. split; [|apply sort_law].
  apply head_Some_elem_of in Hhead. by rewrite (sort_law (lessAt h) group) in Hhead.
Qed.

Lemma addAlbums_kin (h h' : heap) (best p : loc) :
  addAlbums h best p = Some h' -> heapKin h h'.
Proof.
  unfold addAlbums. destruct (h !! p); [simpl|discriminate].
  destruct (h !! best) as [bph|] eqn:Hbest; [simpl|discriminate].
  destruct (Albums bph); [simpl|discriminate]. intros [= <-].
  eapply heapKin_insert; [eassumption|]. apply sameIdentity_setAlbums.
Qed.

Lemma unionLoop_kin (best : loc) (group : list loc) :
  forall h h', unionLoop h best group = Some h' -> heapKin h h'.
Proof.
  induction group as [|p rest IH]; intros h h'; simpl.
  - intros [= <-]. apply heapKin_refl.
  - destruct (addAlbums h best p) as [h1|] eqn:Hadd; [simpl|discriminate].
    intros Hrest. eapply heapKin_trans; [by eapply addAlbums_kin | by apply IH].
Qed.

(** The merge keeps the identity of every photo and returns one member
    of every group, in the order the groups are visited. *)
Lemma mergeLoop_spec (groups : list (string * list loc)) :
  forall (h : heap) (result0 : list loc) (h' : heap) (result : list loc),
    mergeLoop h groups result0 = Some (h', result) ->
    heapKin h h' /\
    exists reps, result = result0 ++ reps /\
      Forall2 (fun entry rep => rep ∈ snd entry) groups reps.
Proof using sort_law.
  induction groups as [|[k group] rest IH]; intros h result0 h' result; simpl.
  - intros [= <- <-]. split; [apply heapKin_refl|]. exists []. by rewrite app_nil_r.
  - destruct (length group =? 1)%nat.
    + destruct (head group) as [first|] eqn:Hhead; [simpl|discriminate].
      intros Hrest. apply IH in Hrest as (Hkin & reps & -> & Hreps).
      split; [assumption|]. exists (first :: reps). rewrite <- app_assoc.
      split; [reflexivity|]. constructor; [|assumption].
      by apply head_Some_elem_of.
    + destruct (chooseBest h group) as [[best sorted]|] eqn:Hbest; [simpl|discriminate].
      apply chooseBest_spec in Hbest as [Hin _].
      destruct (h !! best) as [bph|] eqn:Hbph; [simpl|discriminate].
      destruct (unionLoop _ best sorted) as [h1|] eqn:Hunion; [simpl|discriminate].
      apply unionLoop_kin in Hunion.
      intros Hrest. apply IH in Hrest as (Hkin & reps & -> & Hreps).
      split.
      * eapply heapKin_trans; [|exact Hkin]. eapply heapKin_trans; [|exact Hunion].
        eapply heapKin_insert; [eassumption|]. apply sameIdentity_setAlbums.
      * exists (best :: reps). rewrite <- app_assoc.
        split; [reflexivity|]. by constructor.
Qed.





Lemma failedHasNoHash_kin (h h' : heap) :
  heapKin h h' -> failedHasNoHash h -> failedHasNoHash h'.
Proof.
  intros Hkin Hinv l ph' Hl Hfail.
  destruct (heapKin_lookup_inv _ _ _ _ Hkin Hl) as (ph & Hph & _ & _ & _ & _ & Hhash).
  destruct (Hhash Hfail) as [Hempty | [Hfail0 Heq]]; [assumption|].
  rewrite Heq. by apply (Hinv l).
Qed.

Lemma MergeIdentical_failedHasNoHash (h h2 : heap) (photos result : list loc) :
  failedHasNoHash h ->
  MergeIdentical h photos = Some (h2, result) ->
  failedHasNoHash h2.
Proof using range_law sort_law.
  intros Hinv. unfold MergeIdentical.
  destruct (GroupIdentical h photos) as [[h1 grouped]|] eqn:Hgroup; [simpl|discriminate].
  destruct (GroupIdentical_spec _ _ _ _ Hgroup) as (sizeGroups & _ & Hkin1 & _).
  intros Hmerge. apply mergeLoop_spec in Hmerge as [Hkin2 _].
  eapply failedHasNoHash_kin; [|exact Hinv]. by eapply heapKin_trans.
Qed.

(** *** The run returns when no photo is [nil] *)












End DedupProps.

Lemma sink_perm (less : Models.loc -> Models.loc -> bool) (x : Models.loc)
    (l : list Models.loc) :
  Dedup.sink less x l ≡ₚ x :: l.
Proof.
  induction l as [|y l IH]; simpl; [reflexivity|].
  destruct (less x y); [|reflexivity].
  rewrite IH. apply Permutation_swap.
Qed.

Lemma insertionSort_perm (less : Models.loc -> Models.loc -> bool) (l : list Models.loc) :
  Dedup.insertionSort less l ≡ₚ l.
Proof.
  unfold Dedup.insertionSort. rewrite <- Permutation_rev.
  assert (Hfold : forall acc,
            foldl (fun revPrefix x => Dedup.sink less x revPrefix) acc l ≡ₚ (l ++ acc)%list).
  { induction l as [|x l IH]; intros acc; simpl; [reflexivity|].
    rewrite IH, sink_perm. symmetry. apply Permutation_middle. }
  by rewrite Hfold, app_nil_r.
Qed.

Lemma sampleEnv_laws files cacheFile :
  @Dedup.rangeLaw (Dedup.sampleEnv files cacheFile)
  /\ @Dedup.sortLaw (Dedup.sampleEnv files cacheFile).
Proof.
  split; [repeat split; intros m; reflexivity|].
  intros less l. apply insertionSort_perm.
Defined.




(** C10. With an empty content hash the resolver never looks at a
    hash-suffixed name: the original name is returned when it is free,
    otherwise the first free name among the suffixes -1 .. -9999; a
    returned path is the original or a numbered one, and the answer
    depends on the state of those names alone. A photo flagged as not
    hashed has an empty hash: the registry build creates it so, and
    the merge and the album assignment keep it so. *)
Theorem uniquePath_without_hash :
  (forall (Join : string -> string -> string) (stat : string -> Output.StatResult)
          (dir filename : string),
     let ext := FilePath.Ext filename in
     let name := GoString.TrimSuffix filename ext in
     let original := Join dir filename in
     let numbered (i : nat) := Join dir (name ++ "-" ++ pretty i ++ ext) in
     (stat original = Output.StatNotExist ->
        Output.uniquePath Join stat dir filename "" = Output.Ok original)
     /\ (forall i : nat,
           stat original = Output.StatOk -> 1 <= Z.of_nat i <= 9999 ->
           stat (numbered i) = Output.StatNotExist ->
           (forall j : nat, 1 <= Z.of_nat j < Z.of_nat i -> stat (numbered j) = Output.StatOk) ->
           Output.uniquePath Join stat dir filename "" = Output.Ok (numbered i))
     /\ (forall p, Output.uniquePath Join stat dir filename "" = Output.Ok p ->
           p = original \/ exists i : nat, 1 <= Z.of_nat i <= 9999 /\ p = numbered i)
     /\ (forall stat' : string -> Output.StatResult,
           stat' original = stat original ->
           (forall i : nat, 1 <= Z.of_nat i <= 9999 -> stat' (numbered i) = stat (numbered i)) ->
           Output.uniquePath Join stat' dir filename ""
           = Output.uniquePath Join stat dir filename ""))
  /\ (forall (E : Dedup.Env) (pairs : list Dedup.FilePair) (cachePath : string)
             (st : Dedup.registryState),
        Dedup.BuildRegistry pairs cachePath = Some st ->
        Dedup.failedHasNoHash (Dedup.photoHeap st))
  /\ (forall (E : Dedup.Env) (h h2 : Models.heap) (photos result : list Models.loc),
        Dedup.rangeLaw -> Dedup.sortLaw ->
        Dedup.failedHasNoHash h ->
        Dedup.MergeIdentical h photos = Some (h2, result) ->
        Dedup.failedHasNoHash h2)
  /\ (forall (h : Models.heap) (photos : list Models.loc) (selected : list string),
        Dedup.failedHasNoHash h ->
        Dedup.failedHasNoHash (AlbumsPkg.AssignFinalAlbums h photos selected)).
Proof.
  split; [|split; [|split]].
  - intros Join stat dir filename ext name original numbered.
    assert (Hunfold : forall st : string -> Output.StatResult,
              st original = Output.StatOk ->
              Output.uniquePath Join st dir filename ""
              = Output.trySuffixes Join st dir name ext filename 1 Output.maxSuffixes).
    { intros st Horig. unfold Output.uniquePath. fold original. by rewrite Horig. }
    split; [|split; [|split]].
    + intros Horig. unfold Output.uniquePath. fold original. by rewrite Horig.
    + intros i Horig Hi Hfree Hbefore. rewrite Hunfold by assumption.
      apply (trySuffixes_first_free Join stat dir name ext filename Output.maxSuffixes 1 i).
      * apply maxSuffixes_range. lia.
      * exact Hfree.
      * intros j Hj. apply Hbefore. lia.
    + intros p. destruct (stat original) eqn:Horig.
      * rewrite Hunfold by assumption. intros Hp.
        apply trySuffixes_ok in Hp as (k & Hk & -> & _). right. exists k.
        split; [by apply maxSuffixes_range | reflexivity].
      * unfold Output.uniquePath. fold original. rewrite Horig. intros [= <-]. by left.
      * unfold Output.uniquePath. fold original. rewrite Horig. discriminate.
    + intros stat' Horig Hnum. destruct (stat original) eqn:Hst.
      * rewrite !Hunfold by assumption. apply trySuffixes_agree.
        intros j Hj. apply Hnum. by apply maxSuffixes_range.
      * unfold Output.uniquePath. fold original. by rewrite Horig, Hst.
      * unfold Output.uniquePath. fold original. by rewrite Horig, Hst.
  - intros E pairs cachePath st. apply BuildRegistry_failedHasNoHash.
  - intros E h h2 photos result Hrange Hsort. by apply MergeIdentical_failedHasNoHash.
  - intros h photos selected Hinv l ph. rewrite AssignFinalAlbums_lookup.
    destruct (h !! l) as [ph0|] eqn:Hl; [|by case_bool_decide].
    assert (Hone : Models.HashError (AlbumsPkg.assignOne selected ph0) = Models.HashError ph0
                   /\ Models.Hash (AlbumsPkg.assignOne selected ph0) = Models.Hash ph0).
    { unfold AlbumsPkg.assignOne. simpl. destruct (Models.Albums ph0); [|done].
      by destruct (length selected =? 0)%nat. }
    destruct Hone as [Herr Hhash].
    case_bool_decide; simpl; intros [= <-].
    + rewrite Herr, Hhash. by apply (Hinv l).
    + by apply (Hinv l).
Qed.

(** [tac] with the propositions of the context only: the variables
    that the goal does not mention are put aside first. *)
Ltac prop_only tac :=
  repeat match goal with
         | H : ?T |- _ => lazymatch type of T with Prop => revert H end
         end;
  repeat match goal with x : _ |- _ => clear x end;
  intros; tac.

(** ** The registry build, key by key *)

Section RegistryKeyProps.
Import Models Dedup RegistryKeys.
Context `{Dedup.Env}.

Lemma cacheEntry_eta (e : hashCacheEntry) :
  mkCacheEntry (EntrySize e) (MtimeNs e) (EntryHash e) = e.
Proof. by destruct e. Qed.

(** A hash taken from the cache is the hash of an entry that is up to
    date. *)
Lemma cachedHash_hit (c : hashCache) (path : string) (size mtime : Z) :
  cachedHash c path size mtime <> "" ->
  cacheLookup c path = Some (mkCacheEntry size mtime (cachedHash c path size mtime)).
Proof.
  unfold cachedHash. destruct (cacheLookup c path) as [e|]; [|done].
  destruct (Z.eqb_spec (EntrySize e) size) as [<-|]; [|done].
  destruct (Z.eqb_spec (MtimeNs e) mtime) as [<-|]; [|done].
  destruct (String.eqb (EntryHash e) ""); [done|]. simpl.
  by rewrite cacheEntry_eta.
Qed.

(** Storing the hash of a pair does not change the key of any pair. *)
Lemma contentKey_store (c : hashCache) (files : gmap string hashCacheEntry)
    (p q : FilePair) (size mtime : Z) (key : string) :
  Files c = Some files ->
  StatFile (MediaPath p) = Some (size, mtime) ->
  contentKey c p = Some key ->
  key <> "" ->
  contentKey (mkCache (Some (<[MediaPath p := mkCacheEntry size mtime key]> files))) q
  = contentKey c q.
Proof.
  intros Hfiles Hstat Hkey Hne. unfold contentKey, cachedHash, cacheLookup in *. simpl.
  rewrite Hfiles in *.
  destruct (decide (MediaPath q = MediaPath p)) as [Hpath|Hpath].
  - rewrite Hpath, Hstat in *. rewrite lookup_insert_eq. simpl.
    rewrite !Z.eqb_refl. destruct (String.eqb_spec key ""); [done|]. simpl.
    destruct (String.eqb_spec key ""); [done|]. by rewrite Hkey.
  - by rewrite lookup_insert_ne.
Qed.

(** One iteration for a file that [os.Stat] finds. *)
Lemma registryStep_cases (st st' : registryState) (p : FilePair) (size mtime : Z) :
  StatFile (MediaPath p) = Some (size, mtime) ->
  registryStep st p = Some st' ->
  exists key l ph0 ph1,
    contentKey (cache st) p = Some key /\
    (registry st !! key = Some l /\ photoHeap st !! l = Some ph0 /\
       registry st' = registry st
     \/ registry st !! key = None /\ l = fresh (dom (photoHeap st)) /\
        registry st' = <[key := l]> (registry st) /\
        registryKeyOf ph0 = key /\ Albums ph0 = Some ∅ /\
        (HashError ph0 = true -> Hash ph0 = "") /\
        (HashError ph0 = false ->
           hashOutcome (cache st) (MediaPath p) size mtime = (Hash ph0, false))) /\
    (Album p = "" /\ ph1 = ph0
     \/ Album p <> "" /\ exists m, Albums ph0 = Some m /\
          ph1 = setAlbums (Some (<[Album p := true]> m)) ph0) /\
    photoHeap st' = <[l := setSize size ph1]> (photoHeap st) /\
    (cache st' = cache st /\
       (forall hash, hashOutcome (cache st) (MediaPath p) size mtime = (hash, false) ->
          hash = "")
     \/ exists files, Files (cache st) = Some files /\ key <> "" /\
          hashOutcome (cache st) (MediaPath p) size mtime = (key, false) /\
          cache st' = mkCache (Some (<[MediaPath p := mkCacheEntry size mtime key]> files))).
Proof.
  intros Hstat. unfold registryStep, contentKey, hashOutcome. rewrite Hstat.
  fold (cachedHash (cache st) (MediaPath p) size mtime).
  set (cached := cachedHash (cache st) (MediaPath p) size mtime).
  cbv zeta.
  set (res := if String.eqb cached "" then _ else _).
  assert (exists hash hashErr, res = (hash, hashErr) /\
            (if String.eqb cached "" then
               match HashFile (MediaPath p) with
               | Some h => Some h | None => Some ("nohash:" ++ MediaPath p) end
             else Some cached) = Some (if hashErr then "nohash:" ++ MediaPath p else hash) /\
            (hashErr = true -> hash = ""))
    as (hash & hashErr & -> & -> & Hfailed).
  { unfold res. destruct (String.eqb cached "").
    - destruct (HashFile (MediaPath p)) as [h|]; [by exists h, false | by exists "", true].
    - by exists cached, false. }
  set (key := if hashErr then _ else hash).
  set (hash' := if hashErr then "" else hash).
  intros Hstep.
  destruct (if hashErr then Some (cache st) else _) as [cache'|] eqn:Hcache;
    [simpl in Hstep|discriminate].
  assert (cache' = cache st /\
            (forall hash0, (hash, hashErr) = (hash0, false) -> hash0 = "")
          \/ exists files, Files (cache st) = Some files /\ key <> "" /\
               (hash, hashErr) = (key, false) /\
               cache' = mkCache (Some (<[MediaPath p := mkCacheEntry size mtime key]> files)))
    as Hcache'.
  { unfold key, hash' in *. destruct hashErr; [left; split; [congruence|done]|].
    destruct (String.eqb_spec hash ""); simpl in Hcache;
      [left; split; [congruence|intros hash0 [= <-]; done]|].
    unfold cacheStore in Hcache. destruct (Files (cache st)) as [files|]; [|done].
    right. exists files. by inversion Hcache. }
  clear Hcache.
  destruct (registry st !! key) as [l|] eqn:Hreg.
  - destruct (photoHeap st !! l) as [ph0|] eqn:Hph0; [simpl in Hstep|discriminate].
    destruct (String.eqb_spec (Album p) "") as [Halbum|Halbum]; simpl in Hstep.
    + inversion Hstep; subst st'; simpl. exists key, l, ph0, ph0.
      split; [done|]. split; [by left|]. split; [by left|]. done.
    + destruct (Albums ph0) as [m|] eqn:Hm; [|done].
      inversion Hstep; subst st'; simpl.
      exists key, l, ph0, (setAlbums (Some (<[Album p := true]> m)) ph0).
      split; [done|]. split; [by left|]. split; [right; split; [done|by exists m]|]. done.
  - set (l := fresh (dom (photoHeap st))) in *.
    set (ph0 := mkPhoto _ _ _ _ _ _ _ _ _) in *.
    rewrite lookup_insert_eq in Hstep. simpl in Hstep.
    assert (registryKeyOf ph0 = key /\ Albums ph0 = Some ∅
            /\ (HashError ph0 = true -> Hash ph0 = "")
            /\ (HashError ph0 = false -> (hash, hashErr) = (Hash ph0, false))) as Hnew.
    { unfold registryKeyOf, ph0, key, hash'. simpl. by destruct hashErr. }
    destruct (String.eqb_spec (Album p) "") as [Halbum|Halbum]; simpl in Hstep.
    + inversion Hstep; subst st'; simpl. exists key, l, ph0, ph0.
      split; [done|]. split; [by right|]. split; [by left|].
      by rewrite insert_insert_eq.
    + inversion Hstep; subst st'; simpl.
      exists key, l, ph0, (setAlbums (Some (<[Album p := true]> ∅)) ph0).
      split; [done|]. split; [by right|].
      split; [right; split; [done|by exists ∅]|].
      by rewrite insert_insert_eq.
Qed.

Lemma registryStep_skip (st : registryState) (p : FilePair) :
  StatFile (MediaPath p) = None ->
  registryStep st p = Some st /\ forall c, contentKey c p = None.
Proof. intros Hstat. unfold registryStep, contentKey. by rewrite Hstat. Qed.

Lemma albumsOfKey_snoc (c : hashCache) (seen : list FilePair) (p : FilePair)
    (key a : string) :
  albumsOfKey c (seen ++ [p])%list key a
  <-> albumsOfKey c seen key a \/ (a <> "" /\ contentKey c p = Some key /\ Album p = a).
Proof.
  unfold albumsOfKey. split.
  - intros (Ha & q & Hq & Hkey & Halbum). apply elem_of_app in Hq as [Hq|Hq].
    + left. eauto.
    + apply list_elem_of_singleton in Hq as ->. by right.
  - intros [(Ha & q & Hq & Hkey & Halbum) | (Ha & Hkey & Halbum)].
    + split; [done|]. exists q. rewrite elem_of_app. eauto.
    + split; [done|]. exists p. rewrite elem_of_app, list_elem_of_singleton. eauto.
Qed.

Lemma albumFlag_insert (m : gmap string bool) (name a : string) :
  albumFlag (Some (<[name := true]> m)) a = true
  <-> a = name \/ albumFlag (Some m) a = true.
Proof.
  unfold albumFlag. rewrite lookup_insert. case_decide as Hname; simpl.
  - subst. by intuition.
  - split; [by right|]. by intros [->|].
Qed.

(** The invariant holds at the start of the loop. *)
Lemma registryInv_start (c0 : hashCache) : registryInv c0 [] (mkState ∅ ∅ c0).
Proof.
  unfold registryInv. simpl. split; [done|]. split; [done|].
  split; [intros k1 k2 l Hk; by rewrite lookup_empty in Hk|].
  split; [intros l [ph Hl]; by rewrite lookup_empty in Hl|].
  split; [intros key l Hk; by rewrite lookup_empty in Hk|].
  intros q key Hq. by apply elem_of_nil in Hq.
Qed.

(** Every iteration keeps the invariant. *)
Lemma registryInv_step (c0 : hashCache) (seen : list FilePair) (st st' : registryState)
    (p : FilePair) :
  registryInv c0 seen st ->
  registryStep st p = Some st' ->
  registryInv c0 (seen ++ [p])%list st'.
Proof.
  intros (Hkeys & Hfiles & Hinj & Hreg & Hphoto & Hseen) Hstep.
  destruct (StatFile (MediaPath p)) as [[size mtime]|] eqn:Hstat.
  2:{ destruct (registryStep_skip st p Hstat) as [Hsame Hnokey].
      rewrite Hsame in Hstep. inversion Hstep; subst st'.
      split; [done|]. split; [done|]. split; [done|]. split; [done|]. split.
      - intros key l Hl. destruct (Hphoto key l Hl) as (ph & m & Hph & Hk & Hm & Hflags).
        exists ph, m. split; [done|]. split; [done|]. split; [done|].
        intros a. rewrite albumsOfKey_snoc, Hflags, Hnokey. prop_only ltac:(intuition congruence).
      - intros q key Hq Hkey. apply elem_of_app in Hq as [Hq|Hq]; [by eapply Hseen|].
        apply list_elem_of_singleton in Hq as ->. by rewrite Hnokey in Hkey. }
  destruct (registryStep_cases st st' p size mtime Hstat Hstep)
    as (key & l & ph0 & ph1 & Hkey & Hwhere & Halbum & Hheap & Hcache).
  assert (contentKey c0 p = Some key) as Hkey0 by (by rewrite <- Hkeys).
  assert (registry st' !! key = Some l) as Hregistered.
  { destruct Hwhere as [(Hl & _ & ->) | (_ & _ & -> & _)]; [done|].
    by rewrite lookup_insert_eq. }
  assert (forall key' l', key' <> key ->
            (registry st' !! key' = Some l' <-> registry st !! key' = Some l')) as Hother.
  { intros key' l' Hne. destruct Hwhere as [(_ & _ & ->) | (_ & _ & -> & _)]; [done|].
    by rewrite lookup_insert_ne. }
  assert (forall key' l', key' <> key -> registry st !! key' = Some l' -> l' <> l)
    as Hfresh.
  { intros key' l' Hne Hl' ->. destruct Hwhere as [(Hl & _) | (Hnone & -> & _)].
    - by apply Hne, (Hinj key' key (l)).
    - destruct (Hphoto key' _ Hl') as (ph & _ & Hph & _).
      apply (is_fresh (dom (photoHeap st))). apply elem_of_dom. by exists ph. }
  split; [|split; [|split; [|split; [|split]]]].
  - intros q. rewrite <- Hkeys.
    destruct Hcache as [[-> _] | (files & Hf & Hne & _ & ->)]; [done|].
    by eapply contentKey_store.
  - intros Hc0.
    destruct Hcache as [[-> _] | (files & Hf & Hne & _ & ->)]; [by apply Hfiles|done].
  - intros k1 k2 l' Hk1 Hk2.
    destruct (decide (k1 = key)) as [->|Hk1ne], (decide (k2 = key)) as [->|Hk2ne];
      [done| | |].
    + rewrite Hregistered in Hk1. inversion Hk1; subst l'.
      apply Hother in Hk2; [|done]. by destruct (Hfresh k2 l Hk2ne Hk2).
    + rewrite Hregistered in Hk2. inversion Hk2; subst l'.
      apply Hother in Hk1; [|done]. by destruct (Hfresh k1 l Hk1ne Hk1).
    + apply Hother in Hk1, Hk2; [|done..]. by eapply Hinj.
  - intros l'. rewrite Hheap, lookup_insert_is_Some.
    intros [<- | [Hne Hl']]; [by exists key|].
    destruct (Hreg l' Hl') as (key' & Hkey').
    exists key'. destruct (decide (key' = key)) as [->|Hkne]; [|by apply Hother].
    destruct Hwhere as [(Hl & _) | (Hnone & _)];
      [|discriminate (eq_trans (eq_sym Hnone) Hkey')].
    destruct Hne. by injection (eq_trans (eq_sym Hl) Hkey').
  - intros key' l' Hl'. rewrite Hheap.
    destruct (decide (key' = key)) as [->|Hkne].
    + rewrite Hregistered in Hl'. inversion Hl'; subst l'. rewrite lookup_insert_eq.
      assert (exists m, registryKeyOf ph0 = key /\ Albums ph0 = Some m /\
                forall a, albumFlag (Some m) a = true <-> albumsOfKey c0 seen key a)
        as (m & Hk0 & Hm & Hflags).
      { destruct Hwhere as [(Hl & Hph0 & _) | (Hnone & _ & _ & Hk0 & Hm & _)].
        - destruct (Hphoto key l Hl) as (ph & m & Hph & Hk & Hm & Hflags).
          exists m. by replace ph0 with ph by congruence.
        - exists ∅. split; [done|]. split; [done|]. intros a. split; [done|].
          intros (_ & q & Hq & Hqkey & _).
          destruct (Hseen q key Hq Hqkey) as [? ?]. congruence. }
      destruct Halbum as [[Hnoalbum ->] | (Hfolder & m' & Hm' & ->)].
      * exists (setSize size ph0), m. split; [done|]. split; [done|]. split; [done|].
        intros a. rewrite albumsOfKey_snoc, Hflags. prop_only ltac:(intuition congruence).
      * replace m' with m in * by congruence.
        exists (setSize size (setAlbums (Some (<[Album p := true]> m)) ph0)),
               (<[Album p := true]> m).
        split; [done|]. split; [done|]. split; [done|].
        intros a. rewrite albumsOfKey_snoc, albumFlag_insert, Hflags. prop_only ltac:(intuition congruence).
    + apply Hother in Hl'; [|done]. rewrite lookup_insert_ne by by apply not_eq_sym, (Hfresh key').
      destruct (Hphoto key' l' Hl') as (ph & m & Hph & Hk & Hm & Hflags).
      exists ph, m. split; [done|]. split; [done|]. split; [done|].
      intros a. rewrite albumsOfKey_snoc, Hflags. split; [by left|].
      intros [|(_ & Hp & _)]; [done|]. congruence.
  - intros q key' Hq Hqkey.
    assert (is_Some (registry st !! key') \/ key' = key) as [[l' Hl'] | ->].
    { apply elem_of_app in Hq as [Hq|Hq]; [left; by eapply Hseen|].
      apply list_elem_of_singleton in Hq as ->. right. congruence. }
    + destruct (decide (key' = key)) as [->|Hkne]; [by exists l|].
      exists l'. by apply Hother.
    + by exists l.
Qed.

(** So it holds of whatever the loop returns. *)
Lemma registryLoop_inv (c0 : hashCache) (pairs seen : list FilePair)
    (st st' : registryState) :
  registryInv c0 seen st ->
  registryLoop st pairs = Some st' ->
  registryInv c0 (seen ++ pairs)%list st'.
Proof.
  revert seen st. induction pairs as [|p rest IH]; intros seen st Hinv; simpl.
  - intros [= <-]. by rewrite app_nil_r.
  - destruct (registryStep st p) as [st1|] eqn:Hstep; [simpl|discriminate].
    intros Hloop. rewrite (cons_middle p seen rest), app_assoc.
    apply (IH _ st1); [|done]. by eapply registryInv_step.
Qed.

Lemma BuildRegistry_inv (pairs : list FilePair) (cachePath : string) (st : registryState) :
  BuildRegistry pairs cachePath = Some st ->
  registryInv (LoadHashCache cachePath).1 pairs st.
Proof.
  unfold BuildRegistry. destruct (LoadHashCache cachePath) as [c0 err]. simpl.
  intros Hloop. apply (registryLoop_inv c0 pairs [] _ st (registryInv_start c0) Hloop).
Qed.

(** X1. [BuildRegistry] keeps one photo for each key: every pair whose
    file [os.Stat] finds has its photo in the registry under the pair's
    key, the photo was created under that key, and its albums are exactly
    the non-empty album names of the pairs that have this key. *)
Theorem BuildRegistry_one_photo_per_key (pairs : list FilePair) (cachePath : string)
    (st : registryState) (p : FilePair) (key : string) :
  BuildRegistry pairs cachePath = Some st ->
  p ∈ pairs ->
  contentKey (LoadHashCache cachePath).1 p = Some key ->
  exists l ph,
    registry st !! key = Some l /\ photoHeap st !! l = Some ph /\
    registryKeyOf ph = key /\
    forall a, albumFlag (Albums ph) a = true
              <-> albumsOfKey (LoadHashCache cachePath).1 pairs key a.
Proof.
  intros Hrun Hp Hkey.
  destruct (BuildRegistry_inv _ _ _ Hrun) as (_ & _ & _ & _ & Hphoto & Hseen).
  destruct (Hseen p key Hp Hkey) as [l Hl].
  destruct (Hphoto key l Hl) as (ph & m & Hph & Hk & Hm & Hflags).
  exists l, ph. rewrite Hm. done.
Qed.

(** X2. No two photos of the registry carry the same hash, unless the
    hash is empty and one of them is a file that could not be hashed. *)
Theorem BuildRegistry_distinct_hashes (pairs : list FilePair) (cachePath : string)
    (st : registryState) (l1 l2 : loc) (ph1 ph2 : Photo) :
  BuildRegistry pairs cachePath = Some st ->
  photoHeap st !! l1 = Some ph1 ->
  photoHeap st !! l2 = Some ph2 ->
  l1 <> l2 ->
  Hash ph1 = Hash ph2 ->
  Hash ph1 = "" /\ (HashError ph1 = true \/ HashError ph2 = true).
Proof.
  intros Hrun Hl1 Hl2 Hne Hsame.
  pose proof (BuildRegistry_failedHasNoHash _ _ _ Hrun) as Hfailed.
  destruct (BuildRegistry_inv _ _ _ Hrun) as (_ & _ & Hinj & Hreg & Hphoto & _).
  destruct (Hreg l1 (mk_is_Some _ _ Hl1)) as (k1 & Hk1).
  destruct (Hreg l2 (mk_is_Some _ _ Hl2)) as (k2 & Hk2).
  destruct (Hphoto k1 l1 Hk1) as (ph1' & _ & Hph1 & Hkey1 & _).
  destruct (Hphoto k2 l2 Hk2) as (ph2' & _ & Hph2 & Hkey2 & _).
  replace ph1' with ph1 in * by congruence. replace ph2' with ph2 in * by congruence.
  unfold registryKeyOf in Hkey1, Hkey2.
  destruct (HashError ph1) eqn:Herr1.
  { split; [by apply (Hfailed l1)|by left]. }
  destruct (HashError ph2) eqn:Herr2.
  { split; [rewrite Hsame; by apply (Hfailed l2)|by right]. }
  destruct Hne. assert (k1 = k2) as -> by congruence.
  by injection (eq_trans (eq_sym Hk1) Hk2).
Qed.

Lemma LoadHashCache_no_error (path : string) :
  (LoadHashCache path).2 = false -> Files (LoadHashCache path).1 <> None.
Proof.
  unfold LoadHashCache. destruct (String.eqb path ""); [done|].
  destruct (ReadFile path) as [data| |]; [|done..].
  by destruct (UnmarshalCache data) as [[files|]|].
Qed.

(** An iteration returns when the map of the cache is not [nil]. *)
Lemma registryStep_returns (c0 : hashCache) (seen : list FilePair) (st : registryState)
    (p : FilePair) :
  registryInv c0 seen st ->
  Files (cache st) <> None ->
  is_Some (registryStep st p).
Proof.
  intros (_ & _ & _ & _ & Hphoto & _) Hfiles. unfold registryStep.
  destruct (StatFile (MediaPath p)) as [[size mtime]|]; [|done].
  fold (cachedHash (cache st) (MediaPath p) size mtime).
  destruct (if String.eqb (cachedHash (cache st) (MediaPath p) size mtime) "" then _ else _)
    as [hash hashErr].
  set (key := if hashErr then _ else hash).
  set (hash' := if hashErr then "" else hash).
  assert (exists c, (if hashErr then Some (cache st)
                     else if negb (String.eqb hash' "")
                     then cacheStore (cache st) (MediaPath p) (mkCacheEntry size mtime hash')
                     else Some (cache st)) = Some c) as [c ->].
  { destruct hashErr; [by eexists|]. destruct (negb (String.eqb hash' "")); [|by eexists].
    unfold cacheStore. destruct (Files (cache st)); [by eexists|done]. }
  simpl. destruct (registry st !! key) as [l|] eqn:Hl.
  - destruct (Hphoto key l Hl) as (ph & m & -> & _ & Hm & _). simpl.
    destruct (negb (String.eqb (Album p) "")); [|done]. by rewrite Hm.
  - rewrite lookup_insert_eq. simpl. by destruct (negb (String.eqb (Album p) "")).
Qed.

Lemma registryLoop_returns (c0 : hashCache) (pairs seen : list FilePair)
    (st : registryState) :
  registryInv c0 seen st ->
  Files c0 <> None ->
  is_Some (registryLoop st pairs).
Proof.
  intros Hinv Hfiles. revert seen st Hinv.
  induction pairs as [|p rest IH]; intros seen st Hinv; simpl; [done|].
  destruct (registryStep_returns c0 seen st p Hinv) as [st1 Hstep].
  { destruct Hinv as (_ & Hc & _). by apply Hc. }
  rewrite Hstep. simpl. apply (IH (seen ++ [p])%list). by eapply registryInv_step.
Qed.

(** X3. [BuildRegistry] returns whenever the cache was loaded without an
    error: the only panic of the loop is the store into the [nil] map of
    a cache that could not be loaded. *)
Theorem BuildRegistry_returns (pairs : list FilePair) (cachePath : string) :
  (LoadHashCache cachePath).2 = false ->
  is_Some (BuildRegistry pairs cachePath).
Proof.
  intros Hload. apply LoadHashCache_no_error in Hload. unfold BuildRegistry.
  destruct (LoadHashCache cachePath) as [c0 err]. simpl in Hload.
  by apply (registryLoop_returns c0 pairs [] _ (registryInv_start c0)).
Qed.

(** ** The hash cache over a run *)

Lemma cacheStore_same (c : hashCache) (path : string) (e : hashCacheEntry) :
  cacheLookup c path = Some e -> cacheStore c path e = Some c.
Proof.
  unfold cacheLookup, cacheStore. destruct c as [[files|]]; simpl; [|done].
  intros He. by rewrite insert_id.
Qed.

Lemma cachedHash_entry (c : hashCache) (path : string) (size mtime : Z) (hash : string) :
  cacheLookup c path = Some (mkCacheEntry size mtime hash) ->
  hash <> "" ->
  cachedHash c path size mtime = hash.
Proof.
  unfold cachedHash. intros -> Hne. simpl. rewrite !Z.eqb_refl.
  by destruct (String.eqb_spec hash "").
Qed.

Lemma hashOutcome_entry (c : hashCache) (path : string) (size mtime : Z) (hash : string) :
  cacheLookup c path = Some (mkCacheEntry size mtime hash) ->
  hash <> "" ->
  hashOutcome c path size mtime = (hash, false).
Proof.
  intros He Hne. unfold hashOutcome. rewrite (cachedHash_entry _ _ _ _ _ He Hne).
  by destruct (String.eqb_spec hash "").
Qed.

Lemma hashOutcome_lookup (c c' : hashCache) (path : string) (size mtime : Z) :
  cacheLookup c' path = cacheLookup c path ->
  hashOutcome c' path size mtime = hashOutcome c path size mtime.
Proof. unfold hashOutcome, cachedHash. by intros ->. Qed.

Lemma cacheLookup_store (files : gmap string hashCacheEntry) (path path' : string)
    (e : hashCacheEntry) :
  cacheLookup (mkCache (Some (<[path := e]> files))) path'
  = if decide (path = path') then Some e else files !! path'.
Proof. unfold cacheLookup. simpl. by rewrite lookup_insert. Qed.

(** What one iteration does to the cache: the hash of a file on disk
    stays what it was, an entry that is up to date stays, and the hash
    that was found for the pair is in the cache afterwards. *)
Lemma registryStep_cache (st st' : registryState) (p : FilePair) :
  registryStep st p = Some st' ->
  (forall path size mtime, StatFile path = Some (size, mtime) ->
     hashOutcome (cache st') path size mtime = hashOutcome (cache st) path size mtime) /\
  (forall path size mtime hash, StatFile path = Some (size, mtime) -> hash <> "" ->
     cacheLookup (cache st) path = Some (mkCacheEntry size mtime hash) ->
     cacheLookup (cache st') path = Some (mkCacheEntry size mtime hash)) /\
  (forall size mtime hash, StatFile (MediaPath p) = Some (size, mtime) ->
     hashOutcome (cache st) (MediaPath p) size mtime = (hash, false) -> hash <> "" ->
     cacheLookup (cache st') (MediaPath p) = Some (mkCacheEntry size mtime hash)).
Proof.
  intros Hstep.
  destruct (StatFile (MediaPath p)) as [[size mtime]|] eqn:Hstat.
  2:{ destruct (registryStep_skip st p Hstat) as [Hsame _].
      rewrite Hsame in Hstep. inversion Hstep; subst st'. done. }
  destruct (registryStep_cases st st' p size mtime Hstat Hstep)
    as (key & _ & _ & _ & _ & _ & _ & _ & Hcache).
  destruct Hcache as [[-> Hempty] | (files & Hfiles & Hne & Hout & ->)].
  { split; [done|]. split; [done|].
    intros size' mtime' hash [= <- <-] Hhash Hnonempty. by destruct (Hempty hash). }
  assert (cacheLookup (cache st) = fun path => files !! path) as Hlookup.
  { unfold cacheLookup. by rewrite Hfiles. }
  split; [|split].
  - intros path size' mtime' Hpath.
    destruct (decide (MediaPath p = path)) as [<-|Hother].
    + replace size' with size by congruence. replace mtime' with mtime by congruence.
      rewrite Hout. apply hashOutcome_entry; [|done].
      rewrite cacheLookup_store. by rewrite decide_True.
    + apply hashOutcome_lookup. rewrite cacheLookup_store, Hlookup.
      by rewrite decide_False.
  - intros path size' mtime' hash Hpath Hhash. rewrite cacheLookup_store.
    destruct (decide (MediaPath p = path)) as [<-|Hother]; [|by rewrite Hlookup].
    intros Hentry. replace size' with size in * by congruence.
    replace mtime' with mtime in * by congruence.
    rewrite (hashOutcome_entry _ _ _ _ _ Hentry Hhash) in Hout. congruence.
  - intros size' mtime' hash [= <- <-] Hhash Hnonempty.
    rewrite cacheLookup_store, decide_True by done. congruence.
Qed.

(** The same over the whole loop. *)
Lemma registryLoop_cache (pairs : list FilePair) (st st' : registryState) :
  registryLoop st pairs = Some st' ->
  (forall path size mtime, StatFile path = Some (size, mtime) ->
     hashOutcome (cache st') path size mtime = hashOutcome (cache st) path size mtime) /\
  (forall path size mtime hash, StatFile path = Some (size, mtime) -> hash <> "" ->
     cacheLookup (cache st) path = Some (mkCacheEntry size mtime hash) ->
     cacheLookup (cache st') path = Some (mkCacheEntry size mtime hash)) /\
  (forall p size mtime hash, p ∈ pairs -> StatFile (MediaPath p) = Some (size, mtime) ->
     hashOutcome (cache st) (MediaPath p) size mtime = (hash, false) -> hash <> "" ->
     cacheLookup (cache st') (MediaPath p) = Some (mkCacheEntry size mtime hash)).
Proof.
  revert st. induction pairs as [|p rest IH]; intros st; simpl.
  - intros [= <-]. split; [done|]. split; [done|].
    intros p size mtime hash Hp. by apply elem_of_nil in Hp.
  - destruct (registryStep st p) as [st1|] eqn:Hstep; [simpl|discriminate].
    intros Hloop. destruct (registryStep_cache st st1 p Hstep) as (Hout1 & Hkeep1 & Hrec1).
    destruct (IH st1 Hloop) as (Hout & Hkeep & Hrec).
    split; [|split].
    + intros path size mtime Hpath. by rewrite Hout, Hout1.
    + intros path size mtime hash Hpath Hhash Hentry.
      by apply Hkeep, Hkeep1.
    + intros q size mtime hash Hq Hpath Hfound Hhash.
      apply elem_of_cons in Hq as [->|Hq].
      * by apply Hkeep, Hrec1.
      * apply Hrec; [done..| |done]. by rewrite Hout1.
Qed.

(** An iteration run again with a cache that agrees on the hash of the
    pair, and already holds it, does to the registry what it did, and
    leaves that cache as it is. *)
Lemma registryStep_replay (st st' : registryState) (p : FilePair) (c : hashCache) :
  registryStep st p = Some st' ->
  (forall size mtime, StatFile (MediaPath p) = Some (size, mtime) ->
     hashOutcome c (MediaPath p) size mtime
     = hashOutcome (cache st) (MediaPath p) size mtime /\
     forall hash, hashOutcome (cache st) (MediaPath p) size mtime = (hash, false) ->
       hash <> "" -> cacheLookup c (MediaPath p) = Some (mkCacheEntry size mtime hash)) ->
  registryStep (mkState (registry st) (photoHeap st) c) p
  = Some (mkState (registry st') (photoHeap st') c).
Proof.
  unfold registryStep.
  destruct (StatFile (MediaPath p)) as [[size mtime]|]; [|by intros [= <-]].
  intros Hstep Hsame. destruct (Hsame size mtime eq_refl) as [Hout Hrec]. clear Hsame.
  revert Hstep. simpl.
  change (if String.eqb
               match cacheLookup (cache st) (MediaPath p) with
               | Some entry => _ | None => "" end "" then _ else _)
    with (hashOutcome (cache st) (MediaPath p) size mtime).
  change (if String.eqb
               match cacheLookup c (MediaPath p) with
               | Some entry => _ | None => "" end "" then _ else _)
    with (hashOutcome c (MediaPath p) size mtime).
  rewrite Hout. clear Hout.
  destruct (hashOutcome (cache st) (MediaPath p) size mtime) as [hash hashErr].
  specialize (Hrec hash).
  set (key := if hashErr then _ else hash).
  set (hash' := if hashErr then "" else hash).
  assert ((if hashErr then Some c
           else if negb (String.eqb hash' "")
           then cacheStore c (MediaPath p) (mkCacheEntry size mtime hash')
           else Some c) = Some c) as ->.
  { unfold hash'. destruct hashErr; [done|].
    destruct (String.eqb_spec hash ""); [done|]. simpl.
    by apply cacheStore_same, Hrec. }
  destruct (if hashErr then Some (cache st) else _) as [c1|]; [simpl|discriminate].
  destruct (match registry st !! key with Some l => _ | None => _ end) as [[l reg] hp].
  destruct (hp !! l) as [photo|]; [simpl|discriminate].
  destruct (if negb (String.eqb (Album p) "") then _ else Some photo) as [photo'|];
    [simpl|discriminate].
  by intros [= <-].
Qed.

Lemma registryLoop_replay (pairs : list FilePair) (st st' : registryState) :
  registryLoop st pairs = Some st' ->
  registryLoop (mkState (registry st) (photoHeap st) (cache st')) pairs = Some st'.
Proof.
  revert st. induction pairs as [|p rest IH]; intros st Hloop.
  - simpl in *. inversion Hloop; subst st'. by destruct st.
  - destruct (registryLoop_cache _ _ _ Hloop) as (Hout & _ & Hrec).
    simpl in *. destruct (registryStep st p) as [st1|] eqn:Hstep; [simpl in Hloop|discriminate].
    rewrite (registryStep_replay st st1 p (cache st') Hstep).
    + simpl. by apply (IH st1).
    + intros size mtime Hstat. split; [by apply Hout|].
      intros hash Hfound Hhash. apply (Hrec p); [apply list_elem_of_here|done..].
Qed.

(** X5. A second run that loads the cache the first run has left gives
    the registry and the photos of the first run again, and leaves the
    cache as it is. *)
Theorem BuildRegistry_rerun (pairs : list FilePair) (cachePath cachePath' : string)
    (st : registryState) :
  BuildRegistry pairs cachePath = Some st ->
  (LoadHashCache cachePath').1 = cache st ->
  BuildRegistry pairs cachePath' = Some st.
Proof.
  unfold BuildRegistry. destruct (LoadHashCache cachePath) as [c0 err0].
  destruct (LoadHashCache cachePath') as [c1 err1]. simpl. intros Hrun ->.
  apply (registryLoop_replay pairs _ st Hrun).
Qed.

End RegistryKeyProps.

(** ** A warm cache *)

Section WarmCacheProps.
Import Models Dedup RegistryKeys.
Variables E1 E2 : Dedup.Env.
Hypothesis same_read : forall path, @ReadFile E1 path = @ReadFile E2 path.
Hypothesis same_decode : forall data, @UnmarshalCache E1 data = @UnmarshalCache E2 data.
Hypothesis same_stat : forall path, @StatFile E1 path = @StatFile E2 path.

Lemma LoadHashCache_same (path : string) :
  @LoadHashCache E1 path = @LoadHashCache E2 path.
Proof.
  unfold LoadHashCache. rewrite same_read.
  destruct (String.eqb path ""); [done|].
  destruct (@ReadFile E2 path) as [data| |]; [|done..]. by rewrite same_decode.
Qed.

(** An iteration that finds the hash in the cache does not call
    [HashFile], and stores what the cache holds already. *)
Lemma registryStep_warm (st : registryState) (p : FilePair) :
  (forall size mtime, @StatFile E1 (MediaPath p) = Some (size, mtime) ->
     cachedHash (cache st) (MediaPath p) size mtime <> "") ->
  @registryStep E1 st p = @registryStep E2 st p /\
  forall st', @registryStep E1 st p = Some st' -> cache st' = cache st.
Proof.
  intros Hhit. split.
  - unfold registryStep. rewrite <- same_stat.
    destruct (@StatFile E1 (MediaPath p)) as [[size mtime]|]; [|done].
    specialize (Hhit size mtime eq_refl).
    fold (cachedHash (cache st) (MediaPath p) size mtime).
    by destruct (String.eqb_spec (cachedHash (cache st) (MediaPath p) size mtime) "").
  - intros st' Hstep.
    destruct (@StatFile E1 (MediaPath p)) as [[size mtime]|] eqn:Hstat.
    2:{ destruct (@registryStep_skip E1 st p Hstat) as [Hsame _]. congruence. }
    specialize (Hhit size mtime eq_refl).
    destruct (@registryStep_cases E1 st st' p size mtime Hstat Hstep)
      as (key & _ & _ & _ & _ & _ & _ & _ & Hcache).
    destruct Hcache as [[-> _] | (files & Hfiles & Hne & Hout & ->)]; [done|].
    pose proof (cachedHash_hit _ _ _ _ Hhit) as Hentry.
    rewrite (@hashOutcome_entry E1 _ _ _ _ _ Hentry Hhit) in Hout.
    injection Hout as Hkey. rewrite <- Hkey.
    unfold cacheLookup in Hentry. rewrite Hfiles in Hentry.
    rewrite insert_id by done. destruct (cache st). simpl in Hfiles. by rewrite Hfiles.
Qed.

Lemma registryLoop_warm (pairs : list FilePair) (st : registryState) :
  @cacheCovers E1 (cache st) pairs ->
  @registryLoop E1 st pairs = @registryLoop E2 st pairs /\
  forall st', @registryLoop E1 st pairs = Some st' -> cache st' = cache st.
Proof.
  revert st. induction pairs as [|p rest IH]; intros st Hcovers; simpl.
  - split; [done|]. by intros st' [= <-].
  - destruct (registryStep_warm st p) as [Hsame Hcache].
    { intros size mtime. apply Hcovers, list_elem_of_here. }
    rewrite <- Hsame. destruct (@registryStep E1 st p) as [st1|]; [simpl|done].
    specialize (Hcache st1 eq_refl). destruct (IH st1) as [Hloop Hcache'].
    { rewrite Hcache. intros q size mtime Hq. by apply Hcovers, list_elem_of_further. }
    split; [done|]. intros st' Hrun. rewrite <- Hcache. by apply Hcache'.
Qed.

(** X4. When the cache holds an entry that is up to date for every pair
    whose file is on disk, [BuildRegistry] hashes no file: its result
    is the same whatever [HashFile] would return, and the cache it ends
    with is the cache it loaded. *)
Theorem BuildRegistry_warm_cache (pairs : list FilePair) (cachePath : string) :
  @cacheCovers E1 (@LoadHashCache E1 cachePath).1 pairs ->
  @BuildRegistry E1 pairs cachePath = @BuildRegistry E2 pairs cachePath /\
  forall st, @BuildRegistry E1 pairs cachePath = Some st ->
    cache st = (@LoadHashCache E1 cachePath).1.
Proof.
  unfold BuildRegistry. rewrite <- LoadHashCache_same.
  destruct (@LoadHashCache E1 cachePath) as [c0 err]. simpl. intros Hcovers.
  apply (registryLoop_warm pairs (mkState ∅ ∅ c0) Hcovers).
Qed.

End WarmCacheProps.

Lemma BuildRegistry_one_photo_per_key_witness :
  let E := Dedup.sampleEnv Dedup.sampleDisk Dedup.ReadNotExist in
  exists st,
    @Dedup.BuildRegistry E RegistryKeys.samplePairs "" = Some st /\
    exists l ph,
      Dedup.registry st !! "9f86d081884c7d65" = Some l /\
      Dedup.photoHeap st !! l = Some ph /\
      RegistryKeys.registryKeyOf ph = "9f86d081884c7d65" /\
      forall a, Models.albumFlag (Models.Albums ph) a = true
                <-> @RegistryKeys.albumsOfKey E (@Dedup.LoadHashCache E "").1
                      RegistryKeys.samplePairs "9f86d081884c7d65" a.
Proof.
  intros E. eexists. split; [vm_compute; reflexivity|].
  apply (@BuildRegistry_one_photo_per_key E RegistryKeys.samplePairs "" _
           (Dedup.mkPair "/takeout/Misc/a.jpg" "" "Misc")).
  - vm_compute. reflexivity.
  - apply list_elem_of_here.
  - vm_compute. reflexivity.
Defined.

Lemma BuildRegistry_distinct_hashes_witness :
  let E := Dedup.sampleEnv RegistryKeys.sampleUnhashed Dedup.ReadNotExist in
  let pairs := [Dedup.mkPair "/takeout/Misc/a.jpg" "" "Misc";
                Dedup.mkPair "/takeout/Misc/b.jpg" "" "Misc"] in
  exists st ph1 ph2,
    @Dedup.BuildRegistry E pairs "" = Some st /\
    Dedup.photoHeap st !! 0%nat = Some ph1 /\
    Dedup.photoHeap st !! 1%nat = Some ph2 /\
    Models.Hash ph1 = "" /\
    (Models.HashError ph1 = true \/ Models.HashError ph2 = true).
Proof.
  intros E pairs. eexists. eexists. eexists.
  split; [vm_compute; reflexivity|].
  split; [vm_compute; reflexivity|].
  split; [vm_compute; reflexivity|].
  eapply (@BuildRegistry_distinct_hashes E pairs "" _ 0%nat 1%nat).
  - vm_compute. reflexivity.
  - vm_compute. reflexivity.
  - vm_compute. reflexivity.
  - lia.
  - vm_compute. reflexivity.
Defined.

Lemma BuildRegistry_returns_witness :
  is_Some (@Dedup.BuildRegistry (RegistryKeys.warmEnv (fun _ => None))
             RegistryKeys.samplePairs "/takeout/.gphotos/hash_cache.json").
Proof.
  apply (@BuildRegistry_returns (RegistryKeys.warmEnv (fun _ => None))). reflexivity.
Defined.

Lemma BuildRegistry_warm_cache_witness :
  let E1 := RegistryKeys.warmEnv (fun _ => None) in
  let E2 := RegistryKeys.warmEnv (fun _ => Some "0000000000000000") in
  @Dedup.BuildRegistry E1 RegistryKeys.samplePairs "/takeout/.gphotos/hash_cache.json"
  = @Dedup.BuildRegistry E2 RegistryKeys.samplePairs "/takeout/.gphotos/hash_cache.json"
  /\ forall st,
      @Dedup.BuildRegistry E1 RegistryKeys.samplePairs "/takeout/.gphotos/hash_cache.json"
      = Some st ->
      Dedup.cache st = (@Dedup.LoadHashCache E1 "/takeout/.gphotos/hash_cache.json").1.
Proof.
  intros E1 E2.
  apply (BuildRegistry_warm_cache E1 E2); [reflexivity..|].
  intros p size mtime Hp.
  repeat (apply elem_of_cons in Hp as [->|Hp]); [| | |by apply elem_of_nil in Hp].
  - vm_compute. intros [= <- <-]. discriminate.
  - vm_compute. discriminate.
  - vm_compute. intros [= <- <-]. discriminate.
Defined.

Lemma BuildRegistry_rerun_witness :
  let E := RegistryKeys.warmEnv
             (fun path => (list_to_map Dedup.sampleDisk : gmap string _) !! path ≫= snd) in
  exists st,
    @Dedup.BuildRegistry E RegistryKeys.samplePairs "" = Some st /\
    @Dedup.BuildRegistry E RegistryKeys.samplePairs "/takeout/.gphotos/hash_cache.json"
    = Some st.
Proof.
  intros E. eexists. split; [vm_compute; reflexivity|].
  apply (@BuildRegistry_rerun E RegistryKeys.samplePairs ""
           "/takeout/.gphotos/hash_cache.json").
  - vm_compute. reflexivity.
  - vm_compute. reflexivity.
Defined.

(** ** Go strings *)

Section StringFacts.
Import GoString FilePath.

Lemma length_append (s t : string) :
  String.length (s ++ t) = (String.length s + String.length t)%nat.
Proof. induction s as [|c s IH]; simpl; [done|]. by rewrite IH. Qed.

Lemma drop_append (s t : string) (k : nat) :
  drop (String.length s + k) (s ++ t) = drop k t.
Proof. induction s as [|c s IH]; simpl; [done|]. exact IH. Qed.

Lemma take_append (s t : string) : take (String.length s) (s ++ t) = s.
Proof. induction s as [|c s IH]; simpl; [by destruct t|]. by rewrite IH. Qed.

Lemma take_drop (n : nat) (s : string) : take n s ++ drop n s = s.
Proof.
  revert s. induction n as [|n IH]; intros [|c s]; simpl; try done.
  change (String c (take n s ++ drop n s) = String c s). by rewrite IH.
Qed.

Lemma length_drop (n : nat) (s : string) :
  String.length (drop n s) = (String.length s - n)%nat.
Proof. revert s. induction n as [|n IH]; intros [|c s]; simpl; try done. Qed.

Lemma length_take (n : nat) (s : string) :
  (n <= String.length s)%nat -> String.length (take n s) = n.
Proof.
  revert s. induction n as [|n IH]; intros [|c s]; simpl; try done; try lia.
  intros Hn. rewrite IH; lia.
Qed.

Lemma HasSuffix_append (s suf : string) : HasSuffix (s ++ suf) suf = true.
Proof.
  unfold HasSuffix. rewrite length_append.
  replace (String.length s + String.length suf - String.length suf)%nat
    with (String.length s + 0)%nat by lia.
  rewrite drop_append. simpl. rewrite String.eqb_refl.
  apply andb_true_intro. split; [|done]. apply Nat.leb_le. lia.
Qed.

Lemma HasSuffix_inv (s suf : string) :
  HasSuffix s suf = true -> exists pre, s = pre ++ suf.
Proof.
  unfold HasSuffix. intros [Hlen Heq]%andb_prop. apply String.eqb_eq in Heq.
  set (k := (String.length s - String.length suf)%nat) in *.
  exists (take k s). rewrite <- Heq. by rewrite take_drop.
Qed.

(** On a string that ends with [t], a suffix no longer than [t] is a
    suffix of [t]. *)
Lemma HasSuffix_short (s t suf : string) :
  (String.length suf <= String.length t)%nat ->
  HasSuffix (s ++ t) suf = HasSuffix t suf.
Proof.
  intros Hlen. unfold HasSuffix. rewrite length_append.
  replace (String.length s + String.length t - String.length suf)%nat
    with (String.length s + (String.length t - String.length suf))%nat by lia.
  rewrite drop_append. f_equal.
  transitivity true; [|symmetry]; apply Nat.leb_le; lia.
Qed.

Lemma TrimSuffix_append (s suf : string) : TrimSuffix (s ++ suf) suf = s.
Proof.
  unfold TrimSuffix. rewrite HasSuffix_append, length_append.
  replace (String.length s + String.length suf - String.length suf)%nat
    with (String.length s) by lia.
  apply take_append.
Qed.

Lemma extScan_append (s t r : string) : extScan t = Some r -> extScan (s ++ t) = Some r.
Proof. intros Ht. induction s as [|c s IH]; simpl; [done|]. by rewrite IH. Qed.

(** The extension of a name that ends with an extension. *)
Lemma Ext_append (s ext : string) : extScan ext = Some ext -> Ext (s ++ ext) = ext.
Proof. intros Hext. unfold Ext. by rewrite (extScan_append s ext ext Hext). Qed.

Lemma hasByte_append (c : ascii) (s t : string) :
  hasByte c (s ++ t) = hasByte c s || hasByte c t.
Proof. induction s as [|d s IH]; simpl; [done|]. by rewrite IH, orb_assoc. Qed.

End StringFacts.

(** ** File kinds, extensions and destination names *)

Section KindProps.
Import GoString FilePath Models MetadataWriter OutputLayout Sidecars.

(** X6. Every file the scanner takes for a media file has an extension
    the metadata writer supports; the writer also supports [.heif],
    which the scanner never takes. *)
Theorem isMediaFile_supported :
  (forall lowerPath, isMediaFile lowerPath = true -> supported (Ext lowerPath) = true)
  /\ supported ".heif" = true
  /\ forall name, isMediaFile (name ++ ".heif") = false.
Proof.
  split; [|split; [reflexivity|]].
  - intros lowerPath. unfold isMediaFile. rewrite !orb_true_iff.
    intros Hsuffix.
    repeat match goal with H : _ \/ _ |- _ => destruct H as [H|H] end;
      apply HasSuffix_inv in Hsuffix as [pre ->];
      by rewrite Ext_append.
  - intros name. unfold isMediaFile.
    rewrite !HasSuffix_short by (simpl; lia). reflexivity.
Qed.

Section WithFiles.
Variable readHead : string -> option string.
Variable ToLower : string -> string.

Lemma sniffFileKind_kinds (path kind : string) :
  sniffFileKind readHead path = (kind, true) ->
  kind = "jpeg" \/ kind = "png" \/ kind = "heic" \/ kind = "webp".
Proof.
  unfold sniffFileKind. destruct (readHead path) as [buf|]; [|done].
  repeat match goal with
         | |- context [if ?b then _ else _] => destruct b
         end; intros [= <-]; auto.
Qed.

(** X7. Whenever the kind of a file is detected, the kind has a
    preferred extension, the writer supports it, and the file passes
    [matchesExtension] for it. *)
Theorem DetectFileKind_preferred (path kind : string) :
  DetectFileKind readHead path = (kind, true) ->
  PreferredExtension kind <> ""
  /\ supported (PreferredExtension kind) = true
  /\ matchesExtension readHead path (PreferredExtension kind) = true.
Proof.
  intros Hkind. unfold matchesExtension. rewrite Hkind.
  apply sniffFileKind_kinds in Hkind as [-> | [-> | [-> | ->]]]; by vm_compute.
Qed.

Lemma PreferredExtension_ext (kind : string) :
  PreferredExtension kind <> "" -> extScan (PreferredExtension kind) = Some (PreferredExtension kind).
Proof.
  unfold PreferredExtension.
  repeat match goal with
         | |- context [if ?b then _ else _] => destruct b
         end; done.
Qed.

(** X8. The name under which a photo is copied carries, in lower case,
    the preferred extension of the kind that was detected, and the
    source file passes [matchesExtension] for that extension; when no
    kind is detected the name is the base name of the source. *)
Theorem dstBase_extension (p : Photo) :
  (forall kind, ToLower (PreferredExtension kind) = PreferredExtension kind) ->
  let kind := DetectFileKind readHead (SrcPath p) in
  let name := dstBase ToLower (DetectFileKind readHead) p in
  (kind.2 = false -> name = Base (SrcPath p))
  /\ (kind.2 = true ->
        ToLower (Ext name) = PreferredExtension kind.1
        /\ matchesExtension readHead (SrcPath p) (ToLower (Ext name)) = true).
Proof.
  intros Hlower kind name. unfold name, dstBase. unfold kind.
  destruct (DetectFileKind readHead (SrcPath p)) as [k ok] eqn:Hkind. simpl.
  split; [by intros ->|]. intros ->.
  destruct (DetectFileKind_preferred _ _ Hkind) as (Hpref & _ & Hmatch).
  assert (ToLower (Ext (if negb (String.eqb (PreferredExtension k) "")
                           && negb (String.eqb (PreferredExtension k)
                                      (ToLower (Ext (Base (SrcPath p)))))
                        then TrimSuffix (Base (SrcPath p)) (ToLower (Ext (Base (SrcPath p))))
                             ++ PreferredExtension k
                        else Base (SrcPath p))) = PreferredExtension k) as ->; [|done].
  destruct (String.eqb_spec (PreferredExtension k) ""); [done|]. simpl.
  destruct (String.eqb_spec (PreferredExtension k) (ToLower (Ext (Base (SrcPath p)))))
    as [Hsame|Hdiff]; simpl; [done|].
  rewrite Ext_append; [apply Hlower|by apply PreferredExtension_ext].
Qed.

End WithFiles.

Lemma replaceByte_length (old new : ascii) (s : string) :
  String.length (replaceByte old new s) = String.length s.
Proof. induction s as [|c s IH]; simpl; [done|]. by rewrite IH. Qed.

Lemma replaceByte_free (old new : ascii) (s : string) :
  new <> old -> hasByte old (replaceByte old new s) = false.
Proof.
  intros Hne. induction s as [|c s IH]; simpl; [done|]. rewrite IH, orb_false_r.
  destruct (Ascii.eqb_spec c old) as [->|Hc].
  - destruct (Ascii.eqb_spec old new); congruence.
  - destruct (Ascii.eqb_spec old c); congruence.
Qed.

(** X9. The folder name of an album is never empty and never contains
    a path separator; it has the length of the trimmed album name, and
    is [Untitled] in place of a name that trims to nothing. *)
Theorem sanitizeFolder_element (TrimSpace : string -> string) (name : string) :
  let folder := sanitizeFolder TrimSpace name in
  folder <> ""
  /\ hasByte Separator folder = false
  /\ (TrimSpace name = "" -> folder = "Untitled")
  /\ (TrimSpace name <> "" ->
        String.length folder = String.length (TrimSpace name)).
Proof.
  unfold sanitizeFolder. cbv zeta.
  pose proof (replaceByte_length Separator "_" (TrimSpace name)) as Hlen.
  pose proof (replaceByte_free Separator "_" (TrimSpace name)) as Hfree.
  destruct (String.eqb_spec (replaceByte Separator "_" (TrimSpace name)) "") as [Hempty|Hfull].
  - rewrite Hempty in Hlen. split; [done|]. split; [reflexivity|]. split; [done|].
    intros Hname. destruct (TrimSpace name); [done|discriminate].
  - split; [done|]. split; [by apply Hfree|]. split; [|done].
    intros Hname. rewrite Hname in Hfull. done.
Qed.

(** X10. The origin label is empty exactly when the origin says
    nothing, and starts with [gphotos:] otherwise. *)
Theorem buildOriginLabel_empty (origin : GooglePhotosOrigin) :
  (buildOriginLabel origin = ""
   <-> FromSharedAlbum origin = false /\ WebUpload origin = false
       /\ MobileUpload origin = false /\ MobileUploadDeviceType origin = ""
       /\ MobileUploadDeviceFolder origin = "" /\ CompositionType origin = "")
  /\ (buildOriginLabel origin <> "" -> HasPrefix (buildOriginLabel origin) "gphotos:" = true).
Proof.
  destruct origin as [shared web mobile type folder composition].
  unfold buildOriginLabel. simpl.
  destruct (String.eqb_spec composition ""), (String.eqb_spec type ""),
    (String.eqb_spec folder ""), shared, web, mobile; simpl;
    (split; [split; [try discriminate; by intros | by intros (? & ? & ? & ? & ? & ?)] | done]).
Qed.

End KindProps.

Lemma DetectFileKind_preferred_witness :
  MetadataWriter.PreferredExtension "jpeg" <> ""
  /\ MetadataWriter.supported (MetadataWriter.PreferredExtension "jpeg") = true
  /\ MetadataWriter.matchesExtension (fun _ => Some MetadataWriter.jpegHead)
       "/takeout/Trip/IMG_0001.PNG" (MetadataWriter.PreferredExtension "jpeg") = true.
Proof.
  apply (DetectFileKind_preferred (fun _ => Some MetadataWriter.jpegHead)
           "/takeout/Trip/IMG_0001.PNG" "jpeg").
  vm_compute. reflexivity.
Defined.

Lemma dstBase_extension_witness :
  let readHead := fun _ : string => Some MetadataWriter.jpegHead in
  let p := Models.mkPhoto "" false "/takeout/Trip/IMG_0001.PNG" "" Models.emptyMeta
             (Some ∅) "" 0 0 in
  let kind := MetadataWriter.DetectFileKind readHead (Models.SrcPath p) in
  let name := OutputLayout.dstBase GoString.asciiLower
                (MetadataWriter.DetectFileKind readHead) p in
  (kind.2 = false -> name = FilePath.Base (Models.SrcPath p))
  /\ (kind.2 = true ->
        GoString.asciiLower (FilePath.Ext name) = MetadataWriter.PreferredExtension kind.1
        /\ MetadataWriter.matchesExtension readHead (Models.SrcPath p)
             (GoString.asciiLower (FilePath.Ext name)) = true).
Proof.
  intros readHead p.
  apply (dstBase_extension readHead GoString.asciiLower p).
  intros kind. unfold MetadataWriter.PreferredExtension.
  repeat match goal with
         | |- context [if ?b then _ else _] => destruct b
         end; reflexivity.
Defined.

(** ** Sidecars *)

Section SidecarProps.
Import GoString FilePath Scanner Dedup Sidecars.
Variable ToLower : string -> string.
Variable TrimSpace : string -> string.
Variable Dir : string -> string.
Variable Rel : string -> string -> string.
Variable QuoteMeta : string -> string.
Variable MatchString : string -> string -> bool.
Variable ReplaceAllString : string -> string -> string -> string.
Variable ReadFile : string -> option string.
Variable UnmarshalTitle : string -> option string.
Variable WalkDir : string -> list walkEntry.
Local Open Scope list_scope.

Local Abbreviation matchesMetadataName := (Sidecars.matchesMetadataName QuoteMeta MatchString).
Local Abbreviation stripTrailingIndex := (Sidecars.stripTrailingIndex ReplaceAllString).
Local Abbreviation normalizeJSONKey := (Sidecars.normalizeJSONKey ToLower ReplaceAllString).
Local Abbreviation dedupeLoop := (Sidecars.dedupeLoop TrimSpace).
Local Abbreviation dedupeKeys := (Sidecars.dedupeKeys TrimSpace).
Local Abbreviation mediaKeys := (Sidecars.mediaKeys TrimSpace ReplaceAllString).
Local Abbreviation pickLoop := (Sidecars.pickLoop QuoteMeta MatchString).
Local Abbreviation pickCandidate := (Sidecars.pickCandidate QuoteMeta MatchString).
Local Abbreviation siblingLoop := (Sidecars.siblingLoop QuoteMeta MatchString).
Local Abbreviation pickLivePhotoSiblingJSON :=
  (Sidecars.pickLivePhotoSiblingJSON ToLower QuoteMeta MatchString).
Local Abbreviation keysLoop := (Sidecars.keysLoop QuoteMeta MatchString).
Local Abbreviation pickPrefixCandidate := (Scanner.pickPrefixCandidate ToLower Dir).
Local Abbreviation resolveJSONPath :=
  (Sidecars.resolveJSONPath ToLower TrimSpace Dir QuoteMeta MatchString ReplaceAllString).
Local Abbreviation visit :=
  (Sidecars.visit ToLower TrimSpace Dir Rel ReplaceAllString ReadFile UnmarshalTitle).
Local Abbreviation walk :=
  (Sidecars.walk ToLower TrimSpace Dir Rel ReplaceAllString ReadFile UnmarshalTitle).
Local Abbreviation ScanTakeout :=
  (Sidecars.ScanTakeout ToLower TrimSpace Dir Rel QuoteMeta MatchString ReplaceAllString
     ReadFile UnmarshalTitle WalkDir).
Local Abbreviation isMediaEntry := (Sidecars.isMediaEntry ToLower).
Local Abbreviation isSidecarEntry := (Sidecars.isSidecarEntry ToLower).
Local Abbreviation sidecarOf := (Sidecars.sidecarOf ToLower).
Local Abbreviation scanInv := (Sidecars.scanInv ToLower Rel).

Lemma dedupeLoop_spec (keys : list string) : forall (seen : gset string) (out : list string),
  NoDup out ->
  (forall k, k ∈ seen <-> k ∈ out) ->
  NoDup (dedupeLoop keys seen out)
  /\ (forall k, k ∈ dedupeLoop keys seen out
        <-> k ∈ out \/ (k <> ""%string /\ exists k0, k0 ∈ keys /\ TrimSpace k0 = k))
  /\ (length (dedupeLoop keys seen out) <= length out + length keys)%nat.
Proof.
  induction keys as [|k0 rest IH]; intros seen out Hnodup Hseen; simpl.
  - split; [done|]. split; [|lia]. intros k. split; [by left|].
    intros [Hk | (_ & k0 & Hk0 & _)]; [done|]. by apply elem_of_nil in Hk0.
  - destruct (String.eqb_spec (TrimSpace k0) "") as [Hempty|Hfull]; simpl.
    { destruct (IH seen out Hnodup Hseen) as (Hnd & Hmem & Hlen).
      split; [done|]. split; [|lia]. intros k. rewrite Hmem. split.
      - intros [Hk | (Hne & k1 & Hk1 & Htrim)]; [by left|].
        right. split; [done|]. exists k1. split; [by apply list_elem_of_further|done].
      - intros [Hk | (Hne & k1 & Hk1 & Htrim)]; [by left|].
        apply elem_of_cons in Hk1 as [->|Hk1]; [congruence|].
        right. split; [done|]. by exists k1. }
    case_bool_decide as Hin.
    { destruct (IH seen out Hnodup Hseen) as (Hnd & Hmem & Hlen).
      split; [done|]. split; [|lia]. intros k. rewrite Hmem. split.
      - intros [Hk | (Hne & k1 & Hk1 & Htrim)]; [by left|].
        right. split; [done|]. exists k1. split; [by apply list_elem_of_further|done].
      - intros [Hk | (Hne & k1 & Hk1 & Htrim)]; [by left|].
        apply elem_of_cons in Hk1 as [->|Hk1].
        + left. rewrite <- Htrim. by apply Hseen.
        + right. split; [done|]. by exists k1. }
    destruct (IH ({[TrimSpace k0]} ∪ seen) (out ++ [TrimSpace k0])) as (Hnd & Hmem & Hlen).
    { apply NoDup_app. split; [done|]. split; [|apply NoDup_singleton].
      intros k Hk Hk'. apply list_elem_of_singleton in Hk' as ->. by apply Hin, Hseen. }
    { intros k. rewrite elem_of_union, elem_of_singleton, elem_of_app,
        list_elem_of_singleton, Hseen. prop_only tauto. }
    split; [done|]. split; [|rewrite length_app in Hlen; simpl in Hlen; lia].
    intros k. rewrite Hmem, elem_of_app, list_elem_of_singleton. split.
    + intros [[Hk | ->] | (Hne & k1 & Hk1 & Htrim)]; [by left| |].
      * right. split; [done|]. exists k0. split; [apply list_elem_of_here|done].
      * right. split; [done|]. exists k1. split; [by apply list_elem_of_further|done].
    + intros [Hk | (Hne & k1 & Hk1 & Htrim)]; [by left; left|].
      apply elem_of_cons in Hk1 as [->|Hk1]; [by left; right|].
      right. split; [done|]. by exists k1.
Qed.

(** X11. [dedupeKeys] returns the trimmed, non-empty keys, each once;
    the keys of a media file are at most four, distinct and non-empty. *)
Theorem dedupeKeys_distinct :
  (forall keys,
     NoDup (dedupeKeys keys)
     /\ (forall k, k ∈ dedupeKeys keys
           <-> k <> ""%string /\ exists k0, k0 ∈ keys /\ TrimSpace k0 = k)
     /\ (length (dedupeKeys keys) <= length keys)%nat)
  /\ (forall base,
        NoDup (mediaKeys base) /\ (""%string ∉ mediaKeys base)
        /\ (length (mediaKeys base) <= 4)%nat).
Proof.
  assert (forall keys,
     NoDup (dedupeKeys keys)
     /\ (forall k, k ∈ dedupeKeys keys
           <-> k <> ""%string /\ exists k0, k0 ∈ keys /\ TrimSpace k0 = k)
     /\ (length (dedupeKeys keys) <= length keys)%nat) as Hkeys.
  { intros keys. unfold Sidecars.dedupeKeys.
    destruct (dedupeLoop_spec keys ∅ []) as (Hnd & Hmem & Hlen);
      [apply NoDup_nil_2|intros k; by rewrite elem_of_nil, elem_of_empty|].
    split; [done|]. split; [|simpl in Hlen; lia].
    intros k. rewrite Hmem, elem_of_nil. prop_only tauto. }
  split; [done|]. intros base. unfold Sidecars.mediaKeys.
  destruct (String.eqb base ""); [split; [apply NoDup_nil_2|]; split; [apply not_elem_of_nil|simpl; lia]|].
  cbv zeta. simpl.
  match goal with |- context [dedupeKeys ?keys] => destruct (Hkeys keys) as (Hnd & Hmem & Hlen) end.
  split; [done|]. split; [|simpl in Hlen; lia].
  rewrite Hmem. by intros [? _].
Qed.

Lemma pickLoop_spec (candidates : list string) (base : string) :
  match pickLoop candidates base with
  | Some c =>
      exists i : nat, candidates !! i = Some c /\ matchesMetadataName (Base c) base = true /\
        forall (j : nat) c', (j < i)%nat -> candidates !! j = Some c' ->
          matchesMetadataName (Base c') base = false
  | None => forall c, c ∈ candidates -> matchesMetadataName (Base c) base = false
  end.
Proof.
  induction candidates as [|c rest IH]; simpl.
  - intros c Hc. by apply elem_of_nil in Hc.
  - destruct (matchesMetadataName (Base c) base) eqn:Hmatch.
    + exists 0%nat. split; [done|]. split; [done|]. intros j c' Hj. lia.
    + destruct (pickLoop rest base) as [found|].
      * destruct IH as (i & Hi & Hfound & Hfirst). exists (S i).
        split; [done|]. split; [done|]. intros [|j] c' Hj; simpl.
        -- by intros [= <-].
        -- apply Hfirst. lia.
      * intros c' [->|Hc']%elem_of_cons; [done|by apply IH].
Qed.

(** X12. [pickCandidate] returns the empty string for no candidate and
    the candidate itself for a single one, whatever its name; among two
    or more it returns the first whose file name is a metadata name of
    [base], and the first candidate when there is none. *)
Theorem pickCandidate_choice (candidates : list string) (base : string) :
  (candidates = [] -> pickCandidate candidates base = ""%string)
  /\ (forall c, candidates = [c] -> pickCandidate candidates base = c)
  /\ ((2 <= length candidates)%nat ->
        (exists (i : nat) c, candidates !! i = Some c /\ pickCandidate candidates base = c /\
           matchesMetadataName (Base c) base = true /\
           forall (j : nat) c', (j < i)%nat -> candidates !! j = Some c' ->
             matchesMetadataName (Base c') base = false)
        \/ (head candidates = Some (pickCandidate candidates base) /\
            forall c, c ∈ candidates -> matchesMetadataName (Base c) base = false)).
Proof.
  split; [by intros ->|]. split; [by intros c ->|].
  intros Hlen. unfold Sidecars.pickCandidate.
  destruct candidates as [|c0 [|c1 rest]]; simpl in Hlen; [lia..|].
  change (length (c0 :: c1 :: rest) =? 0)%nat with false.
  change (length (c0 :: c1 :: rest) =? 1)%nat with false. cbv iota.
  pose proof (pickLoop_spec (c0 :: c1 :: rest) base) as Hloop.
  destruct (pickLoop (c0 :: c1 :: rest) base) as [c|].
  - left. destruct Hloop as (i & Hi & Hmatch & Hfirst). by exists i, c.
  - right. done.
Qed.

Lemma pickCandidate_member (candidates : list string) (base : string) :
  pickCandidate candidates base <> ""%string ->
  pickCandidate candidates base ∈ candidates.
Proof.
  unfold Sidecars.pickCandidate. destruct candidates as [|c0 [|c1 rest]]; [done| |].
  - intros _. apply list_elem_of_here.
  - intros _. change (length (c0 :: c1 :: rest) =? 0)%nat with false.
    change (length (c0 :: c1 :: rest) =? 1)%nat with false. cbv iota.
    pose proof (pickLoop_spec (c0 :: c1 :: rest) base) as Hloop.
    destruct (pickLoop (c0 :: c1 :: rest) base) as [c|].
    + destruct Hloop as (i & Hi & _). by eapply list_elem_of_lookup_2.
    + apply list_elem_of_here.
Qed.

Lemma siblingLoop_member (exts : list string) (baseNoExt : string)
    (byTitle : gmap string (list string)) :
  siblingLoop exts baseNoExt byTitle <> ""%string ->
  exists key, siblingLoop exts baseNoExt byTitle ∈ slot byTitle key.
Proof.
  induction exts as [|e rest IH]; simpl; [done|].
  destruct (String.eqb_spec
              (pickCandidate (slot byTitle (baseNoExt ++ e)%string) (baseNoExt ++ e)%string) "")
    as [Hnone|Hfound]; simpl; [done|].
  intros _. exists (baseNoExt ++ e)%string. by apply pickCandidate_member.
Qed.

Lemma keysLoop_member (keys : list string) (byKey : gmap string (list string))
    (base : string) :
  keysLoop keys byKey base <> ""%string ->
  exists key, keysLoop keys byKey base ∈ slot byKey key.
Proof.
  induction keys as [|key rest IH]; simpl; [done|].
  destruct (String.eqb_spec (pickCandidate (slot byKey key) base) "")
    as [Hnone|Hfound]; simpl; [done|].
  intros _. exists key. by apply pickCandidate_member.
Qed.

Lemma prefixLoop_member (ext baseNoExt : string) (entries : list jsonTitleEntry) :
  forall state,
    fst (prefixLoop ToLower ext baseNoExt entries state) = fst state
    \/ exists e, e ∈ entries /\ Path e = fst (prefixLoop ToLower ext baseNoExt entries state).
Proof.
  induction entries as [|e rest IH]; intros state; simpl; [by left|].
  assert (forall state',
            fst state' = fst state \/ fst state' = Path e ->
            fst (prefixLoop ToLower ext baseNoExt rest state') = fst state
            \/ exists e', e' ∈ e :: rest /\
                 Path e' = fst (prefixLoop ToLower ext baseNoExt rest state')) as Hnext.
  { intros state' Hstate'. destruct (IH state') as [Hsame | (e' & He' & Hpath)].
    - rewrite Hsame. destruct Hstate' as [|Hnew]; [by left|].
      right. exists e. split; [apply list_elem_of_here|done].
    - right. exists e'. split; [by apply list_elem_of_further|done]. }
  repeat match goal with
         | |- context [if ?b then _ else _] => destruct b
         end; apply Hnext; auto.
Qed.

(** X13. [resolveJSONPath] makes no path up: what it returns is empty,
    or stands in one of the four indexes it was given (for the folder
    index, in the folder of the media file). *)
Theorem resolveJSONPath_indexed (mediaPath : string)
    (byTitle byKey : gmap string (list string))
    (byDir : gmap string (list jsonTitleEntry)) (byNorm : gmap string (list string)) :
  let path := resolveJSONPath mediaPath byTitle byKey byDir byNorm in
  path = ""%string
  \/ (exists key, path ∈ slot byTitle key)
  \/ (exists key, path ∈ slot byKey key)
  \/ (exists entry, entry ∈ slot byDir (Dir mediaPath) /\ Path entry = path)
  \/ (exists key, path ∈ slot byNorm key).
Proof.
  unfold Sidecars.resolveJSONPath. cbv zeta.
  destruct (String.eqb (ToLower (Ext (Base mediaPath))) ".mp");
    repeat match goal with
           | |- context [negb (String.eqb (Sidecars.pickCandidate ?q ?m ?cs ?b) "")] =>
               destruct (String.eqb_spec (Sidecars.pickCandidate q m cs b) ""); cbn [negb]
           | |- context [negb (String.eqb (Sidecars.pickLivePhotoSiblingJSON ?l ?q ?m ?p ?t) "")] =>
               destruct (String.eqb_spec (Sidecars.pickLivePhotoSiblingJSON l q m p t) "");
               cbn [negb]
           | |- context [negb (String.eqb (Sidecars.keysLoop ?q ?m ?ks ?k ?b) "")] =>
               destruct (String.eqb_spec (Sidecars.keysLoop q m ks k b) ""); cbn [negb]
           | |- context [negb (String.eqb (Scanner.pickPrefixCandidate ?l ?d ?p ?e) "")] =>
               destruct (String.eqb_spec (Scanner.pickPrefixCandidate l d p e) ""); cbn [negb]
           | |- context [negb (String.eqb (Sidecars.normalizeBaseForMatch ?l ?t ?r ?b) "")] =>
               destruct (String.eqb_spec (Sidecars.normalizeBaseForMatch l t r b) ""); cbn [negb]
           | |- context [String.eqb "" ""] => change (String.eqb "" "") with true; cbn [negb]
           end;
    lazymatch goal with
    | |- ""%string = ""%string \/ _ => by left
    | |- Sidecars.pickCandidate _ _ (slot byTitle ?key) _ = _ \/ _ =>
        right; left; exists key; by apply pickCandidate_member
    | |- Sidecars.pickCandidate _ _ (slot byNorm ?key) _ = _ \/ _ =>
        right; right; right; right; exists key; by apply pickCandidate_member
    | |- Sidecars.pickLivePhotoSiblingJSON _ _ _ _ _ = _ \/ _ =>
        right; left; unfold Sidecars.pickLivePhotoSiblingJSON in *;
        destruct (_ && _); [done|]; by apply siblingLoop_member
    | |- Sidecars.keysLoop _ _ _ _ _ = _ \/ _ =>
        right; right; left; by apply keysLoop_member
    | |- Scanner.pickPrefixCandidate _ _ _ _ = _ \/ _ =>
        right; right; right; left; unfold Scanner.pickPrefixCandidate in *;
        destruct (_ =? _)%nat; [done|];
        match goal with
        | |- context [prefixLoop ToLower ?ext ?b ?entries ?st] =>
            destruct (prefixLoop_member ext b entries st) as [Hsame | (w & Hw & Hpath')];
              [simpl in Hsame; congruence | by exists w]
        end
    end.
Qed.

Lemma slot_push {A} (m : gmap string (list A)) (key key' : string) (x y : A) :
  y ∈ slot (push m key x) key' -> y ∈ slot m key' \/ y = x.
Proof.
  unfold push, slot at 1. rewrite lookup_insert. case_decide as Hkey; simpl.
  - subst. rewrite elem_of_app, list_elem_of_singleton. prop_only tauto.
  - by left.
Qed.

(** What the callback does with one entry: a media file is added to the
    list, and nothing but the path of a sidecar is added to an index. *)
Lemma visit_cases (root : string) (st st' : scanState) (e : walkEntry) :
  visit root st e = Some st' ->
  media st' = media st ++ (if isMediaEntry e
                           then [mkPair (walkPath e) "" (detectAlbum Rel root (walkPath e))]
                           else [])
  /\ (forall key path, path ∈ slot (jsonByTitle st') key ->
        path ∈ slot (jsonByTitle st) key \/ (path = walkPath e /\ isSidecarEntry e = true))
  /\ (forall key path, path ∈ slot (jsonByKey st') key ->
        path ∈ slot (jsonByKey st) key \/ (path = walkPath e /\ isSidecarEntry e = true))
  /\ (forall dir entry, entry ∈ slot (jsonByDir st') dir ->
        entry ∈ slot (jsonByDir st) dir
        \/ (Path entry = walkPath e /\ isSidecarEntry e = true))
  /\ (forall key path, path ∈ slot (jsonByNorm st') key ->
        path ∈ slot (jsonByNorm st) key \/ (path = walkPath e /\ isSidecarEntry e = true)).
Proof.
  unfold Sidecars.visit, Sidecars.isMediaEntry, Sidecars.isSidecarEntry.
  destruct (walkErr e); [intros [= <-]; simpl; rewrite app_nil_r; by auto 6|].
  destruct (walkIsDir e); [intros [= <-]; simpl; rewrite app_nil_r; by auto 6|].
  cbv zeta. simpl negb. simpl andb.
  destruct (HasSuffix (ToLower (walkPath e)) ".json"); simpl negb; simpl andb.
  2:{ destruct (isMediaFile (ToLower (walkPath e))); intros [= <-]; simpl;
        [|rewrite app_nil_r]; by auto 6. }
  destruct (String.eqb (Base (walkPath e)) "metadata.json"); simpl negb;
    [intros [= <-]; simpl; rewrite app_nil_r; by auto 6|].
  set (st1 := match Sidecars.extractJSONTitle ReadFile UnmarshalTitle (walkPath e) with
              | (title, true) => _
              | (_, false) => st
              end).
  assert (media st1 = media st
          /\ (forall key path, path ∈ slot (jsonByTitle st1) key ->
                path ∈ slot (jsonByTitle st) key \/ path = walkPath e)
          /\ jsonByKey st1 = jsonByKey st
          /\ (forall dir entry, entry ∈ slot (jsonByDir st1) dir ->
                entry ∈ slot (jsonByDir st) dir \/ Path entry = walkPath e)
          /\ (forall key path, path ∈ slot (jsonByNorm st1) key ->
                path ∈ slot (jsonByNorm st) key \/ path = walkPath e))
    as (Hmedia & Htitle & Hkey & Hdir & Hnorm).
  { unfold st1. destruct (Sidecars.extractJSONTitle _ _ _) as [title [|]]; [|by auto 6].
    destruct (negb (String.eqb title "")); [simpl|by auto 6].
    split; [done|]. split; [intros key path; apply slot_push|]. split; [done|].
    split.
    - intros dir entry [Hold | ->]%slot_push; [by left|by right].
    - destruct (negb (String.eqb _ "")); [intros key path; apply slot_push|by auto]. }
  clearbody st1.
  destruct (normalizeJSONKey (Base (walkPath e))) as [key|]; [simpl|discriminate].
  intros [= <-]. rewrite app_nil_r.
  destruct (negb (String.eqb key "")); simpl.
  - split; [done|]. split; [intros k path Hp; destruct (Htitle k path Hp); auto|].
    split; [intros k path [Hold | ->]%slot_push; [left; by rewrite <- Hkey|by right]|].
    split; [intros d entry Hd; destruct (Hdir d entry Hd); auto|].
    intros k path Hp; destruct (Hnorm k path Hp); auto.
  - split; [done|]. split; [intros k path Hp; destruct (Htitle k path Hp); auto|].
    split; [intros k path Hp; left; by rewrite <- Hkey|].
    split; [intros d entry Hd; destruct (Hdir d entry Hd); auto|].
    intros k path Hp; destruct (Hnorm k path Hp); auto.
Qed.

Lemma sidecarOf_snoc (seen : list walkEntry) (e : walkEntry) (path : string) :
  sidecarOf seen path \/ (path = walkPath e /\ isSidecarEntry e = true) ->
  sidecarOf (seen ++ [e]) path.
Proof.
  intros [(w & Hw & Hpath & Hside) | [-> Hside]].
  - exists w. rewrite elem_of_app. auto.
  - exists e. rewrite elem_of_app, list_elem_of_singleton. auto.
Qed.

Lemma visit_inv (root : string) (seen : list walkEntry) (st st' : scanState)
    (e : walkEntry) :
  scanInv root seen st ->
  visit root st e = Some st' ->
  scanInv root (seen ++ [e]) st'.
Proof.
  intros (Hmedia & Htitle & Hkey & Hdir & Hnorm) Hvisit.
  destruct (visit_cases root st st' e Hvisit) as (Hmedia' & Htitle' & Hkey' & Hdir' & Hnorm').
  split; [|split; [|split; [|split]]].
  - rewrite Hmedia', Hmedia, filter_app, fmap_app. f_equal.
    rewrite filter_cons, filter_nil.
    destruct (isMediaEntry e); by case_decide.
  - intros key path Hp. apply sidecarOf_snoc.
    destruct (Htitle' key path Hp) as [Hold|Hnew]; [left; by eapply Htitle|by right].
  - intros key path Hp. apply sidecarOf_snoc.
    destruct (Hkey' key path Hp) as [Hold|Hnew]; [left; by eapply Hkey|by right].
  - intros dir entry Hp. apply sidecarOf_snoc.
    destruct (Hdir' dir entry Hp) as [Hold|Hnew]; [left; by eapply Hdir|by right].
  - intros key path Hp. apply sidecarOf_snoc.
    destruct (Hnorm' key path Hp) as [Hold|Hnew]; [left; by eapply Hnorm|by right].
Qed.

Lemma walk_inv (root : string) (entries seen : list walkEntry) (st st' : scanState) :
  scanInv root seen st ->
  walk root entries st = Some st' ->
  scanInv root (seen ++ entries) st'.
Proof.
  revert seen st. induction entries as [|e rest IH]; intros seen st Hinv; simpl.
  - intros [= <-]. by rewrite app_nil_r.
  - destruct (visit root st e) as [st1|] eqn:Hvisit; [simpl|discriminate].
    intros Hwalk. rewrite (cons_middle e seen rest), app_assoc.
    apply (IH _ st1); [|done]. by eapply visit_inv.
Qed.

(** X14. [ScanTakeout] returns one pair for each media file of the
    walk, in the order of the walk, with the album [detectAlbum] finds
    for its path; the sidecar of a pair is none, or a file of the walk
    whose lower-cased name ends in [.json] and that is not a
    [metadata.json]. *)
Theorem ScanTakeout_pairs (root : string) (pairs : list FilePair) :
  ScanTakeout root = Some pairs ->
  MediaPath <$> pairs = walkPath <$> filter (fun e => isMediaEntry e = true) (WalkDir root)
  /\ forall pair, pair ∈ pairs ->
       Album pair = detectAlbum Rel root (MediaPath pair)
       /\ (PairJsonPath pair = ""%string \/ sidecarOf (WalkDir root) (PairJsonPath pair)).
Proof.
  unfold Sidecars.ScanTakeout.
  destruct (walk root (WalkDir root) (mkScan [] ∅ ∅ ∅ ∅)) as [st|] eqn:Hwalk;
    [simpl|discriminate].
  intros [= <-].
  destruct (walk_inv root (WalkDir root) [] (mkScan [] ∅ ∅ ∅ ∅) st)
    as (Hmedia & Htitle & Hkey & Hdir & Hnorm); [|done|].
  { split; [done|]. repeat split; intros k x Hx; unfold slot in Hx; simpl in Hx;
      rewrite lookup_empty in Hx; by apply elem_of_nil in Hx. }
  simpl in *. split.
  - rewrite <- list_fmap_compose, Hmedia, <- list_fmap_compose. done.
  - intros pair (m & -> & Hm)%list_elem_of_fmap. simpl. split.
    + rewrite Hmedia in Hm. by apply list_elem_of_fmap in Hm as (e & -> & _).
    + destruct (resolveJSONPath_indexed (MediaPath m) (jsonByTitle st) (jsonByKey st)
                  (jsonByDir st) (jsonByNorm st))
        as [Hnone | [[key Hp] | [[key Hp] | [(entry & Hentry & Hp) | [key Hp]]]]].
      * by left.
      * right. by eapply Htitle.
      * right. by eapply Hkey.
      * right. rewrite <- Hp. by eapply Hdir.
      * right. by eapply Hnorm.
Qed.




End SidecarProps.

Lemma ScanTakeout_pairs_witness :
  let ToLower := GoString.asciiLower in
  let Rel := Scanner.relBelow in
  let WalkDir := fun _ : string => Sidecars.sampleWalk in
  exists pairs,
    Sidecars.ScanTakeout ToLower (fun s => s) Scanner.dirOf Rel (fun s => s)
      (fun _ _ => false) (fun _ s _ => s) (fun path => Some path)
      (fun data => Some (GoString.TrimSuffix (FilePath.Base data) ".json"))
      WalkDir "/takeout" = Some pairs
    /\ Dedup.MediaPath <$> pairs
       = Sidecars.walkPath
         <$> filter (fun e => Sidecars.isMediaEntry ToLower e = true) (WalkDir "/takeout")
    /\ forall pair, pair ∈ pairs ->
         Dedup.Album pair = Scanner.detectAlbum Rel "/takeout" (Dedup.MediaPath pair)
         /\ (Dedup.PairJsonPath pair = ""
             \/ Sidecars.sidecarOf ToLower (WalkDir "/takeout") (Dedup.PairJsonPath pair)).
Proof.
  intros ToLower Rel WalkDir. eexists. split; [vm_compute; reflexivity|].
  apply (ScanTakeout_pairs ToLower (fun s => s) Scanner.dirOf Rel (fun s => s)
           (fun _ _ => false) (fun _ s _ => s) (fun path => Some path)
           (fun data => Some (GoString.TrimSuffix (FilePath.Base data) ".json"))
           WalkDir "/takeout").
  vm_compute. reflexivity.
Defined.



(** The panic is met: with six U+023A before [.supp], the position of
    [.supp] in the lower-cased name is 18 and the name has 17 bytes. *)
Example normalizeJSONKey_slice_panics :
  let name := (Sidecars.aStroke ++ Sidecars.aStroke ++ Sidecars.aStroke ++ Sidecars.aStroke
               ++ Sidecars.aStroke ++ Sidecars.aStroke ++ ".supp")%string in
  String.length name = 17%nat
  /\ Sidecars.Index (Sidecars.lowerStroke name) ".supp" = 18
  /\ Sidecars.normalizeJSONKey Sidecars.lowerStroke (fun _ s _ => s) (name ++ ".json") = None
  /\ Sidecars.ScanTakeout Sidecars.lowerStroke (fun s => s) Scanner.dirOf
       Scanner.relBelow (fun s => s) (fun _ _ => false) (fun _ s _ => s)
       (fun _ => None) (fun _ => None)
       (fun _ => [Sidecars.mkWalk ("/takeout/" ++ name ++ ".json") false false])
       "/takeout" = None.
Proof. vm_compute. done. Qed.

(** ** Dates from file names *)

Section GuessProps.
Import GoString FilePath Metadata DateRules.
Context `{Metadata.Env}.
Local Open Scope list_scope.

Lemma guessLoop_first (base : string) (patterns : list datePattern) :
  match guessLoop base patterns with
  | (t, true) =>
      exists (i : nat) pat, patterns !! i = Some pat /\
        FindString (re pat) base <> ""%string /\
        parse pat (FindString (re pat) base) = (t, true) /\
        forall (j : nat) pat', (j < i)%nat -> patterns !! j = Some pat' -> ruleFails base pat'
  | (t, false) =>
      t = zeroTime /\ forall pat, pat ∈ patterns -> ruleFails base pat
  end.
Proof.
  induction patterns as [|pat rest IH]; simpl.
  - split; [done|]. intros pat Hpat. by apply elem_of_nil in Hpat.
  - destruct (String.eqb_spec (FindString (re pat) base) "") as [Hnone|Hmatch].
    + destruct (guessLoop base rest) as [t [|]].
      * destruct IH as (i & pat' & Hi & Hfound & Hparse & Hfirst).
        exists (S i), pat'. split; [done|]. split; [done|]. split; [done|].
        intros [|j] pat'' Hj; simpl; [intros [= <-]; by left|]. apply Hfirst. lia.
      * destruct IH as [-> Hall]. split; [done|].
        intros pat' [->|Hpat']%elem_of_cons; [by left|by apply Hall].
    + destruct (parse pat (FindString (re pat) base)) as [t [|]] eqn:Hparse.
      * exists 0%nat, pat. split; [done|]. split; [done|]. split; [done|].
        intros j pat' Hj. lia.
      * destruct (guessLoop base rest) as [t' [|]].
        -- destruct IH as (i & pat' & Hi & Hfound & Hparse' & Hfirst).
           exists (S i), pat'. split; [done|]. split; [done|]. split; [done|].
           intros [|j] pat'' Hj; simpl.
           ++ intros [= <-]. right. by rewrite Hparse.
           ++ apply Hfirst. lia.
        -- destruct IH as [-> Hall]. split; [done|].
           intros pat' [->|Hpat']%elem_of_cons; [|by apply Hall].
           right. by rewrite Hparse.
Qed.

(** X16. [GuessDateFromFilename] answers with the first rule of the
    table that matches the base name and whose match parses; a rule
    that matches but does not parse does not end the search. When no
    rule gives a date the answer is the zero time, not found. *)
Theorem GuessDateFromFilename_first_rule (path : string) :
  match GuessDateFromFilename path with
  | (t, true) =>
      exists (i : nat) pat, datePatterns !! i = Some pat /\
        FindString (re pat) (Base path) <> ""%string /\
        parse pat (FindString (re pat) (Base path)) = (t, true) /\
        forall (j : nat) pat', (j < i)%nat -> datePatterns !! j = Some pat' ->
          ruleFails (Base path) pat'
  | (t, false) =>
      t = zeroTime /\ forall pat, pat ∈ datePatterns -> ruleFails (Base path) pat
  end.
Proof. apply guessLoop_first. Qed.

(** X17. Without custom patterns and exclusions, and given the time of
    the sidecar, [ExtractBestDateWithCustomAndExclusions] resolves as
    [ExtractBestDate] does; the embedded-tag time it returns beside is
    the one of [ParseExifTakenTime] when neither the sidecar nor the
    file name gave a time, and the zero time, not found, otherwise. *)
Theorem ExtractBestDate_agree (srcPath jsonPath : string) :
  let json := ParseJSONTakenTime jsonPath in
  let r := ExtractBestDateWithCustomAndExclusions srcPath (fst json) (snd json) [] ∅ in
  fst (fst r) = ExtractBestDate srcPath jsonPath
  /\ (snd (fst r), snd r)
     = if snd json || snd (GuessDateFromFilename srcPath) then (zeroTime, false)
       else ParseExifTakenTime srcPath.
Proof.
  unfold ExtractBestDateWithCustomAndExclusions, ExtractBestDate,
    GuessDateFromFilenameWithCustomAndExclusions, guessWithPatterns, isExcluded.
  simpl. rewrite map_size_empty. simpl.
  destruct (ParseJSONTakenTime jsonPath) as [jt [|]],
    (GuessDateFromFilename srcPath) as [ft [|]],
    (ParseExifTakenTime srcPath) as [et [|]]; simpl;
    try destruct (shouldOverrideJSON jt ft); done.
Qed.

End GuessProps.

(** ** The file of excluded names *)

Section ExclusionProps.
Import GoString FilePath Metadata Dedup DateExclusions.
Local Open Scope list_scope.

Lemma Base_nonempty (path : string) : Base path <> ""%string.
Proof.
  unfold Base. destruct (String.eqb path ""); [done|].
  by destruct (lastElement (stripTrailingSeparators path)).
Qed.

(** [isExcluded] asks for the flag of the base name. *)
Lemma isExcluded_lookup (path : string) (exclude : gmap string bool) :
  isExcluded path exclude = true <-> exclude !! Base path = Some true.
Proof.
  unfold isExcluded. destruct (Nat.eqb_spec (size exclude) 0) as [Hsize|_].
  - apply map_size_empty_inv in Hsize. subst. by rewrite lookup_empty.
  - destruct (exclude !! Base path) as [[|]|]; simpl; split; congruence.
Qed.

Lemma saveLoop_member (entries : list (string * bool)) : forall (items : list string) item,
  item ∈ saveLoop entries items <-> item ∈ items \/ (item, true) ∈ entries.
Proof.
  induction entries as [|[name ok] rest IH]; intros items item; simpl.
  - rewrite elem_of_nil. prop_only tauto.
  - rewrite IH, elem_of_cons. destruct ok.
    + rewrite elem_of_app, list_elem_of_singleton. split; [|prop_only ltac:(intuition congruence)].
      intros [[?| ->]|?]; auto.
    + split; [prop_only tauto|]. intros [?|[?|?]]; [auto|congruence|auto].
Qed.

Lemma loadLoop_lookup (items : list string) : forall (ex : gmap string bool) name,
  (forall k, ex !! k <> Some false) ->
  (loadLoop items ex !! name = Some true
   <-> ex !! name = Some true \/ (name <> ""%string /\ name ∈ items))
  /\ loadLoop items ex !! name <> Some false.
Proof.
  induction items as [|item rest IH]; intros ex name Hex; simpl.
  - split; [|apply Hex]. rewrite elem_of_nil. prop_only tauto.
  - destruct (String.eqb_spec item "") as [->|Hitem]; simpl.
    + destruct (IH ex name Hex) as [Hiff Hno]. split; [|done].
      rewrite Hiff, elem_of_cons. split; [prop_only tauto|].
      intros [?|[Hne [->|?]]]; [auto|done|auto].
    + destruct (IH (<[item := true]> ex) name) as [Hiff Hno].
      { intros k. rewrite lookup_insert. case_decide; [done|apply Hex]. }
      split; [|done]. rewrite Hiff, elem_of_cons, lookup_insert.
      case_decide as Hname.
      * subst. split; [|prop_only tauto]. intros _. right. auto.
      * split; [prop_only tauto|]. intros [?|[Hne [->|?]]]; [auto|done|auto].
Qed.

Section WithFiles.
Variable fs : Type.
Variable ReadFile : fs -> string -> ReadResult.
Variable MkdirAll : fs -> string -> fs * bool.
Variable WriteFile : fs -> string -> string -> fs * bool.
Variable Dir : string -> string.
Variable Marshal : list string -> option string.
Variable Unmarshal : string -> option (list string).
Variable rangeExclude : gmap string bool -> list (string * bool).

Local Abbreviation LoadDateExclusions := (DateExclusions.LoadDateExclusions fs ReadFile Unmarshal).
Local Abbreviation SaveDateExclusions :=
  (DateExclusions.SaveDateExclusions fs MkdirAll WriteFile Dir Marshal rangeExclude).
Local Abbreviation savedList := (DateExclusions.savedList rangeExclude).

(** X18. What [SaveDateExclusions] has written, [LoadDateExclusions]
    reads back as the same exclusions: the names flagged [true] (the
    empty name apart, which no base name is), and [isExcluded] answers
    for every path as it did. *)
Theorem SaveDateExclusions_round_trip (s s' : fs) (path : string)
    (exclude : gmap string bool) :
  path <> ""%string ->
  rangeExclude exclude ≡ₚ map_to_list exclude ->
  (forall s0 data s1, WriteFile s0 path data = (s1, false) ->
     ReadFile s1 path = ReadOk data) ->
  (forall data, Marshal (savedList exclude) = Some data ->
     Unmarshal data = Some (savedList exclude)) ->
  SaveDateExclusions s path exclude = (s', false) ->
  exists loaded,
    LoadDateExclusions s' path = Some loaded
    /\ (forall name, loaded !! name = Some true
          <-> name <> ""%string /\ exclude !! name = Some true)
    /\ (forall name, loaded !! name <> Some false)
    /\ forall p, isExcluded p loaded = isExcluded p exclude.
Proof.
  intros Hpath Hrange Hwrite Hjson.
  unfold DateExclusions.SaveDateExclusions, DateExclusions.LoadDateExclusions.
  destruct (String.eqb_spec path ""); [done|].
  destruct (MkdirAll s (Dir path)) as [s0 [|]]; [done|].
  destruct (Marshal (savedList exclude)) as [data|] eqn:Hdata; [|done].
  intros Hsaved. rewrite (Hwrite _ _ _ Hsaved), (Hjson data eq_refl).
  exists (loadLoop (savedList exclude) ∅).
  assert (forall name, loadLoop (savedList exclude) ∅ !! name = Some true
            <-> name <> ""%string /\ exclude !! name = Some true) as Hflags.
  { intros name.
    destruct (loadLoop_lookup (savedList exclude) ∅ name) as [Hiff _];
      [intros k; by rewrite lookup_empty|].
    rewrite Hiff, lookup_empty. unfold DateExclusions.savedList.
    rewrite saveLoop_member, elem_of_nil, Hrange, elem_of_map_to_list.
    split; [intros [?|[? [?|?]]]; done|prop_only tauto]. }
  split; [done|]. split; [done|]. split.
  - intros name. apply loadLoop_lookup. intros k. by rewrite lookup_empty.
  - intros p. apply eq_true_iff_eq. rewrite !isExcluded_lookup, Hflags.
    pose proof (Base_nonempty p). prop_only tauto.
Qed.

End WithFiles.

End ExclusionProps.

Lemma SaveDateExclusions_round_trip_witness :
  let exclude : gmap string bool := {[ "IMG_0001.jpg" := true; "IMG_0002.jpg" := false ]} in
  let path := ".gphotos/date_exclusions.json" in
  let s' := <[path := "IMG_0001.jpg"]> (∅ : gmap string string) in
  exists loaded,
    DateExclusions.LoadDateExclusions (gmap string string) DateExclusions.readPlain
      (fun data => Some (GoString.Split data ","%char)) s' path = Some loaded
    /\ (forall name, loaded !! name = Some true
          <-> name <> "" /\ exclude !! name = Some true)
    /\ (forall name, loaded !! name <> Some false)
    /\ forall p, Metadata.isExcluded p loaded = Metadata.isExcluded p exclude.
Proof.
  intros exclude path s'.
  apply (SaveDateExclusions_round_trip (gmap string string) DateExclusions.readPlain
           (fun s _ => (s, false)) DateExclusions.writePlain Scanner.dirOf
           (fun items => Some (DateExclusions.joinComma items))
           (fun data => Some (GoString.Split data ","%char))
           map_to_list ∅ s' path exclude).
  - discriminate.
  - reflexivity.
  - intros s0 data s1 [= <-]. unfold DateExclusions.readPlain.
    by rewrite lookup_insert_eq.
  - intros data. vm_compute. by intros [= <-].
  - vm_compute. reflexivity.
Defined.

(** ** The command: filters, previews and exclusions *)

Section MainProps.
Import GoString FilePath Metadata Models Dedup MainCli.
Context `{Metadata.Env}.
Variable ToLower : string -> string.
Variable ReplaceAll : string -> string -> string -> string.
Variable Atoi : string -> option Z.
Variable Format : Time -> string.
Local Open Scope list_scope.

Local Abbreviation extSet := (MainCli.extSet ToLower).
Local Abbreviation keepExts := (MainCli.keepExts ToLower).
Local Abbreviation filterPairsByExt := (MainCli.filterPairsByExt ToLower).
Local Abbreviation previewLoop := (MainCli.previewLoop Format).
Local Abbreviation previewCustomPattern := (MainCli.previewCustomPattern Format).
Local Abbreviation indexLoop := (MainCli.indexLoop Atoi).
Local Abbreviation parseIndexList := (MainCli.parseIndexList ReplaceAll Atoi).

Lemma extSet_dotted (parts : list string) : forall (set : gset string),
  (forall ext, ext ∈ set -> HasPrefix ext "." = true) ->
  forall ext, ext ∈ extSet parts set -> HasPrefix ext "." = true.
Proof.
  induction parts as [|part rest IH]; intros set Hset; [done|].
  cbn [MainCli.extSet]. cbv zeta.
  destruct (String.eqb (ToLower (TrimSpace part)) ""); [by apply IH|].
  apply IH. intros ext [->%elem_of_singleton|Hext]%elem_of_union; [|by apply Hset].
  destruct (HasPrefix (ToLower (TrimSpace part)) ".") eqn:Hdot; cbn [negb];
    [exact Hdot|reflexivity].
Qed.

Lemma keepExts_filter (pairs : list FilePair) (set : gset string) : forall out,
  keepExts pairs set out
  = out ++ filter (fun p => ToLower (Ext (MediaPath p)) ∈ set) pairs.
Proof.
  induction pairs as [|p rest IH]; intros out; simpl; [by rewrite app_nil_r|].
  rewrite filter_cons. case_bool_decide as Hin.
  - rewrite IH, decide_True by done. by rewrite <- app_assoc.
  - rewrite IH, decide_False by done. done.
Qed.

(** X19. [filterPairsByExt] keeps, in their order, the pairs whose
    lower-cased extension is one of those asked for, and all pairs when
    nothing is asked for; every extension asked for starts with a dot,
    so an active filter drops the files that have no extension; to
    filter twice is to filter once. *)
Theorem filterPairsByExt_keeps (pairs : list FilePair) (onlyExts : string) :
  let set := extSet (Split onlyExts ","%char) ∅ in
  filterPairsByExt pairs onlyExts
  = (if (size set =? 0)%nat then pairs
     else filter (fun p => ToLower (Ext (MediaPath p)) ∈ set) pairs)
  /\ (forall p, ToLower ""%string = ""%string -> size set <> 0%nat ->
        p ∈ filterPairsByExt pairs onlyExts -> Ext (MediaPath p) <> ""%string)
  /\ filterPairsByExt (filterPairsByExt pairs onlyExts) onlyExts
     = filterPairsByExt pairs onlyExts.
Proof.
  intros set.
  assert (filterPairsByExt pairs onlyExts
          = (if (size set =? 0)%nat then pairs
             else filter (fun p => ToLower (Ext (MediaPath p)) ∈ set) pairs)) as Hkeeps.
  { unfold MainCli.filterPairsByExt. fold set. destruct (size set =? 0)%nat; [done|].
    by rewrite keepExts_filter. }
  split; [done|]. split.
  - intros p Hlower Hsize. rewrite Hkeeps. destruct (Nat.eqb_spec (size set) 0); [done|].
    intros [Hin _]%list_elem_of_filter Hext. rewrite Hext, Hlower in Hin.
    apply (extSet_dotted (Split onlyExts ","%char) ∅) in Hin; [done|].
    intros ext Hext'. by apply elem_of_empty in Hext'.
  - unfold MainCli.filterPairsByExt at 1. fold set. rewrite Hkeeps.
    destruct (size set =? 0)%nat; [done|].
    rewrite keepExts_filter. simpl. apply list_filter_filter_l. done.
Qed.

Lemma previewLoop_spec (re : Regexp) (layout : string) (paths : list string) :
  forall matched parsed previews,
    let '(matched', parsed', previews') :=
      previewLoop re layout paths (matched, parsed, previews) in
    parsed' - parsed = Z.of_nat (length previews') - Z.of_nat (length previews)
    /\ 0 <= parsed' - parsed <= matched' - matched
    /\ matched' - matched <= Z.of_nat (length paths)
    /\ exists added, previews' = previews ++ added /\
         forall entry, entry ∈ added ->
           exists path, path ∈ paths /\ previewPath entry = Base path.
Proof.
  induction paths as [|path rest IH]; intros matched parsed previews; simpl.
  - split; [lia|]. split; [lia|]. split; [lia|]. exists []. rewrite app_nil_r.
    split; [done|]. intros entry Hentry. by apply elem_of_nil in Hentry.
  - destruct (length (FindStringSubmatch re (Base path)) =? 0)%nat.
    { specialize (IH matched parsed previews).
      destruct (previewLoop re layout rest (matched, parsed, previews))
        as [[matched' parsed'] previews'].
      destruct IH as (Hlen & Hparsed & Hmatched & added & Hadded & Hfrom).
      split; [done|]. split; [done|]. split; [lia|]. exists added. split; [done|].
      intros entry Hentry. destruct (Hfrom entry Hentry) as (p & Hp & Hbase).
      exists p. split; [by apply list_elem_of_further|done]. }
    destruct (ParseWithLayout layout _) as [t [|]]; simpl.
    + specialize (IH (matched + 1) (parsed + 1)
                     (previews ++ [mkPreview (Base path) (Format t)])).
      destruct (previewLoop re layout rest _) as [[matched' parsed'] previews'].
      destruct IH as (Hlen & Hparsed & Hmatched & added & Hadded & Hfrom).
      rewrite length_app in Hlen. simpl in Hlen.
      split; [lia|]. split; [lia|]. split; [lia|].
      exists (mkPreview (Base path) (Format t) :: added).
      split; [by rewrite Hadded, <- app_assoc|].
      intros entry [->|Hentry]%elem_of_cons.
      * exists path. split; [apply list_elem_of_here|done].
      * destruct (Hfrom entry Hentry) as (p & Hp & Hbase).
        exists p. split; [by apply list_elem_of_further|done].
    + specialize (IH (matched + 1) parsed previews).
      destruct (previewLoop re layout rest _) as [[matched' parsed'] previews'].
      destruct IH as (Hlen & Hparsed & Hmatched & added & Hadded & Hfrom).
      split; [lia|]. split; [lia|]. split; [lia|]. exists added. split; [done|].
      intros entry Hentry. destruct (Hfrom entry Hentry) as (p & Hp & Hbase).
      exists p. split; [by apply list_elem_of_further|done].
Qed.

Lemma indexLoop_range (parts : list string) (max : Z) : forall out result,
  indexLoop parts max out = Some result ->
  Forall (fun n => 1 <= n <= max) out ->
  Forall (fun n => 1 <= n <= max) result.
Proof.
  induction parts as [|part rest IH]; intros out result; simpl.
  - by intros [= <-].
  - destruct (String.eqb (TrimSpace part) ""); [apply IH|].
    destruct (Atoi (TrimSpace part)) as [n|]; [|done].
    destruct (Z.ltb_spec n 1); simpl; [apply IH|].
    destruct (Z.ltb_spec max n); [apply IH|].
    intros Hloop Hout. apply (IH _ _ Hloop). apply Forall_app. split; [done|].
    apply Forall_singleton. lia.
Qed.

Lemma excludeLoop_spec (excluded : list Z) (previews : list previewEntry) :
  forall exclusions,
    Forall (fun n => 1 <= n <= Z.of_nat (length previews)) excluded ->
    exists exclusions',
      excludeLoop excluded previews exclusions = Some exclusions'
      /\ forall name, exclusions' !! name = Some true
           <-> exclusions !! name = Some true
               \/ exists idx entry, idx ∈ excluded /\
                    previews !! Z.to_nat (idx - 1) = Some entry /\
                    previewPath entry = name.
Proof.
  induction excluded as [|idx rest IH]; intros exclusions Hrange; simpl.
  - exists exclusions. split; [done|]. intros name. split; [by left|].
    intros [?|(idx & entry & Hidx & _)]; [done|]. by apply elem_of_nil in Hidx.
  - apply Forall_cons in Hrange as [Hidx Hrest].
    destruct (Z.ltb_spec idx 1); [lia|]. simpl.
    destruct (Z.ltb_spec (Z.of_nat (length previews)) idx); [lia|].
    destruct (lookup_lt_is_Some_2 previews (Z.to_nat (idx - 1))) as [entry Hentry]; [lia|].
    rewrite Hentry. simpl.
    destruct (IH (<[previewPath entry := true]> exclusions) Hrest)
      as (exclusions' & -> & Hflags).
    exists exclusions'. split; [done|]. intros name. rewrite Hflags, lookup_insert.
    split.
    + intros [Hold | (i & e & Hi & He & Hname)].
      * case_decide as Hname; [|by left]. right. exists idx, entry.
        split; [apply list_elem_of_here|done].
      * right. exists i, e. split; [by apply list_elem_of_further|done].
    + intros [Hold | (i & e & [->|Hi]%elem_of_cons & He & Hname)].
      * left. by case_decide.
      * left. rewrite decide_True; [done|congruence].
      * right. by exists i, e.
Qed.

(** X20. [previewCustomPattern] counts what it shows: [parsed] is the
    number of previews, it is at most [matched], which is at most the
    number of paths; every preview carries the base name of one of the
    paths. *)
Theorem previewCustomPattern_counts (re : Regexp) (layout : string) (paths : list string) :
  let '(matched, parsed, previews) := previewCustomPattern re layout paths in
  parsed = Z.of_nat (length previews)
  /\ parsed <= matched <= Z.of_nat (length paths)
  /\ forall entry, entry ∈ previews ->
       exists path, path ∈ paths /\ previewPath entry = Base path.
Proof.
  unfold MainCli.previewCustomPattern.
  pose proof (previewLoop_spec re layout paths 0 0 []) as Hloop.
  destruct (previewLoop re layout paths (0, 0, [])) as [[matched parsed] previews].
  destruct Hloop as (Hlen & Hparsed & Hmatched & added & -> & Hfrom).
  simpl in *. split; [lia|]. split; [lia|]. done.
Qed.

(** X21. An exclusion takes effect: when the user's list parses, the
    loop that excludes the listed previews does not panic, keeps what
    was excluded, and every listed preview is the base name of one of
    the paths, for which no date is guessed from the name afterwards,
    whatever the custom patterns. *)
Theorem excludeLoop_takes_effect (re : Regexp) (layout input : string)
    (paths : list string) (excluded : list Z) (exclusions : gmap string bool) :
  let previews := (previewCustomPattern re layout paths).2 in
  parseIndexList input (Z.of_nat (length previews)) = Some excluded ->
  exists exclusions',
    excludeLoop excluded previews exclusions = Some exclusions'
    /\ (forall name, exclusions !! name = Some true -> exclusions' !! name = Some true)
    /\ forall idx, idx ∈ excluded ->
         exists entry path, previews !! Z.to_nat (idx - 1) = Some entry /\
           path ∈ paths /\ Base path = previewPath entry /\
           forall custom,
             GuessDateFromFilenameWithCustomAndExclusions path custom exclusions'
             = (zeroTime, false).
Proof.
  intros previews Hparse.
  assert (Forall (fun n => 1 <= n <= Z.of_nat (length previews)) excluded) as Hrange.
  { revert Hparse. unfold MainCli.parseIndexList.
    destruct (String.eqb _ ""); [by intros [= <-]|].
    intros Hloop. by apply (indexLoop_range _ _ _ _ Hloop). }
  destruct (excludeLoop_spec excluded previews exclusions Hrange)
    as (exclusions' & Hloop & Hflags).
  exists exclusions'. split; [done|]. split.
  - intros name Hname. apply Hflags. by left.
  - intros idx Hidx.
    rewrite Forall_forall in Hrange. specialize (Hrange idx Hidx).
    destruct (lookup_lt_is_Some_2 previews (Z.to_nat (idx - 1))) as [entry Hentry]; [lia|].
    pose proof (previewCustomPattern_counts re layout paths) as Hcounts.
    fold previews in Hentry. unfold previews in *.
    destruct (previewCustomPattern re layout paths) as [[matched parsed] shown].
    destruct Hcounts as (_ & _ & Hfrom). simpl in *.
    destruct (Hfrom entry) as (path & Hpath & Hbase); [by eapply list_elem_of_lookup_2|].
    exists entry, path. split; [done|]. split; [done|]. split; [done|].
    intros custom. unfold GuessDateFromFilenameWithCustomAndExclusions.
    replace (isExcluded path exclusions') with true; [done|].
    symmetry. apply isExcluded_lookup, Hflags. right. exists idx, entry. by rewrite <- Hbase.
Qed.

Lemma normalizeLoop_digits (digits rest : list Z) : forall last,
  digits <> [] ->
  Forall (fun r => isDigit r = true) digits ->
  normalizeLoop (digits ++ rest) last
  = (if last then [] else [35]) ++ normalizeLoop rest true.
Proof.
  induction digits as [|r digits IH]; intros last Hne Hdigits; [done|].
  apply Forall_cons in Hdigits as [Hr Hdigits]. unfold isDigit in Hr.
  simpl. rewrite Hr. destruct digits as [|r' digits].
  - by destruct last.
  - destruct last; simpl negb; cbv iota.
    + by rewrite (IH true).
    + by rewrite (IH true).
Qed.

Lemma normalizeLoop_plain (r : Z) (rest : list Z) :
  isDigit r = false -> r <> 32 -> r <> 45 -> r <> 46 -> ~ 65 <= r <= 90 ->
  normalizeLoop (r :: rest) false = r :: normalizeLoop rest false.
Proof.
  unfold isDigit. intros Hdigit H32 H45 H46 Hupper. simpl. rewrite Hdigit.
  destruct (Z.eqb_spec r 32); [done|]. destruct (Z.eqb_spec r 45); [done|].
  destruct (Z.eqb_spec r 46); [done|]. destruct (Z.eqb_spec r 95) as [->|]; [done|].
  simpl. destruct (Z.leb_spec 65 r), (Z.leb_spec r 90); simpl; try done. lia.
Qed.

(** X22. The pattern of a name is canonical: to normalise a pattern
    gives the pattern again, and two names that differ in the digits of
    a run of digits, or in its length, have the same pattern. *)
Theorem normalizeNamePattern_canonical
    (decodeRunes : string -> list Z) (encodeRunes : list Z -> string) :
  (forall runes last,
     normalizeLoop (normalizeLoop runes last) false = normalizeLoop runes last)
  /\ (forall before digits digits' after last,
        digits <> [] -> digits' <> [] ->
        Forall (fun r => isDigit r = true) digits ->
        Forall (fun r => isDigit r = true) digits' ->
        normalizeLoop (before ++ digits ++ after) last
        = normalizeLoop (before ++ digits' ++ after) last)
  /\ (forall name,
        decodeRunes (normalizeNamePattern decodeRunes encodeRunes name)
        = normalizeLoop (decodeRunes name) false ->
        normalizeNamePattern decodeRunes encodeRunes
          (normalizeNamePattern decodeRunes encodeRunes name)
        = normalizeNamePattern decodeRunes encodeRunes name).
Proof.
  assert (forall runes last,
            normalizeLoop (normalizeLoop runes last) false = normalizeLoop runes last)
    as Hidem.
  { induction runes as [|r rest IH]; intros last; [done|]. simpl.
    destruct ((48 <=? r) && (r <=? 57)) eqn:Hdigit.
    - destruct last; simpl negb; cbv iota; [apply IH|].
      rewrite normalizeLoop_plain by (try done; lia). by rewrite IH.
    - destruct ((r =? 32) || (r =? 45) || (r =? 95) || (r =? 46)) eqn:Hsep.
      + change (normalizeLoop (95 :: normalizeLoop rest false) false)
          with (95 :: normalizeLoop (normalizeLoop rest false) false).
        by rewrite IH.
      + apply orb_false_elim in Hsep as [[[H32 H45]%orb_false_elim H95]%orb_false_elim H46].
        apply Z.eqb_neq in H32, H45, H95, H46.
        apply andb_false_iff in Hdigit.
        rewrite Z.leb_gt in Hdigit. rewrite Z.leb_gt in Hdigit.
        destruct (Z.leb_spec 65 r), (Z.leb_spec r 90); cbn [andb];
          (rewrite normalizeLoop_plain;
           [by rewrite IH
           |unfold isDigit; apply andb_false_iff; rewrite !Z.leb_gt; lia
           |lia..]). }
  split; [done|]. split.
  - intros before digits digits' after last Hne Hne' Hdigits Hdigits'. revert last.
    induction before as [|r before IH]; intros last.
    + simpl. by rewrite !normalizeLoop_digits.
    + simpl. by rewrite !IH.
  - intros name Hcodec. unfold normalizeNamePattern at 1. by rewrite Hcodec, Hidem.
Qed.

End MainProps.

Lemma excludeLoop_takes_effect_witness :
  let re := Metadata.mkRegexp (fun s => s) (fun s => [s]) in
  let Format := fun _ : Metadata.Time => "2019-09-19T05:38:57Z" in
  let Atoi := fun s => if String.eqb s "2" then Some 2 else None in
  let paths := ["/in/a/IMG_1.jpg"; "/in/b/IMG_2.jpg"] in
  let previews :=
    (@MainCli.previewCustomPattern Metadata.sampleEnv Format re "20060102" paths).2 in
  exists exclusions',
    MainCli.excludeLoop [2] previews ∅ = Some exclusions'
    /\ (forall name, (∅ : gmap string bool) !! name = Some true ->
          exclusions' !! name = Some true)
    /\ forall idx, idx ∈ [2] ->
         exists entry path, previews !! Z.to_nat (idx - 1) = Some entry /\
           path ∈ paths /\ FilePath.Base path = MainCli.previewPath entry /\
           forall custom,
             @Metadata.GuessDateFromFilenameWithCustomAndExclusions Metadata.sampleEnv
               path custom exclusions'
             = (Metadata.zeroTime, false).
Proof.
  intros re Format Atoi paths previews.
  apply (@excludeLoop_takes_effect Metadata.sampleEnv (fun s _ _ => s) Atoi Format
           re "20060102" "2" paths [2] ∅).
  vm_compute. reflexivity.
Defined.

(** ** Listing and choosing the albums *)

Section AlbumChoiceProps.
Import GoString Models AlbumsPkg AlbumChoice.
Variable rangeAlbums : gmap string bool -> list (string * bool).
Variable rangeSeen : gset string -> list string.
Variable sortStrings : list string -> list string.
Variable TrimSpace : string -> string.
Variable ToLower : string -> string.
Variable EqualFold : string -> string -> bool.
Variable Atoi : string -> option Z.
Local Open Scope list_scope.

Local Abbreviation seenLoop := (AlbumChoice.seenLoop rangeAlbums).
Local Abbreviation ListDistinctAlbums :=
  (AlbumChoice.ListDistinctAlbums rangeAlbums rangeSeen sortStrings).
Local Abbreviation indexAlbums := (AlbumChoice.indexAlbums ToLower).
Local Abbreviation selectLoop := (AlbumChoice.selectLoop TrimSpace ToLower Atoi).
Local Abbreviation PromptAlbumSelection :=
  (AlbumChoice.PromptAlbumSelection TrimSpace ToLower EqualFold Atoi).

Lemma albumFlag_lookup (m : gmap string bool) (name : string) :
  albumFlag (Some m) name = true <-> m !! name = Some true.
Proof. unfold albumFlag. destruct (m !! name) as [[|]|]; simpl; split; congruence. Qed.

Lemma seenNames_spec (entries : list (string * bool)) : forall (seen : gset string) name,
  name ∈ seenNames entries seen <-> name ∈ seen \/ (name, true) ∈ entries.
Proof.
  induction entries as [|[n ok] rest IH]; intros seen name; simpl.
  - rewrite elem_of_nil. prop_only tauto.
  - rewrite IH, elem_of_cons. destruct ok.
    + rewrite elem_of_union, elem_of_singleton. split; [|prop_only ltac:(intuition congruence)].
      intros [[->|?]|?]; auto.
    + split; [prop_only tauto|]. intros [?|[?|?]]; [auto|congruence|auto].
Qed.

Lemma seenLoop_spec (h : heap) (photos : list loc) :
  (forall m, rangeAlbums m ≡ₚ map_to_list m) ->
  forall (seen : gset string) name,
    name ∈ seenLoop h photos seen
    <-> name ∈ seen
        \/ exists p ph, p ∈ photos /\ h !! p = Some ph /\ albumFlag (Albums ph) name = true.
Proof.
  intros Hrange. induction photos as [|p rest IH]; intros seen name; simpl.
  - split; [by left|]. intros [?|(p & ph & Hp & _)]; [done|]. by apply elem_of_nil in Hp.
  - assert (forall seen',
              (name ∈ seen' <-> name ∈ seen
                 \/ exists ph, h !! p = Some ph /\ albumFlag (Albums ph) name = true) ->
              name ∈ seenLoop h rest seen'
              <-> name ∈ seen
                  \/ exists q ph, q ∈ p :: rest /\ h !! q = Some ph
                       /\ albumFlag (Albums ph) name = true) as Hstep.
    { intros seen' Hseen'. rewrite IH, Hseen'. split.
      - intros [[?|(ph & Hph & Hflag)] | (q & ph & Hq & Hph & Hflag)]; [by left| |].
        + right. exists p, ph. split; [apply list_elem_of_here|done].
        + right. exists q, ph. split; [by apply list_elem_of_further|done].
      - intros [?|(q & ph & [->|Hq]%elem_of_cons & Hph & Hflag)]; [by left; left| |].
        + left. right. by exists ph.
        + right. by exists q, ph. }
    destruct (h !! p) as [ph|] eqn:Hp.
    + destruct (Albums ph) as [albums|] eqn:Halbums.
      * apply Hstep. rewrite seenNames_spec, Hrange, elem_of_map_to_list. split.
        -- intros [?|Hflag]; [by left|]. right. exists ph. split; [done|].
           rewrite Halbums. by apply albumFlag_lookup.
        -- intros [?|(ph' & [= <-] & Hflag)]; [by left|]. right.
           rewrite Halbums in Hflag. by apply albumFlag_lookup.
      * apply Hstep. split; [by left|]. intros [?|(ph' & [= <-] & Hflag)]; [done|].
        by rewrite Halbums in Hflag.
    + apply Hstep. split; [by left|]. by intros [?|(ph' & ? & _)].
Qed.

(** X23. [ListDistinctAlbums] lists every album that some photo of the
    list is flagged for, and nothing else, each name once, whatever the
    order in which the maps are visited. *)
Theorem ListDistinctAlbums_members (h : heap) (photos : list loc) :
  (forall m, rangeAlbums m ≡ₚ map_to_list m) ->
  (forall s, rangeSeen s ≡ₚ elements s) ->
  (forall l, sortStrings l ≡ₚ l) ->
  NoDup (ListDistinctAlbums h photos)
  /\ forall name,
       name ∈ ListDistinctAlbums h photos
       <-> exists p ph, p ∈ photos /\ h !! p = Some ph
             /\ albumFlag (Albums ph) name = true.
Proof.
  intros Hrange Hseen Hsort. unfold AlbumChoice.ListDistinctAlbums. cbv zeta.
  split.
  - rewrite Hsort, Hseen. apply NoDup_elements.
  - intros name. rewrite Hsort, Hseen, elem_of_elements, (seenLoop_spec h photos Hrange).
    rewrite elem_of_empty. prop_only tauto.
Qed.

Lemma indexAlbums_range (albums : list string) : forall (i : Z) (albumIndex : gmap string Z),
  (forall key idx, albumIndex !! key = Some idx -> 0 <= idx < i) ->
  0 <= i ->
  forall key idx, indexAlbums albums i albumIndex !! key = Some idx ->
    0 <= idx < i + Z.of_nat (length albums).
Proof.
  induction albums as [|name rest IH]; intros i albumIndex Hidx Hi key idx; simpl.
  - intros Hkey. specialize (Hidx key idx Hkey). lia.
  - intros Hkey. apply IH in Hkey; [lia| |lia].
    intros key' idx'. rewrite lookup_insert. case_decide.
    + intros [= <-]. lia.
    + intros Hold. specialize (Hidx key' idx' Hold). lia.
Qed.

Lemma selectLoop_spec (albums : list string) (albumIndex : gmap string Z)
    (parts : list string) :
  (forall key idx, albumIndex !! key = Some idx -> 0 <= idx < Z.of_nat (length albums)) ->
  forall (seen : gset string) (selected result : list string),
    NoDup selected ->
    (forall name, name ∈ seen <-> name ∈ selected) ->
    (forall name, name ∈ selected -> name ∈ albums) ->
    selectLoop albums albumIndex parts seen selected = Selected result ->
    NoDup result /\ forall name, name ∈ result -> name ∈ albums.
Proof.
  intros Hindex. induction parts as [|raw rest IH];
    intros seen selected result Hnodup Hseen Hamong; simpl.
  - by intros [= <-].
  - assert (forall name, name ∈ albums ->
              (if bool_decide (name ∈ seen)
               then selectLoop albums albumIndex rest seen selected
               else selectLoop albums albumIndex rest ({[name]} ∪ seen) (selected ++ [name]))
              = Selected result ->
              NoDup result /\ forall name, name ∈ result -> name ∈ albums) as Hadd.
    { intros name Hname. case_bool_decide as Hin; [by apply IH|].
      apply IH.
      - apply NoDup_app. split; [done|]. split; [|apply NoDup_singleton].
        intros n Hn Hn'. apply list_elem_of_singleton in Hn' as ->. by apply Hin, Hseen.
      - intros n. rewrite elem_of_union, elem_of_singleton, elem_of_app,
          list_elem_of_singleton, Hseen. prop_only tauto.
      - intros n [Hn | ->%list_elem_of_singleton]%elem_of_app; [by apply Hamong|done]. }
    destruct (String.eqb (TrimSpace raw) ""); [by apply IH|].
    destruct (Atoi (TrimSpace raw)) as [idx|].
    + destruct (Z.ltb_spec idx 1); [done|]. simpl.
      destruct (Z.ltb_spec (Z.of_nat (length albums)) idx); [done|].
      apply Hadd. apply list_elem_of_lookup_total_2. lia.
    + destruct (albumIndex !! ToLower (TrimSpace raw)) as [idx|] eqn:Hkey; [|done].
      apply Hadd. apply list_elem_of_lookup_total_2.
      specialize (Hindex _ _ Hkey). lia.
Qed.

(** X24. Whatever the line, the names [PromptAlbumSelection] returns
    are names of the albums it was given, and they are distinct when
    the albums are. *)
Theorem PromptAlbumSelection_valid (albums : list string) (line : string)
    (readErr : option string) (selected : list string) :
  PromptAlbumSelection albums line readErr = Selected selected ->
  (forall name, name ∈ selected -> name ∈ albums)
  /\ (NoDup albums -> NoDup selected).
Proof.
  unfold AlbumChoice.PromptAlbumSelection.
  destruct (length albums =? 0)%nat.
  { intros [= <-]. split; [by intros name Hname%elem_of_nil|intros _; apply NoDup_nil_2]. }
  destruct (match readErr with Some msg => _ | None => None end); [done|]. cbv zeta.
  destruct (String.eqb (TrimSpace line) "").
  { intros [= <-]. split; [by intros name Hname%elem_of_nil|intros _; apply NoDup_nil_2]. }
  destruct (EqualFold (TrimSpace line) "all"); [by intros [= <-]|].
  destruct (selectLoop albums (indexAlbums albums 0 ∅) (Split (TrimSpace line) ",") ∅ [])
    as [names|err] eqn:Hloop; [|done].
  apply selectLoop_spec in Hloop as [Hnodup Hamong].
  - destruct (length names =? 0)%nat; intros [= <-]; [|done].
    split; [by intros name Hname%elem_of_nil|intros _; apply NoDup_nil_2].
  - intros key idx Hkey.
    apply (indexAlbums_range albums 0 ∅) in Hkey; [lia| |lia].
    intros key' idx'. by rewrite lookup_empty.
  - apply NoDup_nil_2.
  - intros name. by rewrite elem_of_nil, elem_of_empty.
  - by intros name Hname%elem_of_nil.
Qed.

Lemma StronglySorted_lookup {A} (R : A -> A -> Prop) (l : list A) (i j : nat) (x y : A) :
  StronglySorted R l -> (i < j)%nat -> l !! i = Some x -> l !! j = Some y -> R x y.
Proof.
  intros Hsorted. revert i j. induction Hsorted as [|a l Hsorted IH Hall]; intros i j Hij.
  - by rewrite lookup_nil.
  - destruct i as [|i], j as [|j]; simpl; try lia.
    + intros [= <-] Hy. rewrite Forall_forall in Hall. apply Hall.
      by eapply list_elem_of_lookup_2.
    + apply IH. lia.
Qed.

(** X25. With the answer [all], every photo of the list goes to the
    first, in the order of the strings, of the albums it is flagged
    for; a photo flagged for no album gets no album. *)
Theorem all_selects_first_album (h : heap) (photos : list loc) (line : string)
    (p : loc) (ph : Photo) :
  (forall m, rangeAlbums m ≡ₚ map_to_list m) ->
  (forall s, rangeSeen s ≡ₚ elements s) ->
  (forall l, sortStrings l ≡ₚ l) ->
  StronglySorted goLe (ListDistinctAlbums h photos) ->
  TrimSpace line <> ""%string ->
  EqualFold (TrimSpace line) "all" = true ->
  p ∈ photos ->
  h !! p = Some ph ->
  exists selected ph',
    PromptAlbumSelection (ListDistinctAlbums h photos) line None = Selected selected
    /\ AssignFinalAlbums h photos selected !! p = Some ph'
    /\ Albums ph' = Albums ph
    /\ ((FinalAlbum ph' = ""%string /\ forall name, albumFlag (Albums ph) name = false)
        \/ (albumFlag (Albums ph) (FinalAlbum ph') = true
            /\ forall name, albumFlag (Albums ph) name = true ->
                 goLe (FinalAlbum ph') name)).
Proof.
  intros Hrange Hseen Hsort Hsorted Hline Hall Hp Hph.
  destruct (ListDistinctAlbums_members h photos Hrange Hseen Hsort) as [Hnodup Hmembers].
  set (albums := ListDistinctAlbums h photos) in *.
  assert (forall name, albumFlag (Albums ph) name = true -> name ∈ albums) as Hlisted.
  { intros name Hflag. apply Hmembers. by exists p, ph. }
  assert (exists selected,
            PromptAlbumSelection albums line None = Selected selected
            /\ (selected = albums \/ (selected = [] /\ albums = [])))
    as (selected & Hprompt & Hselected).
  { unfold AlbumChoice.PromptAlbumSelection. destruct albums as [|a rest] eqn:Halbums.
    - exists []. split; [done|]. by right.
    - exists (a :: rest). simpl. destruct (String.eqb_spec (TrimSpace line) ""); [done|].
      rewrite Hall. split; [done|by left]. }
  assert (pickAlbum (Albums ph) selected = pickAlbum (Albums ph) albums) as Hpick.
  { destruct Hselected as [-> | [-> ->]]; done. }
  exists selected, (assignOne selected ph). split; [done|].
  rewrite AssignFinalAlbums_lookup, Hph, bool_decide_eq_true_2 by done.
  destruct (assignOne_FinalAlbum selected ph) as [-> ->]. rewrite Hpick.
  split; [done|]. split; [done|].
  destruct (pickAlbum_first (Albums ph) albums)
    as [(i & Hi & Hflag & Hbefore) | [Hnone Hnoflag]].
  - right. split; [done|]. intros name Hname.
    destruct (proj1 (list_elem_of_lookup albums name) (Hlisted name Hname)) as [j Hj].
    destruct (Nat.lt_trichotomy i j) as [Hlt | [<- | Hgt]].
    + by apply (StronglySorted_lookup goLe albums i j).
    + replace name with (pickAlbum (Albums ph) albums) by congruence.
      unfold goLe. by destruct (String.leb_total (pickAlbum (Albums ph) albums)
                                   (pickAlbum (Albums ph) albums)).
    + rewrite (Hbefore j name Hgt Hj) in Hname. done.
  - left. split; [done|]. intros name.
    destruct (albumFlag (Albums ph) name) eqn:Hflag; [|done].
    by rewrite (Hnoflag name (Hlisted name Hflag)) in Hflag.
Qed.

End AlbumChoiceProps.

Lemma insertSorted_perm (x : string) (l : list string) :
  AlbumChoice.insertSorted x l ≡ₚ x :: l.
Proof.
  induction l as [|y rest IH]; simpl; [done|].
  destruct (String.leb x y); [done|]. rewrite IH. apply Permutation_swap.
Qed.

Lemma sortSample_perm (l : list string) : AlbumChoice.sortSample l ≡ₚ l.
Proof.
  induction l as [|x rest IH]; simpl; [done|].
  rewrite insertSorted_perm. by rewrite IH.
Qed.

Lemma ListDistinctAlbums_members_witness :
  let albums := AlbumChoice.ListDistinctAlbums map_to_list elements AlbumChoice.sortSample
                  AlbumChoice.sampleAlbums [0; 1; 2]%nat in
  NoDup albums
  /\ forall name,
       name ∈ albums
       <-> exists p ph, p ∈ [0; 1; 2]%nat /\ AlbumChoice.sampleAlbums !! p = Some ph
             /\ Models.albumFlag (Models.Albums ph) name = true.
Proof.
  apply (ListDistinctAlbums_members map_to_list elements AlbumChoice.sortSample
           AlbumChoice.sampleAlbums [0; 1; 2]%nat).
  - done.
  - done.
  - exact sortSample_perm.
Defined.

Lemma PromptAlbumSelection_valid_witness :
  let albums := ["Family"; "Trip"; "Zoo"] in
  (forall name, name ∈ ["Zoo"; "Trip"] -> name ∈ albums)
  /\ (NoDup albums -> NoDup ["Zoo"; "Trip"]).
Proof.
  apply (PromptAlbumSelection_valid (fun s => s) GoString.asciiLower (fun _ _ => false)
           (fun s => if String.eqb s "3" then Some 3 else None)
           ["Family"; "Trip"; "Zoo"] "3,trip" None ["Zoo"; "Trip"]).
  vm_compute. reflexivity.
Defined.

Lemma all_selects_first_album_witness :
  let EqualFold := fun a b => String.eqb (GoString.asciiLower a) (GoString.asciiLower b) in
  let albums := AlbumChoice.ListDistinctAlbums map_to_list elements AlbumChoice.sortSample
                  AlbumChoice.sampleAlbums [0; 1; 2]%nat in
  let ph := Models.mkPhoto "" false "/takeout/a.jpg" "" Models.emptyMeta
              (Some {[ "Trip" := true; "Family" := true ]}) "" 0 0 in
  exists selected ph',
    AlbumChoice.PromptAlbumSelection (fun s => s) GoString.asciiLower EqualFold
      (fun _ => None) albums "ALL" None = AlbumChoice.Selected selected
    /\ AlbumsPkg.AssignFinalAlbums AlbumChoice.sampleAlbums [0; 1; 2]%nat selected !! 0%nat
       = Some ph'
    /\ Models.Albums ph' = Models.Albums ph
    /\ ((Models.FinalAlbum ph' = "" /\ forall name, Models.albumFlag (Models.Albums ph) name = false)
        \/ (Models.albumFlag (Models.Albums ph) (Models.FinalAlbum ph') = true
            /\ forall name, Models.albumFlag (Models.Albums ph) name = true ->
                 AlbumChoice.goLe (Models.FinalAlbum ph') name)).
Proof.
  intros EqualFold albums ph.
  apply (all_selects_first_album map_to_list elements AlbumChoice.sortSample
           (fun s => s) GoString.asciiLower EqualFold (fun _ => None)
           AlbumChoice.sampleAlbums [0; 1; 2]%nat "ALL" 0%nat ph).
  - done.
  - done.
  - exact sortSample_perm.
  - vm_compute. repeat constructor.
  - discriminate.
  - reflexivity.
  - apply list_elem_of_here.
  - vm_compute. reflexivity.
Defined.

(** ** The merge of one group *)

Section MergeProps.
Import Models Dedup.
Context `{Dedup.Env}.
Hypothesis sort_law : sortLaw.
Local Open Scope list_scope.

Lemma setAlbums_setAlbums (v w : option (gmap string bool)) (ph : Photo) :
  setAlbums v (setAlbums w ph) = setAlbums v ph.
Proof. by destruct ph. Qed.

(** The loop that takes the union, started on a representative whose
    albums have been replaced by [U]: it changes the albums of the
    representative and nothing else, and adds the album names of the
    other members, all flagged [true]. *)
Lemma unionLoop_albums (h0 : heap) (best : loc) (bph : Photo) (group : list loc) :
  forall (U : gmap string bool) (h' : heap),
    (forall name v, U !! name = Some v -> v = true) ->
    unionLoop (<[best := setAlbums (Some U) bph]> h0) best group = Some h' ->
    exists U',
      h' = <[best := setAlbums (Some U') bph]> h0
      /\ (forall name v, U' !! name = Some v -> v = true)
      /\ forall name,
           is_Some (U' !! name)
           <-> is_Some (U !! name)
               \/ exists p ph, p ∈ group /\ p <> best /\ h0 !! p = Some ph
                    /\ is_Some (default ∅ (Albums ph) !! name).
Proof using Type.
  induction group as [|p rest IH]; intros U h' Htrue; simpl.
  - intros [= <-]. exists U. split; [done|]. split; [done|].
    intros name. split; [by left|]. intros [?|(p & ph & Hp & _)]; [done|].
    by apply elem_of_nil in Hp.
  - unfold addAlbums at 1. rewrite lookup_insert_eq.
    destruct (<[best := setAlbums (Some U) bph]> h0 !! p) as [ph|] eqn:Hp;
      [simpl|discriminate].
    set (keys := (fun _ : bool => true) <$> default ∅ (Albums ph)).
    rewrite insert_insert_eq, setAlbums_setAlbums. intros Hloop.
    apply IH in Hloop as (U' & -> & Htrue' & Hnames).
    2:{ intros name v [Hv | [_ Hv]]%lookup_union_Some_raw; [|by eapply Htrue].
        unfold keys in Hv. rewrite lookup_fmap in Hv.
        destruct (default ∅ (Albums ph) !! name); by inversion Hv. }
    exists U'. split; [done|]. split; [done|].
    intros name. rewrite Hnames.
    assert (is_Some ((keys ∪ U) !! name)
            <-> is_Some (U !! name) \/ is_Some (default ∅ (Albums ph) !! name)) as ->.
    { rewrite lookup_union_is_Some. unfold keys. rewrite lookup_fmap, fmap_is_Some.
      apply or_comm. }
    rewrite lookup_insert in Hp. case_decide as Hbest.
    + inversion Hp; subst ph p. simpl. split.
      * intros [[?|?] | (q & qh & Hq & Hrest)]; [by left..|].
        right. exists q, qh. split; [by apply list_elem_of_further|done].
      * intros [? | (q & qh & [->|Hq]%elem_of_cons & Hne & Hrest)]; [by left; left|done|].
        right. by exists q, qh.
    + split.
      * intros [[?|Hnew] | (q & qh & Hq & Hrest)]; [by left| |].
        -- right. exists p, ph. split; [apply list_elem_of_here|]. by split; [congruence|].
        -- right. exists q, qh. split; [by apply list_elem_of_further|done].
      * intros [? | (q & qh & [->|Hq]%elem_of_cons & Hne & Hqh & Hnew)]; [by left; left| |].
        -- left. right. by replace ph with qh by congruence.
        -- right. by exists q, qh.
Qed.

(** X26. When a group of several photos is merged, the albums of the
    representative are replaced by the album names of the other members
    of the group, each flagged [true] whatever its flag was; the albums
    the representative had are dropped, and nothing else changes. The
    loop goes on with the representative as the survivor. *)
Theorem mergeLoop_albums (h : heap) (key : string) (group : list loc)
    (rest : list (string * list loc)) (result : list loc) (out : heap * list loc) :
  mergeLoop h ((key, group) :: rest) result = Some out ->
  length group <> 1%nat ->
  exists best bph U,
    best ∈ group /\ h !! best = Some bph
    /\ mergeLoop (<[best := setAlbums (Some U) bph]> h) rest (result ++ [best]) = Some out
    /\ forall name,
         albumFlag (Some U) name = true
         <-> exists p ph, p ∈ group /\ p <> best /\ h !! p = Some ph
               /\ is_Some (default ∅ (Albums ph) !! name).
Proof using sort_law.
  simpl. intros Hloop Hlen. apply Nat.eqb_neq in Hlen. rewrite Hlen in Hloop.
  destruct (chooseBest h group) as [[best sorted]|] eqn:Hbest; [simpl in Hloop|discriminate].
  assert (best ∈ group /\ sorted ≡ₚ group) as [Hin Hperm].
  { revert Hbest. unfold chooseBest.
    destruct (if (2 <=? length group)%nat then _ else _); [simpl|discriminate].
    destruct (head (sortSlice (lessAt h) group)) as [first|] eqn:Hhead; [simpl|discriminate].
    intros [= <- <-]. split; [|apply sort_law].
    apply head_Some_elem_of in Hhead. by rewrite (sort_law (lessAt h) group) in Hhead. }
  destruct (h !! best) as [bph|] eqn:Hbph; [simpl in Hloop|discriminate].
  destruct (unionLoop _ best sorted) as [h1|] eqn:Hunion; [simpl in Hloop|discriminate].
  apply (unionLoop_albums h best bph sorted ∅ h1) in Hunion as (U & -> & Htrue & Hnames);
    [|intros name v; by rewrite lookup_empty].
  exists best, bph, U. split; [done|]. split; [done|]. split; [done|].
  intros name. unfold albumFlag.
  assert (default false (U !! name) = true <-> is_Some (U !! name)) as ->.
  { destruct (U !! name) as [v|] eqn:Hv; simpl.
    - rewrite (Htrue name v Hv). split; [by eexists|done].
    - split; [done|]. by intros [? ?]. }
  rewrite Hnames, lookup_empty. split.
  - intros [[? ?] | (p & ph & Hp & Hrest)]; [done|].
    exists p, ph. by rewrite <- Hperm.
  - intros (p & ph & Hp & Hrest). right. exists p, ph. by rewrite Hperm.
Qed.

(** X27. When the photos of a group all have the same date accuracy and
    [sort.Slice] has sorted the group by the comparison it was given,
    the representative [chooseBest] returns has the shortest source
    path of the group. *)
Theorem chooseBest_shortest_path (h : heap) (group sorted : list loc) (best : loc) :
  chooseBest h group = Some (best, sorted) ->
  (2 <= length group)%nat ->
  StronglySorted (fun a b => lessAt h b a = false) sorted ->
  (forall p q pa pb, p ∈ group -> q ∈ group -> h !! p = Some pa -> h !! q = Some pb ->
     DateAccuracy pa = DateAccuracy pb) ->
  exists bph, h !! best = Some bph
    /\ forall p ph, p ∈ group -> h !! p = Some ph ->
         (String.length (SrcPath bph) <= String.length (SrcPath ph))%nat.
Proof using sort_law.
  unfold chooseBest. intros Hbest Hlen Hsorted Hsame.
  apply Nat.leb_le in Hlen. rewrite Hlen in Hbest.
  destruct (mapM (fun p => h !! p) group) as [phs|] eqn:Hall; [simpl in Hbest|discriminate].
  assert (forall p, p ∈ group -> is_Some (h !! p)) as Hheap.
  { apply Forall_forall. apply (mapM_is_Some_1 (fun p => h !! p)). by eexists. }
  destruct (head (sortSlice (lessAt h) group)) as [first|] eqn:Hhead;
    [simpl in Hbest|discriminate].
  inversion Hbest; subst first sorted. clear Hbest.
  pose proof (sort_law (lessAt h) group) as Hperm.
  assert (best ∈ group) as Hin.
  { apply head_Some_elem_of in Hhead. by rewrite Hperm in Hhead. }
  destruct (Hheap best Hin) as [bph Hbph]. exists bph. split; [done|].
  intros p ph Hp Hph.
  destruct (sortSlice (lessAt h) group) as [|first tail] eqn:Hsort; [done|].
  simpl in Hhead. inversion Hhead; subst first.
  apply StronglySorted_inv in Hsorted as [_ Htail]. rewrite Forall_forall in Htail.
  rewrite <- Hperm in Hp. apply elem_of_cons in Hp as [-> | Hp].
  - replace ph with bph by congruence. lia.
  - specialize (Htail p Hp). unfold lessAt in Htail. rewrite Hph, Hbph in Htail.
    unfold lessPhoto in Htail.
    assert (p ∈ group) as Hp' by (rewrite <- Hperm; by apply list_elem_of_further).
    rewrite (Hsame p best ph bph Hp' Hin Hph Hbph), Z.ltb_irrefl in Htail.
    apply Nat.ltb_ge in Htail. lia.
Qed.

End MergeProps.

Lemma mergeLoop_albums_witness :
  let h := Dedup.sampleDuplicates in
  let E := Dedup.sampleEnv [] Dedup.ReadNotExist in
  exists out best bph U,
    @Dedup.mergeLoop E h [("9f86d081884c7d65", [1; 2]%nat)] [] = Some out
    /\ best ∈ [1; 2]%nat /\ h !! best = Some bph
    /\ @Dedup.mergeLoop E (<[best := Models.setAlbums (Some U) bph]> h) [] ([] ++ [best])
       = Some out
    /\ forall name,
         Models.albumFlag (Some U) name = true
         <-> exists p ph, p ∈ [1; 2]%nat /\ p <> best /\ h !! p = Some ph
               /\ is_Some (default ∅ (Models.Albums ph) !! name).
Proof.
  intros h E. eexists. 
  assert (@Dedup.sortLaw E) as Hsort by apply sampleEnv_laws.
  destruct (@mergeLoop_albums E Hsort h "9f86d081884c7d65" [1; 2]%nat [] []
              (default (h, []) (@Dedup.mergeLoop E h [("9f86d081884c7d65", [1; 2]%nat)] [])))
    as (best & bph & U & Hbest); [vm_compute; reflexivity|simpl; lia|].
  exists best, bph, U. split; [vm_compute; reflexivity|]. exact Hbest.
Defined.

Lemma chooseBest_shortest_path_witness :
  let h : Models.heap :=
    {[ 1%nat := Models.mkPhoto "9f86d081884c7d65" false "/takeout/Trip/IMG_0001.jpg" ""
                  Models.emptyMeta (Some ∅) "" 1 1024;
       2%nat := Models.mkPhoto "9f86d081884c7d65" false "/takeout/IMG_0001.jpg" ""
                  Models.emptyMeta (Some ∅) "" 1 1024 ]} in
  exists bph, h !! 2%nat = Some bph
    /\ forall p ph, p ∈ [1; 2]%nat -> h !! p = Some ph ->
         (String.length (Models.SrcPath bph) <= String.length (Models.SrcPath ph))%nat.
Proof.
  intros h.
  apply (@chooseBest_shortest_path (Dedup.sampleEnv [] Dedup.ReadNotExist)
           (proj2 (sampleEnv_laws [] Dedup.ReadNotExist)) h [1; 2]%nat [2; 1]%nat 2%nat).
  - vm_compute. reflexivity.
  - simpl. lia.
  - repeat constructor.
  - intros p q pa pb Hp Hq.
    repeat (apply elem_of_cons in Hp as [->|Hp]); [| |by apply elem_of_nil in Hp];
      repeat (apply elem_of_cons in Hq as [->|Hq]); try (by apply elem_of_nil in Hq);
      vm_compute; intros [= <-] [= <-]; reflexivity.
Defined.

(** ** The merge after the registry build *)

Section PipelineProps.
Import GoString Models Dedup RegistryKeys Pipeline.
Context `{Dedup.Env}.
Hypothesis range_law : rangeLaw.
Local Open Scope list_scope.

Lemma pretty_N_go_bytes (x : N) : forall s,
  allBytes numberByte s = true -> allBytes numberByte (pretty_N_go x s) = true.
Proof using Type.
  induction (N.lt_wf_0 x) as [x _ IH]; intros s Hs.
  assert (x = 0 \/ 0 < x)%N as [->|Hpos] by lia.
  - by rewrite pretty_N_go_0.
  - rewrite pretty_N_go_step by done. apply IH; [by apply N.div_lt|].
    simpl. rewrite Hs, andb_true_r. unfold pretty_N_char.
    by repeat case_match.
Qed.

Lemma pretty_Z_bytes (z : Z) : allBytes numberByte (pretty z) = true.
Proof using Type.
  assert (forall x : N, allBytes numberByte (pretty x) = true) as HN.
  { intros x. unfold pretty, pretty_N. case_decide; [done|]. by apply pretty_N_go_bytes. }
  destruct z as [|p|p]; [done|apply HN|].
  change (pretty (Z.neg p)) with ("-" ++ pretty (N.pos p))%string. simpl. apply HN.
Qed.

(** Two strings of number bytes, each followed by the same other byte,
    end where that byte stands. *)
Lemma number_prefix_inj (a b : string) (d : ascii) (s t : string) :
  allBytes numberByte a = true -> allBytes numberByte b = true ->
  numberByte d = false ->
  (a ++ String d s)%string = (b ++ String d t)%string -> a = b /\ s = t.
Proof using Type.
  revert b. induction a as [|c a IH]; intros [|c' b] Ha Hb Hd; simpl in *.
  - by intros [= <-].
  - intros [= <- _]. apply andb_prop in Hb as [Hc _]. congruence.
  - intros [= -> _]. apply andb_prop in Ha as [Hc _]. congruence.
  - apply andb_prop in Ha as [_ Ha]. apply andb_prop in Hb as [_ Hb].
    intros [= <- Hrest]. by destruct (IH b Ha Hb Hd Hrest) as [<- <-].
Qed.

Lemma sizeKey_inj (a b : Z) : sizeKey a = sizeKey b -> a = b.
Proof using Type.
  unfold sizeKey. intros Heq.
  apply (number_prefix_inj (pretty a) (pretty b) "b" "ytes" "ytes") in Heq as [Heq _];
    [by apply (inj pretty)|apply pretty_Z_bytes..|done].
Qed.

Lemma sizeKey_not_nohash (a b : Z) (path : string) : sizeKey a <> nohashKey b path.
Proof using Type.
  unfold sizeKey, nohashKey. pose proof (pretty_Z_bytes a) as Hbytes.
  destruct (pretty a) as [|c rest]; [done|]. simpl in *.
  intros [= -> _]. done.
Qed.

Lemma nohashKey_inj (a b : Z) (path path' : string) :
  nohashKey a path = nohashKey b path' -> a = b /\ path = path'.
Proof using Type.
  unfold nohashKey. intros Heq. apply (inj (String.append "nohash:")) in Heq.
  apply (number_prefix_inj (pretty a) (pretty b) ":") in Heq as [Heq ->];
    [|apply pretty_Z_bytes..|done].
  split; [by apply (inj pretty)|done].
Qed.

Lemma digestLike_key (hash : string) (size size' : Z) (path : string) :
  digestLike hash -> hash <> sizeKey size /\ hash <> nohashKey size' path.
Proof using Type.
  intros (_ & Hprefix & Hsuffix). split; intros ->.
  - unfold sizeKey in Hsuffix. by rewrite HasSuffix_append in Hsuffix.
  - done.
Qed.

(** A photo of the registry is not hashed again: the step leaves the
    heap alone and files the photo under its [groupKey]. *)
Lemma hashStep_keep (h : heap) (size : Z) (p : loc) (ph : Photo) :
  h !! p = Some ph ->
  (HashError ph = false -> digestLike (Hash ph)) ->
  hashStep h size p = Some (h, groupKey size ph).
Proof using Type.
  intros Hp Hgood. unfold hashStep, groupKey. rewrite Hp. simpl.
  destruct (HashError ph); [done|]. destruct (Hgood eq_refl) as (Hne & _).
  by destruct (String.eqb_spec (Hash ph) "").
Qed.

Lemma sizeGroupOf_cons (h : heap) (p : loc) (rest : list loc) (size : Z) :
  sizeGroupOf h (p :: rest) size
  = (if decide (Size <$> h !! p = Some size) then [p] else []) ++ sizeGroupOf h rest size.
Proof using Type. unfold sizeGroupOf. rewrite filter_cons. by case_decide. Qed.

(** The size groups are the photos of each size, in their order. *)
Lemma groupBySize_filter (h : heap) (photos : list loc) :
  (forall p, p ∈ photos -> is_Some (h !! p)) ->
  forall acc, exists sizeGroups,
    groupBySize h photos acc = Some sizeGroups
    /\ forall size,
         sizeGroups !! size
         = if decide (sizeGroupOf h photos size = [])
           then acc !! size
           else Some (default [] (acc !! size) ++ sizeGroupOf h photos size).
Proof using Type.
  induction photos as [|p rest IH]; intros Hheap acc; simpl.
  - exists acc. split; [done|]. intros size. first [done | by rewrite decide_True].
  - destruct (Hheap p) as [ph Hp]; [apply list_elem_of_here|]. rewrite Hp. simpl.
    destruct (IH (fun q Hq => Hheap q (list_elem_of_further _ _ _ Hq))
                 (<[Size ph := default [] (acc !! Size ph) ++ [p]]> acc))
      as (sizeGroups & -> & Hgroups).
    exists sizeGroups. split; [done|]. intros size. rewrite Hgroups, sizeGroupOf_cons, Hp.
    simpl. destruct (decide (Size ph = size)) as [->|Hsize].
    + rewrite (decide_True (P := Some size = Some size)) by done.
      rewrite lookup_insert_eq. simpl.
      destruct (decide (p :: sizeGroupOf h rest size = [])) as [Hbad|_]; [discriminate Hbad|].
      case_decide as Hrest; [by rewrite Hrest|]. by rewrite <- app_assoc.
    + rewrite (decide_False (P := Some (Size ph) = Some size)) by congruence.
      rewrite lookup_insert_ne by done. done.
Qed.

(** In a size group whose photos have distinct keys, every photo ends
    in a hash group of its own. *)
Lemma groupByHash_singletons (h : heap) (size : Z) (group : list loc) :
  (forall p, p ∈ group ->
     exists ph, h !! p = Some ph /\ (HashError ph = false -> digestLike (Hash ph))) ->
  NoDup group ->
  (forall p q pa pb, p ∈ group -> q ∈ group -> h !! p = Some pa -> h !! q = Some pb ->
     groupKey size pa = groupKey size pb -> p = q) ->
  forall acc,
    (forall p ph, p ∈ group -> h !! p = Some ph -> acc !! groupKey size ph = None) ->
    exists hashGroups,
      groupByHash h size group acc = Some (h, hashGroups)
      /\ (forall p ph, p ∈ group -> h !! p = Some ph ->
            hashGroups !! groupKey size ph = Some [p])
      /\ (forall k G, hashGroups !! k = Some G ->
            acc !! k = Some G
            \/ exists p ph, p ∈ group /\ h !! p = Some ph /\ k = groupKey size ph /\ G = [p])
      /\ (forall k G, acc !! k = Some G -> hashGroups !! k = Some G).
Proof using Type.
  induction group as [|p rest IH]; intros Hgood Hnodup Hinj acc Hfree; simpl.
  - exists acc. split; [done|]. split; [by intros p ph Hp%elem_of_nil|].
    split; [by left|done].
  - destruct (Hgood p) as (ph & Hp & Hdigest); [apply list_elem_of_here|].
    rewrite (hashStep_keep h size p ph Hp Hdigest). simpl.
    rewrite (Hfree p ph (list_elem_of_here _ _) Hp). simpl.
    apply NoDup_cons in Hnodup as [Hnotin Hnodup].
    assert (forall q qh, q ∈ rest -> h !! q = Some qh ->
              groupKey size qh <> groupKey size ph) as Hother.
    { intros q qh Hq Hqh Hkey. destruct Hnotin.
      replace p with q; [done|].
      apply (Hinj q p qh ph); [by apply list_elem_of_further|apply list_elem_of_here|done..]. }
    destruct (IH (fun q Hq => Hgood q (list_elem_of_further _ _ _ Hq)) Hnodup
                 (fun a b pa pb Ha Hb => Hinj a b pa pb (list_elem_of_further _ _ _ Ha)
                                           (list_elem_of_further _ _ _ Hb))
                 (<[groupKey size ph := [p]]> acc))
      as (hashGroups & -> & Hmine & Hfrom & Hkeep).
    { intros q qh Hq Hqh. rewrite lookup_insert_ne by (apply not_eq_sym; by eapply Hother).
      apply (Hfree q qh); [by apply list_elem_of_further|done]. }
    exists hashGroups. split; [done|]. split; [|split].
    + intros q qh [->|Hq]%elem_of_cons Hqh.
      * replace qh with ph by congruence. apply Hkeep. by rewrite lookup_insert_eq.
      * by apply Hmine.
    + intros k G HG. destruct (Hfrom k G HG) as [Hacc | (q & qh & Hq & Hqh & -> & ->)].
      * rewrite lookup_insert in Hacc. case_decide as Hk.
        -- right. exists p, ph. inversion Hacc; subst.
           split; [apply list_elem_of_here|done].
        -- by left.
      * right. exists q, qh. split; [by apply list_elem_of_further|done].
    + intros k G Hacc. apply Hkeep. rewrite lookup_insert_ne; [done|].
      intros <-. rewrite (Hfree p ph (list_elem_of_here _ _) Hp) in Hacc. done.
Qed.

Lemma storeGroups_out (entries : list (string * list loc)) :
  forall (finalGroups : gmap string (list loc)) (k : string),
    k ∉ fst <$> entries -> storeGroups entries finalGroups !! k = finalGroups !! k.
Proof using Type.
  induction entries as [|[k' G'] rest IH]; intros finalGroups k Hk; [done|].
  simpl in *. apply not_elem_of_cons in Hk as [Hne Hk].
  unfold storeGroups in *. simpl. rewrite IH by done. by rewrite lookup_insert_ne.
Qed.

Lemma storeGroups_in (entries : list (string * list loc)) :
  NoDup (fst <$> entries) ->
  forall (finalGroups : gmap string (list loc)) (k : string) (G : list loc),
    (k, G) ∈ entries -> storeGroups entries finalGroups !! k = Some G.
Proof using Type.
  induction entries as [|[k' G'] rest IH]; intros Hnodup finalGroups k G Hin.
  - by apply elem_of_nil in Hin.
  - simpl in Hnodup. apply NoDup_cons in Hnodup as [Hnotin Hnodup].
    apply elem_of_cons in Hin as [[= -> ->]|Hin].
    + change (storeGroups ((k', G') :: rest) finalGroups)
        with (storeGroups rest (<[k' := G']> finalGroups)).
      rewrite storeGroups_out by done. by rewrite lookup_insert_eq.
    + change (storeGroups ((k', G') :: rest) finalGroups)
        with (storeGroups rest (<[k' := G']> finalGroups)).
      by apply IH.
Qed.

Lemma storeGroups_range (hashGroups finalGroups : gmap string (list loc)) (k : string) :
  storeGroups (rangeGroups hashGroups) finalGroups !! k
  = match hashGroups !! k with Some G => Some G | None => finalGroups !! k end.
Proof using range_law.
  destruct (hashGroups !! k) as [G|] eqn:Hk.
  - apply storeGroups_in; [|by apply (rangeGroups_lookup range_law)].
    destruct range_law as (_ & Hperm & _). rewrite (Hperm hashGroups).
    apply NoDup_fst_map_to_list.
  - apply storeGroups_out. intros ([k' G] & -> & Hin)%list_elem_of_fmap.
    apply (rangeGroups_lookup range_law) in Hin. simpl in Hk. congruence.
Qed.

Lemma length_one_eq (l : list loc) (p q : loc) :
  length l = 1%nat -> p ∈ l -> q ∈ l -> p = q.
Proof using Type.
  destruct l as [|x [|y l]]; [done| |done].
  by intros _ ->%list_elem_of_singleton ->%list_elem_of_singleton.
Qed.

Section DistinctPhotos.
Variables (h : heap) (photos : list loc).
Hypothesis distinct : distinctKeys h photos.

Lemma sizeGroupOf_elem (size : Z) (p : loc) :
  p ∈ sizeGroupOf h photos size <-> Size <$> h !! p = Some size /\ p ∈ photos.
Proof using Type.
  unfold sizeGroupOf.
  apply (list_elem_of_filter (fun p => Size <$> h !! p = Some size)).
Qed.

Lemma sizeGroupOf_photo (p : loc) (ph : Photo) :
  p ∈ photos -> h !! p = Some ph -> p ∈ sizeGroupOf h photos (Size ph).
Proof using Type. intros Hp Hph. apply sizeGroupOf_elem. by rewrite Hph. Qed.

Lemma photo_digest (p : loc) (ph : Photo) :
  p ∈ photos -> h !! p = Some ph -> HashError ph = false -> digestLike (Hash ph).
Proof using distinct.
  intros Hp Hph. destruct distinct as (_ & Hgood & _).
  destruct (Hgood p Hp) as (ph' & Hph' & Hdigest).
  rewrite Hph in Hph'. by injection Hph' as <-.
Qed.

Lemma groupKey_inj (p q : loc) (pa pb : Photo) :
  p ∈ photos -> q ∈ photos -> h !! p = Some pa -> h !! q = Some pb ->
  groupKey (Size pa) pa = groupKey (Size pb) pb -> p = q.
Proof using distinct.
  intros Hp Hq Hpa Hpb Hkey.
  pose proof (photo_digest p pa Hp Hpa) as Hda.
  pose proof (photo_digest q pb Hq Hpb) as Hdb.
  destruct distinct as (_ & _ & Hinj). apply (Hinj p q pa pb); try done.
  unfold groupKey, registryKeyOf in *.
  destruct (HashError pa), (HashError pb).
  - by apply nohashKey_inj in Hkey as [_ ->].
  - by destruct (digestLike_key _ 0 (Size pa) (SrcPath pa) (Hdb eq_refl)) as [_ []].
  - by destruct (digestLike_key _ 0 (Size pb) (SrcPath pb) (Hda eq_refl)) as [_ []].
  - done.
Qed.

Lemma sizeKey_not_groupKey (size : Z) (p : loc) (ph : Photo) :
  p ∈ photos -> h !! p = Some ph -> sizeKey size <> groupKey (Size ph) ph.
Proof using distinct.
  intros Hp Hph. pose proof (photo_digest p ph Hp Hph) as Hdigest.
  unfold groupKey. destruct (HashError ph); [apply sizeKey_not_nohash|].
  intros Heq. by destruct (digestLike_key _ size 0 "" (Hdigest eq_refl)) as [[] _].
Qed.

(** No two photos have the same final key. *)
Lemma finalKeyOf_inj (p q : loc) (pa pb : Photo) :
  p ∈ photos -> q ∈ photos -> h !! p = Some pa -> h !! q = Some pb ->
  finalKeyOf h photos pa = finalKeyOf h photos pb -> p = q.
Proof using distinct.
  intros Hp Hq Hpa Hpb. unfold finalKeyOf.
  destruct (Nat.eqb_spec (length (sizeGroupOf h photos (Size pa))) 1) as [Ha|Ha],
           (Nat.eqb_spec (length (sizeGroupOf h photos (Size pb))) 1) as [Hb|Hb];
    intros Hkey.
  - apply sizeKey_inj in Hkey.
    apply (length_one_eq _ p q Ha); [by apply sizeGroupOf_photo|].
    rewrite Hkey. by apply sizeGroupOf_photo.
  - by destruct (sizeKey_not_groupKey (Size pa) q pb Hq Hpb).
  - by destruct (sizeKey_not_groupKey (Size pb) p pa Hp Hpa).
  - by apply (groupKey_inj p q pa pb).
Qed.

(** The final groups after one more size group. *)
Lemma finalInv_step (visited : list (Z * list loc)) (size : Z) (group : list loc)
    (finalGroups finalGroups' : gmap string (list loc)) :
  finalInv h photos visited finalGroups ->
  (forall k G, finalGroups' !! k = Some G ->
     finalGroups !! k = Some G
     \/ exists p ph, G = [p] /\ p ∈ photos /\ h !! p = Some ph
          /\ k = finalKeyOf h photos ph) ->
  (forall k, is_Some (finalGroups !! k) -> is_Some (finalGroups' !! k)) ->
  (forall p ph, p ∈ photos -> h !! p = Some ph -> Size ph = size ->
     finalGroups' !! finalKeyOf h photos ph = Some [p]) ->
  finalInv h photos (visited ++ [(size, group)]) finalGroups'.
Proof using distinct.
  intros [Hold Hseen] Hfrom Hkeep Hnew.
  assert (forall k G, finalGroups' !! k = Some G ->
            exists p ph, G = [p] /\ p ∈ photos /\ h !! p = Some ph
              /\ k = finalKeyOf h photos ph) as Hall.
  { intros k G HG. destruct (Hfrom k G HG) as [HG'|Hfresh]; [by apply Hold|done]. }
  split; [exact Hall|].
  intros p ph Hp Hph Hsize. rewrite fmap_app in Hsize.
  apply elem_of_app in Hsize as [Hsize|Hsize%list_elem_of_singleton]; [|by apply Hnew].
  destruct (Hkeep (finalKeyOf h photos ph)) as [G HG].
  { rewrite (Hseen p ph Hp Hph Hsize). by eexists. }
  destruct (Hall _ _ HG) as (q & qh & -> & Hq & Hqh & Hkey).
  by rewrite HG, (finalKeyOf_inj p q ph qh Hp Hq Hph Hqh Hkey).
Qed.

(** The loop over the size groups hashes nothing and files every photo
    in a group of its own. *)
Lemma groupLoop_distinct (todo : list (Z * list loc)) :
  (forall size g, (size, g) ∈ todo -> g = sizeGroupOf h photos size) ->
  forall visited finalGroups,
    finalInv h photos visited finalGroups ->
    exists finalGroups',
      groupLoop h todo finalGroups = Some (h, finalGroups')
      /\ finalInv h photos (visited ++ todo) finalGroups'.
Proof using distinct range_law.
  induction todo as [|[size group] rest IH]; intros Htodo visited finalGroups Hinv.
  { exists finalGroups. by rewrite app_nil_r. }
  pose proof (Htodo size group (list_elem_of_here _ _)) as Hgroup.
  assert (forall p ph, p ∈ photos -> h !! p = Some ph -> Size ph = size -> p ∈ group)
    as Hmember.
  { intros p ph Hp Hph <-. rewrite Hgroup. by apply sizeGroupOf_photo. }
  assert (forall p, p ∈ group ->
            exists ph, p ∈ photos /\ h !! p = Some ph /\ Size ph = size) as Hphoto.
  { intros p Hp. rewrite Hgroup in Hp. apply sizeGroupOf_elem in Hp as [Hsize Hp].
    destruct (h !! p) as [ph|] eqn:Hph; [|done]. exists ph. by injection Hsize. }
  assert (forall finalGroups',
            finalInv h photos (visited ++ [(size, group)]) finalGroups' ->
            exists finalGroups'',
              groupLoop h rest finalGroups' = Some (h, finalGroups'')
              /\ finalInv h photos (visited ++ (size, group) :: rest) finalGroups'') as Hrest.
  { intros finalGroups' Hinv'.
    destruct (IH (fun s g Hin => Htodo s g (list_elem_of_further _ _ _ Hin)) _ _ Hinv')
      as (finalGroups'' & Hloop & Hfinal).
    exists finalGroups''. by rewrite <- app_assoc in Hfinal. }
  cbn [groupLoop]. destruct (Nat.eqb_spec (length group) 1) as [Hlen|Hlen].
  - apply Hrest. apply (finalInv_step visited size group finalGroups); [done|..].
    + intros k G. rewrite lookup_insert. case_decide as Hk; [|by left].
      intros [= <-]. right. destruct group as [|p [|]]; [done| |done].
      destruct (Hphoto p (list_elem_of_here _ _)) as (ph & Hp & Hph & Hsize).
      exists p, ph. repeat split; [done..|]. unfold finalKeyOf.
      by rewrite Hsize, <- Hgroup, <- Hk.
    + intros k Hk. rewrite lookup_insert. by case_decide.
    + intros p ph Hp Hph Hsize. unfold finalKeyOf.
      rewrite Hsize, <- Hgroup, Hlen, lookup_insert_eq. simpl.
      pose proof (Hmember p ph Hp Hph Hsize) as Hin.
      destruct group as [|x [|]]; [done| |done].
      by apply list_elem_of_singleton in Hin as ->.
  - destruct (groupByHash_singletons h size group) with (acc := ∅ : gmap string (list loc))
      as (hashGroups & -> & Hmine & Hfrom & _).
    + intros p Hp. destruct (Hphoto p Hp) as (ph & Hp' & Hph & _).
      exists ph. split; [done|]. by apply (photo_digest p).
    + rewrite Hgroup. apply NoDup_filter. by destruct distinct.
    + intros p q pa pb Hp Hq Hpa Hpb Hkey.
      destruct (Hphoto p Hp) as (pa' & Hp' & Hpa' & Hsa).
      destruct (Hphoto q Hq) as (pb' & Hq' & Hpb' & Hsb).
      replace pa' with pa in * by congruence. replace pb' with pb in * by congruence.
      apply (groupKey_inj p q pa pb); try done. by rewrite Hsa, Hsb.
    + done.
    + cbn. apply Hrest.
      assert (forall ph, Size ph = size -> finalKeyOf h photos ph = groupKey size ph)
        as Hkey.
      { intros ph Hsize. unfold finalKeyOf. rewrite Hsize, <- Hgroup.
        by destruct (Nat.eqb_spec (length group) 1). }
      apply (finalInv_step visited size group finalGroups); [done|..].
      * intros k G. rewrite storeGroups_range.
        destruct (hashGroups !! k) as [G'|] eqn:HG'; [|by left].
        intros [= <-]. right.
        destruct (Hfrom k G' HG') as [Hempty|(p & ph & Hp & Hph & -> & ->)]; [done|].
        destruct (Hphoto p Hp) as (ph' & Hp' & Hph' & Hsize).
        replace ph' with ph in * by congruence.
        exists p, ph. by rewrite Hkey.
      * intros k Hk. rewrite storeGroups_range. by destruct (hashGroups !! k).
      * intros p ph Hp Hph Hsize.
        by rewrite storeGroups_range, (Hkey ph Hsize), (Hmine p ph (Hmember p ph Hp Hph Hsize) Hph).
Qed.

(** [GroupIdentical] hashes nothing and returns one group for each photo. *)
Lemma GroupIdentical_distinct :
  exists grouped,
    GroupIdentical h photos = Some (h, grouped)
    /\ (forall k G, grouped !! k = Some G ->
          exists p ph, G = [p] /\ p ∈ photos /\ h !! p = Some ph
            /\ k = finalKeyOf h photos ph)
    /\ (forall p ph, p ∈ photos -> h !! p = Some ph ->
          grouped !! finalKeyOf h photos ph = Some [p]).
Proof using distinct range_law.
  assert (forall p, p ∈ photos -> is_Some (h !! p)) as Hheap.
  { intros p Hp. destruct distinct as (_ & Hgood & _).
    destruct (Hgood p Hp) as (ph & -> & _). by eexists. }
  destruct (groupBySize_filter h photos Hheap ∅) as (sizeGroups & Hsizes & Hlookup).
  unfold GroupIdentical. rewrite Hsizes. cbn.
  destruct (groupLoop_distinct (rangeSizes sizeGroups)) with (visited := @nil (Z * list loc))
    (finalGroups := ∅ : gmap string (list loc)) as (grouped & Hloop & Hall & Hseen).
  - intros size g Hin%(rangeSizes_lookup range_law). rewrite Hlookup in Hin.
    case_decide; [done|]. by injection Hin.
  - split; [done|]. by intros p ph _ _ Hin%elem_of_nil.
  - exists grouped. split; [done|]. split; [done|].
    intros p ph Hp Hph. apply (Hseen p ph Hp Hph). simpl.
    apply list_elem_of_fmap. exists (Size ph, sizeGroupOf h photos (Size ph)).
    split; [done|]. apply (rangeSizes_lookup range_law). rewrite Hlookup.
    case_decide as Hempty; [|done].
    pose proof (sizeGroupOf_photo p ph Hp Hph) as Hin. rewrite Hempty in Hin.
    by apply elem_of_nil in Hin.
Qed.

End DistinctPhotos.

Lemma elem_of_concat (p : loc) (groups : list (list loc)) :
  p ∈ concat groups <-> exists G, G ∈ groups /\ p ∈ G.
Proof using Type.
  induction groups as [|G rest IH]; simpl.
  - split; [by intros ?%elem_of_nil|by intros (G & ?%elem_of_nil & _)].
  - rewrite elem_of_app, IH. split.
    + intros [Hp|(G' & HG' & Hp)]; [exists G; split; [apply list_elem_of_here|done]|].
      exists G'. split; [by apply list_elem_of_further|done].
    + intros (G' & [->|HG']%elem_of_cons & Hp); [by left|]. right. by exists G'.
Qed.

(** Groups of one photo each are passed on as they are. *)
Lemma mergeLoop_single (h : heap) (groups : list (string * list loc)) :
  (forall k G, (k, G) ∈ groups -> exists p, G = [p]) ->
  forall result,
    mergeLoop h groups result = Some (h, result ++ concat (snd <$> groups)).
Proof using Type.
  induction groups as [|[k G] rest IH]; intros Hsingle result; simpl.
  - by rewrite app_nil_r.
  - destruct (Hsingle k G (list_elem_of_here _ _)) as [p ->]. simpl.
    rewrite IH; [by rewrite <- app_assoc|].
    intros k' G' Hin. apply (Hsingle k' G'). by apply list_elem_of_further.
Qed.

(** [MergeIdentical] of photos with distinct keys merges nothing: the
    heap is as before and the result is the photos in another order. *)
Lemma MergeIdentical_distinct (h : heap) (photos : list loc) :
  distinctKeys h photos ->
  exists result, MergeIdentical h photos = Some (h, result) /\ result ≡ₚ photos.
Proof using range_law.
  intros Hdistinct.
  destruct (GroupIdentical_distinct h photos Hdistinct) as (grouped & Hrun & Hall & Hseen).
  unfold MergeIdentical. rewrite Hrun. cbn.
  assert (forall k G, (k, G) ∈ rangeFinal grouped ->
            exists p ph, G = [p] /\ p ∈ photos /\ h !! p = Some ph
              /\ k = finalKeyOf h photos ph) as Hentries.
  { intros k G Hin%(rangeFinal_lookup range_law). by apply Hall. }
  rewrite (mergeLoop_single h (rangeFinal grouped)).
  2:{ intros k G Hin. destruct (Hentries k G Hin) as (p & _ & -> & _). by exists p. }
  eexists. split; [done|]. simpl.
  pose proof (rangeFinal_NoDup range_law grouped) as Hkeys.
  assert (forall entries : list (string * list loc),
            (forall k G, (k, G) ∈ entries ->
               exists p ph, G = [p] /\ p ∈ photos /\ h !! p = Some ph
                 /\ k = finalKeyOf h photos ph) ->
            (fun p => finalKeyOf h photos <$> h !! p) <$> concat (snd <$> entries)
            = Some <$> (fst <$> entries)) as Hkeyed.
  { induction entries as [|[k G] rest IH]; intros Hgood; [done|].
    destruct (Hgood k G (list_elem_of_here _ _)) as (p & ph & -> & _ & Hph & ->).
    simpl. rewrite Hph. simpl. f_equal. apply IH.
    intros k' G' Hin. apply Hgood. by apply list_elem_of_further. }
  apply NoDup_Permutation.
  - apply (NoDup_fmap_1 (fun p => finalKeyOf h photos <$> h !! p)).
    rewrite (Hkeyed _ Hentries). apply (NoDup_fmap_2 Some), Hkeys.
  - by destruct Hdistinct.
  - intros p. split.
    + intros (G & ([k G'] & -> & Hin)%list_elem_of_fmap & Hp)%elem_of_concat.
      destruct (Hentries k G' Hin) as (q & _ & -> & Hq & _). simpl in Hp.
      by apply list_elem_of_singleton in Hp as ->.
    + intros Hp. destruct Hdistinct as (_ & Hgood & _).
      destruct (Hgood p Hp) as (ph & Hph & _).
      apply elem_of_concat. exists [p]. split; [|apply list_elem_of_here].
      apply list_elem_of_fmap. exists (finalKeyOf h photos ph, [p]). split; [done|].
      apply (rangeFinal_lookup range_law). by apply Hseen.
Qed.

End PipelineProps.

(** ** The registry handed to the deduplication *)

Section RegistryDigests.
Import GoString Models Dedup RegistryKeys Pipeline.
Context `{Dedup.Env}.
Hypothesis hash_digest : forall path digest, HashFile path = Some digest -> digestLike digest.
Local Open Scope list_scope.

Lemma hashOutcome_digest (c : hashCache) (path : string) (size mtime : Z) (hash : string) :
  digestCache c -> hashOutcome c path size mtime = (hash, false) -> digestLike hash.
Proof using hash_digest.
  intros Hcache. unfold hashOutcome.
  destruct (String.eqb_spec (cachedHash c path size mtime) "") as [_|Hne].
  - destruct (HashFile path) as [digest|] eqn:Hfile; [|done].
    intros [= <-]. by apply (hash_digest path).
  - intros [= <-]. pose proof (cachedHash_hit c path size mtime Hne) as Hentry.
    by apply (Hcache path _ Hentry).
Qed.

(** An iteration stores digests only, in the cache and in the photos. *)
Lemma registryStep_digest (st st' : registryState) (p : FilePair) :
  digestCache (cache st) -> digestHashes (photoHeap st) ->
  registryStep st p = Some st' ->
  digestCache (cache st') /\ digestHashes (photoHeap st').
Proof using hash_digest.
  intros Hcache Hheap Hstep.
  destruct (StatFile (MediaPath p)) as [[size mtime]|] eqn:Hstat.
  2:{ destruct (registryStep_skip st p Hstat) as [Hsame _].
      rewrite Hsame in Hstep. by injection Hstep as <-. }
  destruct (registryStep_cases st st' p size mtime Hstat Hstep)
    as (key & l & ph0 & ph1 & _ & Hwhere & Halbum & -> & Hstore).
  split.
  - destruct Hstore as [[-> _] | (files & Hfiles & Hne & Hout & ->)]; [done|].
    intros path entry. rewrite cacheLookup_store. case_decide as Hpath.
    + intros [= <-] _. simpl. by apply (hashOutcome_digest _ _ _ _ _ Hcache Hout).
    + intros Hentry. apply (Hcache path). unfold cacheLookup. by rewrite Hfiles.
  - assert (HashError ph0 = false -> digestLike (Hash ph0)) as Hph0.
    { destruct Hwhere as [(_ & Hold & _) | (_ & _ & _ & _ & _ & _ & Hnew)].
      - by apply (Hheap l).
      - intros Hok. by apply (hashOutcome_digest _ _ _ _ _ Hcache (Hnew Hok)). }
    intros l' ph. rewrite lookup_insert. case_decide as Hl; [|by apply Hheap].
    intros [= <-]. by destruct Halbum as [[_ ->] | (_ & m & _ & ->)].
Qed.

Lemma registryLoop_digest (pairs : list FilePair) :
  forall st st',
    digestCache (cache st) -> digestHashes (photoHeap st) ->
    registryLoop st pairs = Some st' -> digestHashes (photoHeap st').
Proof using hash_digest.
  induction pairs as [|p rest IH]; intros st st' Hcache Hheap; simpl.
  - by intros [= <-].
  - destruct (registryStep st p) as [st1|] eqn:Hstep; [simpl|done].
    destruct (registryStep_digest st st1 p Hcache Hheap Hstep) as [Hcache1 Hheap1].
    by apply IH.
Qed.

(** The photos of the registry, as [registryToSlice] lists them, are
    distinct and have distinct keys. *)
Lemma BuildRegistry_distinctKeys (rangeRegistry : gmap string loc -> list (string * loc))
    (pairs : list FilePair) (cachePath : string) (st : registryState) :
  (forall m, rangeRegistry m ≡ₚ map_to_list m) ->
  digestCache (LoadHashCache cachePath).1 ->
  BuildRegistry pairs cachePath = Some st ->
  distinctKeys (photoHeap st) (registryToSlice rangeRegistry (registry st)).
Proof using hash_digest.
  intros Hrange Hcache Hrun.
  pose proof (BuildRegistry_inv _ _ _ Hrun) as (_ & _ & Hinj & _ & Hphoto & _).
  assert (digestHashes (photoHeap st)) as Hdigest.
  { unfold BuildRegistry in Hrun. destruct (LoadHashCache cachePath) as [c0 err].
    by apply (registryLoop_digest pairs (mkState ∅ ∅ c0) st Hcache). }
  assert (forall p, p ∈ registryToSlice rangeRegistry (registry st) ->
            exists key, registry st !! key = Some p) as Hkey.
  { intros p ([key l] & -> & Hin)%list_elem_of_fmap. exists key.
    rewrite (Hrange (registry st)) in Hin. by apply elem_of_map_to_list in Hin. }
  split; [|split].
  - unfold registryToSlice. rewrite (Hrange (registry st)).
    apply NoDup_fmap_2_strong; [|apply NoDup_map_to_list].
    intros [k1 l1] [k2 l2] Hin1%elem_of_map_to_list Hin2%elem_of_map_to_list Hsame.
    simpl in Hsame. subst l2. by rewrite (Hinj k1 k2 l1 Hin1 Hin2).
  - intros p Hp. destruct (Hkey p Hp) as [key Hreg].
    destruct (Hphoto key p Hreg) as (ph & _ & Hph & _). exists ph. split; [done|].
    by apply (Hdigest p).
  - intros p q pa pb Hp Hq Hpa Hpb Hsame.
    destruct (Hkey p Hp) as [k1 Hk1]. destruct (Hkey q Hq) as [k2 Hk2].
    destruct (Hphoto k1 p Hk1) as (pa' & _ & Hpa' & <- & _).
    destruct (Hphoto k2 q Hk2) as (pb' & _ & Hpb' & <- & _).
    rewrite Hpa in Hpa'. injection Hpa' as <-.
    rewrite Hpb in Hpb'. injection Hpb' as <-.
    rewrite Hsame in Hk1. by injection (eq_trans (eq_sym Hk1) Hk2).
Qed.

Lemma distinctKeys_keeps (h h' : heap) (photos : list loc) :
  distinctKeys h photos -> keepsKeys h h' -> distinctKeys h' photos.
Proof using Type.
  intros (Hnodup & Hgood & Hinj) Hkeeps. split; [done|]. split.
  - intros p Hp. destruct (Hgood p Hp) as (ph & Hph & Hdigest).
    destruct (Hkeeps p ph Hph) as (ph' & Hph' & Hhash & Herr & _).
    exists ph'. split; [done|]. rewrite Hhash, Herr. exact Hdigest.
  - intros p q pa pb Hp Hq Hpa Hpb Hsame.
    destruct (Hgood p Hp) as (pa0 & Hpa0 & _). destruct (Hgood q Hq) as (pb0 & Hpb0 & _).
    destruct (Hkeeps p pa0 Hpa0) as (pa' & Hpa' & Hha & Hea & Hsa).
    destruct (Hkeeps q pb0 Hpb0) as (pb' & Hpb' & Hhb & Heb & Hsb).
    assert (pa' = pa) as -> by (by injection (eq_trans (eq_sym Hpa') Hpa)).
    assert (pb' = pb) as -> by (by injection (eq_trans (eq_sym Hpb') Hpb)).
    apply (Hinj p q pa0 pb0 Hp Hq Hpa0 Hpb0).
    unfold registryKeyOf in *. by rewrite <- Hha, <- Hea, <- Hsa, <- Hhb, <- Heb, <- Hsb.
Qed.

(** X28. The deduplication finds nothing to merge in what [BuildRegistry]
    returns: when the maps are ranged over entry by entry, the hashes of
    [HashFile] and of the cache file read like digests, and the photos
    have kept their hash, flag and source path since (their dates and the
    rest may have been set), then [MergeIdentical] of the photos of the
    registry returns these photos, in some order, and changes none of
    them. *)
Theorem MergeIdentical_of_registry (rangeRegistry : gmap string loc -> list (string * loc))
    (pairs : list FilePair) (cachePath : string) (st : registryState) (h : heap) :
  rangeLaw ->
  (forall m, rangeRegistry m ≡ₚ map_to_list m) ->
  digestCache (LoadHashCache cachePath).1 ->
  BuildRegistry pairs cachePath = Some st ->
  keepsKeys (photoHeap st) h ->
  exists result,
    MergeIdentical h (registryToSlice rangeRegistry (registry st)) = Some (h, result)
    /\ result ≡ₚ registryToSlice rangeRegistry (registry st).
Proof using hash_digest.
  intros Hlaw Hrange Hcache Hrun Hkeeps. apply (MergeIdentical_distinct Hlaw).
  apply (distinctKeys_keeps (photoHeap st)); [|done].
  by apply (BuildRegistry_distinctKeys rangeRegistry pairs cachePath).
Qed.

End RegistryDigests.

Lemma sampleLibrary_digests (path digest : string) :
  @Dedup.HashFile (Dedup.sampleEnv Pipeline.sampleLibrary Dedup.ReadNotExist) path
  = Some digest ->
  Pipeline.digestLike digest.
Proof.
  cbn [Dedup.HashFile Dedup.sampleEnv].
  destruct ((list_to_map Pipeline.sampleLibrary : gmap string _) !! path)
    as [[[size mtime] stored]|] eqn:Hfile; [|done].
  apply elem_of_list_to_map_2 in Hfile. simpl. intros ->.
  repeat (apply elem_of_cons in Hfile as [Hfile|Hfile]);
    [| |discriminate Hfile| |by apply elem_of_nil in Hfile];
    injection Hfile as _ _ _ ->; repeat split; done.
Defined.

Lemma MergeIdentical_of_registry_witness :
  let E := Dedup.sampleEnv Pipeline.sampleLibrary Dedup.ReadNotExist in
  exists st,
    @Dedup.BuildRegistry E Pipeline.sampleLibraryPairs "" = Some st
    /\ let dated := Pipeline.setDateAccuracy 2 <$> Dedup.photoHeap st in
       exists result,
         @Dedup.MergeIdentical E dated
           (Pipeline.registryToSlice map_to_list (Dedup.registry st))
         = Some (dated, result)
         /\ result ≡ₚ Pipeline.registryToSlice map_to_list (Dedup.registry st).
Proof.
  intros E. eexists. split; [vm_compute; reflexivity|]. intros dated.
  apply (@MergeIdentical_of_registry E sampleLibrary_digests map_to_list
           Pipeline.sampleLibraryPairs "").
  - apply sampleEnv_laws.
  - reflexivity.
  - intros path entry Hentry. cbv [Dedup.LoadHashCache String.eqb fst] in Hentry.
    unfold Dedup.cacheLookup in Hentry. simpl in Hentry.
    by rewrite lookup_empty in Hentry.
  - vm_compute. reflexivity.
  - intros l ph Hph. exists (Pipeline.setDateAccuracy 2 ph).
    split; [|done]. unfold dated. by rewrite lookup_fmap, Hph.
Defined.

(** ** The groups of files without a date *)

Section UnknownGroupProps.
Import GoString FilePath Models MainCli UnknownGroups.
Variable decodeRunes : string -> list Z.
Variable encodeRunes : list Z -> string.
Variable rangeGroupMap : gmap string unknownGroup -> list (string * unknownGroup).
Variable sortSlice :
  (unknownGroup -> unknownGroup -> bool) -> list unknownGroup -> list unknownGroup.
Local Open Scope list_scope.

Abbreviation fileLoop := (UnknownGroups.fileLoop decodeRunes encodeRunes).
Abbreviation patternOf := (UnknownGroups.patternOf decodeRunes encodeRunes).
Abbreviation pathsOf := (UnknownGroups.pathsOf decodeRunes encodeRunes).

Lemma addPaths_nil (g : unknownGroup) : addPaths g [] = g.
Proof using Type.
  unfold addPaths. simpl. rewrite firstn_nil, !app_nil_r. by destruct g.
Qed.

Lemma addPaths_cons (g : unknownGroup) (path : string) (new : list string) :
  addPaths g (path :: new)
  = addPaths (mkGroup (key g) (paths g ++ [path])
                (if (length (examples g) <? 3)%nat then examples g ++ [Base path]
                 else examples g)) new.
Proof using Type.
  unfold addPaths. simpl. rewrite <- app_assoc. f_equal.
  destruct (Nat.ltb_spec (length (examples g)) 3) as [Hlt|Hge].
  - rewrite length_app. simpl.
    replace (3 - length (examples g))%nat with (S (3 - (length (examples g) + 1)))%nat by lia.
    simpl. by rewrite <- app_assoc.
  - by replace (3 - length (examples g))%nat with 0%nat by lia.
Qed.

Lemma pathsOf_cons (k path : string) (rest : list string) :
  pathsOf k (path :: rest)
  = (if decide (patternOf path = k) then [path] else []) ++ pathsOf k rest.
Proof using Type. unfold UnknownGroups.pathsOf. rewrite filter_cons. by case_decide. Qed.

(** After the loop, the group of a key has got the paths of that key,
    in their order. *)
Lemma fileLoop_groups (h : heap) (unknown : list loc) :
  forall (phs : list Photo) (groupMap : gmap string unknownGroup),
    mapM (fun p => h !! p) unknown = Some phs ->
    exists groupMap',
      fileLoop h unknown groupMap = Some groupMap'
      /\ forall k,
           groupMap' !! k
           = if decide (pathsOf k (SrcPath <$> phs) = []) then groupMap !! k
             else Some (addPaths (default (mkGroup k [] []) (groupMap !! k))
                          (pathsOf k (SrcPath <$> phs))).
Proof using Type.
  induction unknown as [|p rest IH]; intros phs groupMap Hall.
  - injection Hall as <-. exists groupMap. split; [done|]. intros k. simpl.
    first [done | by rewrite decide_True].
  - simpl in Hall. destruct (h !! p) as [ph|] eqn:Hp; [simpl in Hall|discriminate].
    destruct (mapM (fun p => h !! p) rest) as [phs'|] eqn:Hrest; [simpl in Hall|discriminate].
    injection Hall as <-. cbn [UnknownGroups.fileLoop]. rewrite Hp. cbn [mbind option_bind].
    cbv zeta. fold (patternOf (SrcPath ph)).
    set (g0 := default (mkGroup (patternOf (SrcPath ph)) [] [])
                 (groupMap !! patternOf (SrcPath ph))).
    set (g1 := mkGroup (key g0) _ _).
    destruct (IH phs' (<[patternOf (SrcPath ph) := g1]> groupMap) eq_refl)
      as (groupMap' & -> & Hgroups).
    exists groupMap'. split; [done|]. intros k. rewrite Hgroups. clear Hgroups.
    rewrite fmap_cons, pathsOf_cons.
    destruct (decide (patternOf (SrcPath ph) = k)) as [<-|Hk].
    + rewrite lookup_insert_eq. simpl.
      destruct (decide (SrcPath ph :: pathsOf (patternOf (SrcPath ph)) (SrcPath <$> phs') = []))
        as [Hbad|_]; [discriminate Hbad|].
      rewrite addPaths_cons. fold g0. fold g1.
      case_decide as Hnone; [|done]. by rewrite Hnone, addPaths_nil.
    + by rewrite lookup_insert_ne.
Qed.

Lemma ltb_total (a b : string) : a <> b -> String.ltb b a = false -> String.ltb a b = true.
Proof using Type.
  unfold String.ltb. intros Hne. rewrite (String.compare_antisym b a).
  destruct (String.compare a b) eqn:Hcmp; [|done..].
  by apply String.compare_eq_iff in Hcmp.
Qed.

(** X29. [groupUnknownByPattern] sorts the files without a date into
    groups by the pattern of their base name: if no photo is [nil] it
    returns, no two groups have the same key, every file is in the group
    of its pattern, a group holds exactly the paths of its pattern, in
    their order, and the base names of the first three as examples; and
    when [sort.Slice] has sorted the groups by the comparison it was
    given, any group comes before the groups that are smaller, or as
    large and of a greater key. *)
Theorem groupUnknownByPattern_partition (h : heap) (unknown : list loc) (phs : list Photo) :
  (forall m, rangeGroupMap m ≡ₚ map_to_list m) ->
  (forall less l, sortSlice less l ≡ₚ l) ->
  mapM (fun p => h !! p) unknown = Some phs ->
  exists groups,
    groupUnknownByPattern decodeRunes encodeRunes rangeGroupMap sortSlice h unknown
    = Some groups
    /\ NoDup (key <$> groups)
    /\ (forall path, path ∈ SrcPath <$> phs ->
          exists g, g ∈ groups /\ key g = patternOf path)
    /\ (forall g, g ∈ groups ->
          paths g <> []
          /\ paths g = pathsOf (key g) (SrcPath <$> phs)
          /\ examples g = firstn 3 (Base <$> paths g))
    /\ (StronglySorted (fun a b => lessGroup b a = false) groups ->
        forall i j gi gj, (i < j)%nat -> groups !! i = Some gi -> groups !! j = Some gj ->
          lessGroup gi gj = true).
Proof using Type.
  intros Hrange Hsort Hall.
  destruct (fileLoop_groups h unknown phs ∅ Hall) as (groupMap & Hloop & Hgroups).
  unfold groupUnknownByPattern. rewrite Hloop. cbn [mbind option_bind].
  eexists. split; [done|].
  assert (forall k g, groupMap !! k = Some g ->
            pathsOf k (SrcPath <$> phs) <> []
            /\ g = mkGroup k (pathsOf k (SrcPath <$> phs))
                     (firstn 3 (Base <$> pathsOf k (SrcPath <$> phs)))) as Hentry.
  { intros k g. rewrite Hgroups, lookup_empty. case_decide as Hnone; [done|].
    intros [= <-]. done. }
  assert (forall g, g ∈ sortUnknownGroups sortSlice (snd <$> rangeGroupMap groupMap)
            <-> groupMap !! key g = Some g) as Hmember.
  { intros g. unfold sortUnknownGroups. rewrite Hsort, Hrange. split.
    - intros ([k g'] & -> & Hin%elem_of_map_to_list)%list_elem_of_fmap. simpl.
      destruct (Hentry k g' Hin) as [_ ->]. done.
    - intros Hin. apply list_elem_of_fmap. exists (key g, g). split; [done|].
      by apply elem_of_map_to_list. }
  assert (NoDup (key <$> sortUnknownGroups sortSlice (snd <$> rangeGroupMap groupMap)))
    as Hkeys.
  { unfold sortUnknownGroups. rewrite Hsort, Hrange.
    replace (key <$> (snd <$> map_to_list groupMap)) with (fst <$> map_to_list groupMap);
      [apply NoDup_fst_map_to_list|].
    rewrite <- list_fmap_compose. apply list_fmap_ext.
    intros i [k g] Hin%list_elem_of_lookup_2%elem_of_map_to_list. simpl.
    by destruct (Hentry k g Hin) as [_ ->]. }
  split; [exact Hkeys|]. split; [|split].
  - intros path Hpath.
    assert (pathsOf (patternOf path) (SrcPath <$> phs) <> []) as Hsome.
    { intros Hnone. assert (path ∈ pathsOf (patternOf path) (SrcPath <$> phs)) as Hin.
      { unfold UnknownGroups.pathsOf.
        by apply (list_elem_of_filter (fun p => patternOf p = patternOf path)). }
      rewrite Hnone in Hin. by apply elem_of_nil in Hin. }
    exists (mkGroup (patternOf path) (pathsOf (patternOf path) (SrcPath <$> phs))
              (firstn 3 (Base <$> pathsOf (patternOf path) (SrcPath <$> phs)))).
    split; [|done]. apply Hmember. simpl.
    rewrite Hgroups, lookup_empty. by case_decide.
  - intros g Hg%Hmember. destruct (Hentry _ _ Hg) as [Hsome Hshape].
    rewrite Hshape at 1 2 4 5. simpl. by rewrite Hshape.
  - intros Hsorted i j gi gj Hij Hi Hj.
    pose proof (StronglySorted_lookup _ _ i j gi gj Hsorted Hij Hi Hj) as Hnot.
    simpl in Hnot. unfold lessGroup in *.
    rewrite (Nat.eqb_sym (length (paths gi))).
    destruct (Nat.eqb_spec (length (paths gj)) (length (paths gi))) as [Hlen|Hlen].
    + apply ltb_total; [|done]. intros Hsame.
      assert (i = j) as Heq; [|lia].
      apply (NoDup_lookup _ i j (key gi) Hkeys); rewrite list_lookup_fmap.
      * by rewrite Hi.
      * by rewrite Hj, Hsame.
    + apply Nat.ltb_ge in Hnot. apply Nat.ltb_lt. lia.
Qed.

End UnknownGroupProps.

Lemma insertGroup_perm less (g : UnknownGroups.unknownGroup) (l : list UnknownGroups.unknownGroup) :
  UnknownGroups.insertGroup less g l ≡ₚ g :: l.
Proof.
  induction l as [|g' rest IH]; simpl; [done|].
  destruct (less g' g); [|done]. rewrite IH. apply Permutation_swap.
Qed.

Lemma sortGroups_perm less (l : list UnknownGroups.unknownGroup) :
  UnknownGroups.sortGroups less l ≡ₚ l.
Proof.
  unfold UnknownGroups.sortGroups. induction l as [|g rest IH]; simpl; [done|].
  by rewrite insertGroup_perm, IH.
Qed.

Lemma groupUnknownByPattern_partition_witness :
  let h := UnknownGroups.sampleUnknown in
  let unknown := [0; 1; 2; 3; 4; 5]%nat in
  exists phs,
    mapM (fun p => h !! p) unknown = Some phs
    /\ exists groups,
         UnknownGroups.groupUnknownByPattern MainCli.decodeAscii MainCli.encodeAscii
           map_to_list UnknownGroups.sortGroups h unknown = Some groups
         /\ NoDup (UnknownGroups.key <$> groups)
         /\ (forall path, path ∈ Models.SrcPath <$> phs ->
               exists g, g ∈ groups
                 /\ UnknownGroups.key g
                    = UnknownGroups.patternOf MainCli.decodeAscii MainCli.encodeAscii path)
         /\ (forall g, g ∈ groups ->
               UnknownGroups.paths g <> []
               /\ UnknownGroups.paths g
                  = UnknownGroups.pathsOf MainCli.decodeAscii MainCli.encodeAscii
                      (UnknownGroups.key g) (Models.SrcPath <$> phs)
               /\ UnknownGroups.examples g
                  = firstn 3 (FilePath.Base <$> UnknownGroups.paths g))
         /\ (StronglySorted (fun a b => UnknownGroups.lessGroup b a = false) groups ->
             forall i j gi gj, (i < j)%nat ->
               groups !! i = Some gi -> groups !! j = Some gj ->
               UnknownGroups.lessGroup gi gj = true).
Proof.
  intros h unknown. eexists. split; [vm_compute; reflexivity|].
  apply (groupUnknownByPattern_partition MainCli.decodeAscii MainCli.encodeAscii
           map_to_list UnknownGroups.sortGroups h unknown).
  - reflexivity.
  - apply sortGroups_perm.
  - vm_compute. reflexivity.
Defined.

(** ** The arguments handed to exiftool *)

Section WriterArgsProps.
Import GoString FilePath Metadata MetadataWriter WriterArgs.
Variable float : Type.
Variable formatFloat : float -> string.
Variable readHead : string -> option string.
Variable ToLower : string -> string.
Variable TrimSpace : string -> string.
Variable Parse : string -> string -> option Time.
Variable Format : Time -> string -> string.
Local Open Scope list_scope.

Abbreviation metaArgs := (WriterArgs.metaArgs float formatFloat TrimSpace Parse Format).
Abbreviation buildArgsForMeta :=
  (WriterArgs.buildArgsForMeta float formatFloat readHead ToLower TrimSpace Parse Format).
Abbreviation written :=
  (WriterArgs.written float formatFloat readHead ToLower TrimSpace Parse Format).
Abbreviation batchLoop :=
  (WriterArgs.batchLoop float formatFloat readHead ToLower TrimSpace Parse Format).
Abbreviation isOption := (fun arg : string => HasPrefix arg "-" = true).

Lemma option_if (b : bool) (args new : list string) :
  Forall isOption args -> Forall isOption new ->
  Forall isOption (if b then args ++ new else args).
Proof using Type. intros Hargs Hnew. destruct b; [by apply Forall_app|done]. Qed.

Lemma peopleLoop_options (people : list string) :
  forall args, Forall isOption args -> Forall isOption (peopleLoop TrimSpace people args).
Proof using Type.
  induction people as [|name rest IH]; intros args Hargs; simpl; [done|].
  destruct (String.eqb (TrimSpace name) ""); [by apply IH|].
  apply IH. apply Forall_app. split; [done|]. by repeat constructor.
Qed.

(** Every argument that is built from the metadata is an option. *)
Lemma metaArgs_options (ext : string) (meta : MetaData float) :
  Forall isOption (metaArgs ext meta).
Proof using Type.
  unfold WriterArgs.metaArgs. cbv zeta.
  do 3 (apply option_if; [|by repeat constructor]).
  apply peopleLoop_options.
  do 3 (apply option_if; [|by repeat constructor]).
  destruct (negb (String.eqb (CreationTime float meta) ""));
    [destruct (Parse RFC3339 (CreationTime float meta))|];
    try (apply Forall_app; split; [|by repeat constructor]);
    (destruct (negb (String.eqb (TakenTime float meta) ""));
       [destruct (Parse RFC3339 (TakenTime float meta)); [destruct (isVideoExt ext)|]|]);
    simpl; by repeat constructor.
Qed.

(** Metadata in which [HasWritableMeta] finds nothing gives no argument. *)
Lemma metaArgs_writable (ext : string) (meta : MetaData float) :
  HasWritableMeta float meta = false -> metaArgs ext meta = [].
Proof using Type.
  unfold WriterArgs.HasWritableMeta. intros Hnone.
  destruct (String.eqb (TakenTime float meta) "") eqn:Htaken;
    cbn [negb orb] in Hnone; [|discriminate Hnone].
  destruct (String.eqb (CreationTime float meta) "") eqn:Hcreation;
    cbn [negb orb] in Hnone; [|discriminate Hnone].
  destruct (HasGeo float meta) eqn:Hgeo; cbn [negb orb] in Hnone; [discriminate Hnone|].
  destruct (String.eqb (Description float meta) "") eqn:Hdescription;
    cbn [negb orb] in Hnone; [|discriminate Hnone].
  destruct (Favorited float meta) eqn:Hfavorited;
    cbn [negb orb] in Hnone; [discriminate Hnone|].
  destruct (String.eqb (URL float meta) "") eqn:Hurl;
    cbn [negb orb] in Hnone; [|discriminate Hnone].
  destruct (String.eqb (AppSource float meta) "") eqn:Happ;
    cbn [negb orb] in Hnone; [|discriminate Hnone].
  destruct (People float meta) as [|name rest] eqn:Hpeople; [|discriminate Hnone].
  destruct (String.eqb (buildOriginLabel (Origin float meta)) "") eqn:Hlabel;
    [|discriminate Hnone].
  unfold WriterArgs.metaArgs. cbv zeta.
  rewrite Htaken, Hcreation, Hgeo, Hdescription, Hfavorited, Hurl, Happ, Hpeople, Hlabel.
  reflexivity.
Qed.

Lemma buildArgsForMeta_ok (path : string) (meta : MetaData float) :
  (buildArgsForMeta path meta).2 = true ->
  HasWritableMeta float meta = true
  /\ supported (ToLower (Ext path)) = true
  /\ matchesExtension readHead path (ToLower (Ext path)) = true
  /\ metaArgs (ToLower (Ext path)) meta <> []
  /\ (buildArgsForMeta path meta).1 = metaArgs (ToLower (Ext path)) meta ++ [path].
Proof using Type.
  unfold WriterArgs.buildArgsForMeta. cbv zeta.
  destruct (supported (ToLower (Ext path))); [|done].
  destruct (matchesExtension readHead path (ToLower (Ext path))); [|done]. cbn [negb].
  destruct (metaArgs (ToLower (Ext path)) meta) as [|arg args] eqn:Hargs; [done|].
  intros _. split; [|done].
  destruct (HasWritableMeta float meta) eqn:Hwritable; [done|].
  by rewrite (metaArgs_writable _ _ Hwritable) in Hargs.
Qed.

Lemma written_cons (item : WriteItem float) (rest : list (WriteItem float)) :
  written (item :: rest)
  = if decide (Path float item <> ""
               /\ (buildArgsForMeta (Path float item) (Meta float item)).2 = true)
    then item :: written rest else written rest.
Proof using Type.
  exact (filter_cons
           (fun item => Path float item <> ""
                        /\ (buildArgsForMeta (Path float item) (Meta float item)).2 = true)
           item rest).
Qed.

(** An iteration adds the arguments of the item if the item has a path
    and [buildArgsForMeta] gives arguments for it. *)
Lemma batchLoop_cons (item : WriteItem float) (rest : list (WriteItem float))
    (args : list string) (wrote : Z) :
  batchLoop (item :: rest) (args, wrote)
  = if decide (Path float item <> ""
               /\ (buildArgsForMeta (Path float item) (Meta float item)).2 = true)
    then batchLoop rest
           ((args ++ (buildArgsForMeta (Path float item) (Meta float item)).1)
              ++ ["-execute"], wrote + 1)
    else batchLoop rest (args, wrote).
Proof using Type.
  cbn [WriterArgs.batchLoop].
  pose proof (buildArgsForMeta_ok (Path float item) (Meta float item)) as Hok.
  destruct (String.eqb_spec (Path float item) "") as [Hpath|Hpath]; cbn [orb].
  { destruct (decide _) as [[Hne _]|_]; [by destruct Hne|reflexivity]. }
  destruct (buildArgsForMeta (Path float item) (Meta float item)) as [itemArgs ok].
  cbn [fst snd] in *. destruct ok.
  - destruct (Hok eq_refl) as [-> _]. cbn [negb].
    destruct (decide _) as [_|Hnot]; [reflexivity|]. destruct Hnot. by split.
  - destruct (decide _) as [[_ Hbad]|_]; [discriminate Hbad|].
    by destruct (HasWritableMeta float (Meta float item)).
Qed.

Lemma batchLoop_written (items : list (WriteItem float)) :
  forall (args : list string) (wrote : Z),
    batchLoop items (args, wrote)
    = (args ++ concat ((fun item => (buildArgsForMeta (Path float item) (Meta float item)).1
                                    ++ ["-execute"]) <$> written items),
       wrote + Z.of_nat (length (written items))).
Proof using Type.
  induction items as [|item rest IH]; intros args wrote.
  - cbn [WriterArgs.batchLoop]. unfold WriterArgs.written. rewrite filter_nil.
    cbn [fmap list_fmap concat length]. by rewrite app_nil_r, Z.add_0_r.
  - rewrite batchLoop_cons, written_cons.
    destruct (decide _) as [_|_]; [|apply IH].
    rewrite IH, fmap_cons. cbn [concat length]. f_equal.
    + by rewrite <- !app_assoc.
    + lia.
Qed.

(** X30. The command line of [WriteMetaBatch]: after the four flags come,
    for each item that has a path and for which [buildArgsForMeta] gives
    arguments, these arguments and [-execute], in the order of the
    items, and [wrote] counts these items; the test of [HasWritableMeta]
    drops no such item. The arguments of an item are options, at least
    one, followed by the path, and the extension of the path is one of
    [supportedWriteExt]. *)
Theorem batchArgs_written (items : list (WriteItem float)) :
  batchArgs float formatFloat readHead ToLower TrimSpace Parse Format items
  = (["-overwrite_original"; "-q"; "-q"; "-m"]
       ++ concat ((fun item => (buildArgsForMeta (Path float item) (Meta float item)).1
                               ++ ["-execute"]) <$> written items),
     Z.of_nat (length (written items)))
  /\ forall item, item ∈ written items ->
       HasWritableMeta float (Meta float item) = true
       /\ supported (ToLower (Ext (Path float item))) = true
       /\ exists options,
            (buildArgsForMeta (Path float item) (Meta float item)).1
            = options ++ [Path float item]
            /\ options <> [] /\ Forall isOption options.
Proof using Type.
  split.
  - unfold WriterArgs.batchArgs. by rewrite batchLoop_written.
  - intros item Hitem. unfold WriterArgs.written in Hitem.
    apply (list_elem_of_filter
             (fun item => Path float item <> ""
                          /\ (buildArgsForMeta (Path float item) (Meta float item)).2 = true))
      in Hitem as [[_ Hok] _].
    destruct (buildArgsForMeta_ok _ _ Hok) as (Hwritable & Hext & _ & Hsome & Hargs).
    split; [done|]. split; [done|].
    exists (metaArgs (ToLower (Ext (Path float item))) (Meta float item)).
    split; [done|]. split; [done|]. apply metaArgs_options.
Qed.

End WriterArgsProps.
